(** * Instrument.js: resolver wrapping, schema wrapping and request lifecycle

    A shallow embedding of [src/Instrument.js] over a small model of the
    JavaScript run time it relies on: a heap of objects and arrays, native
    promises with their reaction lists, the microtask queue, the
    [setImmediate] queue, a monotonic and a wall clock, and the calls made to
    the reporting module. *)

From Stdlib Require Import ZArith Lia.
From stdpp Require Import base list strings option pretty.

Open Scope string_scope.
Open Scope list_scope.
Open Scope nat_scope.

(** ** Values *)

Abbreviation loc := nat (only parsing).    (* addresses of heap objects *)
Abbreviation pid := nat (only parsing).    (* identifiers of promises *)
Abbreviation fn_id := nat (only parsing).  (* functions of the application *)

(** Functions that the run time itself provides and that the code reaches
    through a property: [Array.prototype.push], [Promise.prototype.then] and
    [Promise.prototype.catch]. *)
Inductive builtin := BPush | BThen | BCatch.

Inductive value :=
| VUndef
| VNull
| VBool (b : bool)
| VNum (n : Z)
| VStr (s : string)
| VHr (t : Z)                               (* a [process.hrtime] pair, in nanoseconds *)
| VFieldInfo (typeName fieldName : string)  (* the literal [{ typeName, fieldName }] *)
| VObj (l : loc)                            (* an object or array of the heap *)
| VPromise (p : pid)                        (* a native promise *)
| VFun (k : fn_id)                          (* a function of the application *)
| VBuiltin (b : builtin).

#[global] Instance builtin_eq_dec : EqDecision builtin.
Proof. solve_decision. Defined.
#[global] Instance value_eq_dec : EqDecision value.
Proof. solve_decision. Defined.

(** Closures the instrumentation and the promise machinery create.  They are
    handed to [then]/[catch] and run by promise jobs, or by the function of
    the application that receives them; they are never stored in a heap
    object. *)
Inductive closure :=
| CApp (k : fn_id)
| CBuiltin (b : builtin)
| CFinishRun (resolverReport : loc) (datadogContext : value)
| COnRejected (resolverReport : loc) (datadogContext : value)
| CResolve (p : pid)
| CReject (p : pid)
| CAllElement (a : nat) (p : pid) (i : nat).

#[global] Instance closure_eq_dec : EqDecision closure.
Proof. solve_decision. Defined.

Inductive arg := AVal (v : value) | AFun (c : closure).

Definition arg_value (x : arg) : value :=
  match x with AVal v => v | AFun _ => VUndef end.

Definition arg_handler (x : arg) : option closure :=
  match x with
  | AFun c => Some c
  | AVal (VFun k) => Some (CApp k)
  | AVal (VBuiltin b) => Some (CBuiltin b)
  | AVal _ => None
  end.

Definition nth_arg (i : nat) (args : list arg) : arg :=
  default (AVal VUndef) (args !! i).

(** The exception raised by the run time itself. *)
Definition TypeError : value := VStr "TypeError".

Inductive result (X : Type) :=
| Ok (x : X)
| Thrown (e : value).
Arguments Ok {X} x.
Arguments Thrown {X} e.

(** What a function of the application does when it is called: it may call
    the functions it was handed as arguments, any number of times, each with
    a value of its choice, and see what each of these calls returns or
    throws; in the end it returns or throws and leaves the application in a
    new state.  [CallBack i x k] calls the [i]-th argument with [x] and goes
    on as [k] says. *)
Inductive behaviour (A : Type) : Type :=
| Return (r : result value) (a : A)
| CallBack (i : nat) (x : value) (k : result value → behaviour A).
Arguments Return {A} r a.
Arguments CallBack {A} i x k.

(** JavaScript truthiness. *)
Definition truthy (v : value) : bool :=
  match v with
  | VUndef | VNull => false
  | VBool b => b
  | VNum n => negb (bool_decide (n = 0%Z))
  | VStr s => negb (bool_decide (s = ""))
  | _ => true
  end.

Definition typeof_function (v : value) : bool :=
  match v with VFun _ | VBuiltin _ => true | _ => false end.

Definition typeof_object (v : value) : bool :=
  match v with
  | VNull | VHr _ | VFieldInfo _ _ | VObj _ | VPromise _ => true
  | _ => false
  end.

Definition typeof_undefined (v : value) : bool :=
  match v with VUndef => true | _ => false end.

(** ** Heap objects *)

(** A plain object keeps its property writes in order, newest first; a read
    returns the newest write of the key. *)
Inductive obj :=
| OObj (props : list (string * value))
| OArr (elems : list value).

Fixpoint assoc (k : string) (ps : list (string * value)) : option value :=
  match ps with
  | [] => None
  | (k', v) :: ps' => if bool_decide (k' = k) then Some v else assoc k ps'
  end.

(** Number of assignments to [k] an object has received. *)
Definition writes (k : string) (ps : list (string * value)) : nat :=
  length (filter (fun kv => kv.1 = k) ps).

(** ** Promises *)

Inductive pstate :=
| Pending
| Fulfilled (v : value)
| Rejected (e : value).

Definition settled (o : pstate) : bool :=
  match o with Pending => false | _ => true end.

Record reaction := Reaction {
  on_fulfilled : option closure;
  on_rejected : option closure;
  target : pid;
}.

Record promise := Promise {
  p_state : pstate;
  p_reactions : list reaction;
  p_ext : bool;   (* settled by the application, not by a promise job *)
}.

Inductive job :=
| JReaction (rx : reaction) (o : pstate)
| JThenable (p : pid) (thenable : value) (thn : value).

(** Book-keeping of one [Promise.all] call. *)
Record all_rec := AllRec {
  all_values : list (option value);
  all_remaining : nat;
}.

(** Calls received by the reporting module. *)
Inductive signal :=
| ReportRequestStart (datadogContext info ctx : value)
| ReportRequestEnd (req : value).

(** Tasks queued with [setImmediate]. *)
Inductive task :=
| TReportRequestEnd (req : value).

(** ** Machine state and the computation monad *)

Section Model.

(** The application's own state and the behaviour of its functions: a
    function receives [this] and its arguments and may change the
    application's state; it may call the functions of the run time and of the
    instrumentation that it is handed, before it returns or throws.  It does
    not write to the objects of the heap, which are those the instrumentation
    works on, and it does not keep a function it is handed to call it after it
    has returned; calls among the application's own functions are part of
    [app].  The promises the application hands out are settled from outside
    (the events [EvSettle] below). *)
Context {A : Type}.
Variable app : fn_id → value → list arg → A → behaviour A.

Record state := State {
  app_state : A;
  hr_now : Z;                   (* monotonic clock, nanoseconds *)
  wall_now : Z;                 (* wall clock, milliseconds *)
  heap : list obj;
  promises : list promise;
  alls : list all_rec;
  queue : list job;             (* microtasks *)
  immediates : list task;       (* setImmediate *)
  reports : list signal;
}.

Definition set_app (a : A) (s : state) : state :=
  State a (hr_now s) (wall_now s) (heap s) (promises s) (alls s) (queue s)
        (immediates s) (reports s).
Definition set_heap (h : list obj) (s : state) : state :=
  State (app_state s) (hr_now s) (wall_now s) h (promises s) (alls s) (queue s)
        (immediates s) (reports s).
Definition set_promises (ps : list promise) (s : state) : state :=
  State (app_state s) (hr_now s) (wall_now s) (heap s) ps (alls s) (queue s)
        (immediates s) (reports s).
Definition set_alls (al : list all_rec) (s : state) : state :=
  State (app_state s) (hr_now s) (wall_now s) (heap s) (promises s) al (queue s)
        (immediates s) (reports s).
Definition set_queue (q : list job) (s : state) : state :=
  State (app_state s) (hr_now s) (wall_now s) (heap s) (promises s) (alls s) q
        (immediates s) (reports s).
Definition set_immediates (im : list task) (s : state) : state :=
  State (app_state s) (hr_now s) (wall_now s) (heap s) (promises s) (alls s)
        (queue s) im (reports s).
Definition set_reports (rp : list signal) (s : state) : state :=
  State (app_state s) (hr_now s) (wall_now s) (heap s) (promises s) (alls s)
        (queue s) (immediates s) rp.
Definition set_clocks (hr wall : Z) (s : state) : state :=
  State (app_state s) hr wall (heap s) (promises s) (alls s)
        (queue s) (immediates s) (reports s).

(** A computation changes the state and returns or throws; the state changes
    made before a throw stay. *)
Definition M (X : Type) : Type := state → result X * state.

Definition ret {X} (x : X) : M X := fun s => (Ok x, s).
Definition throw {X} (e : value) : M X := fun s => (Thrown e, s).
Definition bind {X Y} (m : M X) (k : X → M Y) : M Y :=
  fun s => match m s with
           | (Ok x, s') => k x s'
           | (Thrown e, s') => (Thrown e, s')
           end.
Definition try_catch {X} (m : M X) (h : value → M X) : M X :=
  fun s => match m s with
           | (Ok x, s') => (Ok x, s')
           | (Thrown e, s') => h e s'
           end.
Definition modify (f : state → state) : M unit := fun s => (Ok tt, f s).
Definition gets {X} (f : state → X) : M X := fun s => (Ok (f s), s).

Notation "'let!' x ':=' m 'in' k" := (bind m (fun x => k))
  (at level 10, x name, m at level 100, k at level 200).
Notation "'do!' m 'in' k" := (bind m (fun _ => k))
  (at level 10, m at level 100, k at level 200).

(** ** Heap operations *)

Definition alloc (o : obj) : M loc :=
  fun s => (Ok (length (heap s)), set_heap (heap s ++ [o]) s).

(** [o[k]] for a value that is neither [null] nor [undefined].  Own
    properties only, and of arrays and promises the methods the code uses:
    what an object inherits from [Object.prototype] is not modelled. *)
Definition get_field (h : list obj) (v : value) (k : string) : value :=
  match v with
  | VObj l =>
      match h !! l with
      | Some (OObj ps) => default VUndef (assoc k ps)
      | Some (OArr es) =>
          if bool_decide (k = "push") then VBuiltin BPush
          else if bool_decide (k = "length") then VNum (Z.of_nat (length es))
          else VUndef
      | None => VUndef
      end
  | VPromise _ =>
      if bool_decide (k = "then") then VBuiltin BThen
      else if bool_decide (k = "catch") then VBuiltin BCatch
      else VUndef
  | VFieldInfo tn fn =>
      if bool_decide (k = "typeName") then VStr tn
      else if bool_decide (k = "fieldName") then VStr fn
      else VUndef
  | _ => VUndef
  end.

(** Property read: a [TypeError] on [null] and [undefined]. *)
Definition get_prop (v : value) (k : string) : M value :=
  match v with
  | VUndef | VNull => throw TypeError
  | _ => gets (fun s => get_field (heap s) v k)
  end.

(** Property assignment on an object of the heap. *)
Definition set_prop (l : loc) (k : string) (v : value) : M unit :=
  modify (fun s =>
    match heap s !! l with
    | Some (OObj ps) => set_heap (<[l := OObj ((k, v) :: ps)]> (heap s)) s
    | _ => s
    end).

(** [process.hrtime(time)]: the clock reading, or the time elapsed since an
    earlier reading; any other argument is refused. *)
Definition hrtime (time : value) : M value :=
  match time with
  | VUndef => gets (fun s => VHr (hr_now s))
  | VHr t0 => gets (fun s => VHr (hr_now s - t0)%Z)
  | _ => throw TypeError
  end.

(** [+new Date()]. *)
Definition date_now : M value := gets (fun s => VNum (wall_now s)).

(** ** Native promises *)

Definition new_promise (ext : bool) : M pid :=
  fun s => (Ok (length (promises s)),
            set_promises (promises s ++ [Promise Pending [] ext]) s).

(** Fulfil or reject a pending promise: its reactions become jobs, in
    registration order.  A promise that is not pending is left alone. *)
Definition settle (p : pid) (o : pstate) (s : state) : state :=
  match promises s !! p with
  | Some (Promise Pending rxs ext) =>
      set_queue (queue s ++ map (fun rx => JReaction rx o) rxs)
        (set_promises (<[p := Promise o [] ext]> (promises s)) s)
  | _ => s
  end.

Definition settle_promise (p : pid) (o : pstate) : M unit :=
  modify (settle p o).

Definition enqueue (j : job) (s : state) : state :=
  set_queue (queue s ++ [j]) s.

Definition is_pending (p : pid) (s : state) : bool :=
  match promises s !! p with
  | Some (Promise Pending _ _) => true
  | _ => false
  end.

(** The promise resolution procedure: a thenable is adopted by a later job,
    anything else fulfils the promise. *)
Definition resolve_promise (p : pid) (x : value) : M unit :=
  if bool_decide (x = VPromise p) then settle_promise p (Rejected TypeError)
  else if typeof_object x && negb (bool_decide (x = VNull)) || typeof_function x then
    let! thn := gets (fun s => get_field (heap s) x "then") in
    if typeof_function thn then
      modify (fun s => if is_pending p s then enqueue (JThenable p x thn) s else s)
    else settle_promise p (Fulfilled x)
  else settle_promise p (Fulfilled x).

(** [PerformPromiseThen] together with the creation of the derived promise. *)
Definition add_reaction (p : pid) (rx : reaction) (s : state) : state :=
  match promises s !! p with
  | Some (Promise Pending rxs ext) =>
      set_promises (<[p := Promise Pending (rxs ++ [rx]) ext]> (promises s)) s
  | Some (Promise o _ _) => enqueue (JReaction rx o) s
  | None => s
  end.

Definition perform_then (p : pid) (onF onR : option closure) : M value :=
  let! t := new_promise false in
  do! modify (add_reaction p (Reaction onF onR t)) in
  ret (VPromise t).

Definition array_push (this : value) (args : list arg) : M value :=
  match this with
  | VObj l =>
      fun s =>
        match heap s !! l with
        | Some (OArr es) =>
            let es' := es ++ map arg_value args in
            (Ok (VNum (Z.of_nat (length es'))),
             set_heap (<[l := OArr es']> (heap s)) s)
        | _ => (Thrown TypeError, s)
        end
  | _ => throw TypeError
  end.

Definition call_builtin (b : builtin) (this : value) (args : list arg) : M value :=
  match b with
  | BPush => array_push this args
  | BThen =>
      match this with
      | VPromise p =>
          perform_then p (arg_handler (nth_arg 0 args)) (arg_handler (nth_arg 1 args))
      | _ => throw TypeError
      end
  | BCatch =>
      match this with
      | VPromise p => perform_then p None (arg_handler (nth_arg 0 args))
      | _ => throw TypeError
      end
  end.

Definition all_add_element (a : nat) : M unit :=
  modify (fun s =>
    match alls s !! a with
    | Some (AllRec vs n) => set_alls (<[a := AllRec (vs ++ [None]) (S n)]> (alls s)) s
    | None => s
    end).

(** The end of a [Promise.all] count-down: when no element is outstanding the
    promise is resolved with the array of the values. *)
Definition all_count_down (a : nat) (p : pid) : M unit :=
  let! r := gets (fun s => alls s !! a) in
  match r with
  | Some (AllRec vs n) =>
      do! modify (fun s => set_alls (<[a := AllRec vs (pred n)]> (alls s)) s) in
      if bool_decide (pred n = 0) then
        let! arr := alloc (OArr (map (default VUndef) vs)) in
        resolve_promise p (VObj arr)
      else ret tt
  | None => ret tt
  end.

(** The resolve-element function of [Promise.all]: it counts once. *)
Definition all_resolve_element (a : nat) (p : pid) (i : nat) (x : value) : M unit :=
  let! r := gets (fun s => alls s !! a) in
  match r with
  | Some (AllRec vs n) =>
      match vs !! i with
      | Some None =>
          do! modify (fun s => set_alls (<[a := AllRec (<[i := Some x]> vs) n]> (alls s)) s) in
          all_count_down a p
      | _ => ret tt
      end
  | None => ret tt
  end.

(** ** Resolver wrapping: the closures of one invocation *)

(** [finishRun]: note the end time. *)
Definition finishRun (resolverReport : loc) (datadogContext : value) : M unit :=
  let! start := get_prop datadogContext "startHrTime" in
  let! t := hrtime start in
  set_prop resolverReport "endOffset" t.

(** The handler given to [catch]. *)
Definition onRejected (resolverReport : loc) (datadogContext : value) : M unit :=
  do! set_prop resolverReport "error" (VBool true) in
  finishRun resolverReport datadogContext.

(** A call of the closure [c] with the argument [x]; [call_fn] is what a call
    of a function of the application does. *)
Definition run_closure_with (call_fn : fn_id → value → list arg → M value)
    (c : closure) (x : value) : M value :=
  match c with
  | CApp k => call_fn k VUndef [AVal x]
  | CBuiltin b => call_builtin b VUndef [AVal x]
  | CFinishRun r dc => do! finishRun r dc in ret VUndef
  | COnRejected r dc => do! onRejected r dc in ret VUndef
  | CResolve p => do! resolve_promise p x in ret VUndef
  | CReject p => do! settle_promise p (Rejected x) in ret VUndef
  | CAllElement a p i => do! all_resolve_element a p i x in ret VUndef
  end.

(** ** Calls of the application's functions *)

(** The application calls the argument [h] it was handed, with [x].  An
    argument that is no function gives a [TypeError]; so does, in this model,
    one that is a function of the application itself, whose calls [app]
    accounts for. *)
Definition call_back (h : arg) (x : value) : M value :=
  match arg_handler h with
  | Some c => run_closure_with (fun _ _ _ => throw TypeError) c x
  | None => throw TypeError
  end.

Fixpoint run_behaviour (args : list arg) (b : behaviour A) : M value :=
  match b with
  | Return r a => fun s => (r, set_app a s)
  | CallBack i x k =>
      fun s => let '(r, s') := call_back (nth_arg i args) x s in
               run_behaviour args (k r) s'
  end.

Definition call_app (k : fn_id) (this : value) (args : list arg) : M value :=
  fun s => run_behaviour args (app k this args (app_state s)) s.

(** [f.call(this, ...args)]. *)
Definition call_value (f : value) (this : value) (args : list arg) : M value :=
  match f with
  | VFun k => call_app k this args
  | VBuiltin b => call_builtin b this args
  | _ => throw TypeError
  end.

(** [o.k(...args)]. *)
Definition call_method (o : value) (k : string) (args : list arg) : M value :=
  let! f := get_prop o k in
  call_value f o args.



(** [Promise.resolve(x)]. *)
Definition promise_resolve (x : value) : M value :=
  match x with
  | VPromise _ => ret x
  | _ =>
      let! t := new_promise false in
      do! resolve_promise t x in
      ret (VPromise t)
  end.

Fixpoint all_loop (a : nat) (p : pid) (i : nat) (elems : list value) : M unit :=
  match elems with
  | [] => ret tt
  | e :: rest =>
      do! all_add_element a in
      let! nextPromise := promise_resolve e in
      do! call_method nextPromise "then" [AFun (CAllElement a p i); AFun (CReject p)] in
      all_loop a p (S i) rest
  end.

(** [Promise.all(elems)]. *)
Definition promise_all (elems : list value) : M value :=
  let! p := new_promise false in
  let! a := (fun s => (Ok (length (alls s)), set_alls (alls s ++ [AllRec [] 1]) s)) in
  do! try_catch (do! all_loop a p 0 elems in all_count_down a p)
                (fun e => settle_promise p (Rejected e)) in
  ret (VPromise p).

Definition run_closure : closure → value → M value := run_closure_with call_app.

(** ** Promise jobs and the events of a run *)

Definition run_reaction (rx : reaction) (o : pstate) : M unit :=
  match o with
  | Pending => ret tt
  | Fulfilled v =>
      match on_fulfilled rx with
      | None => resolve_promise (target rx) v
      | Some c =>
          try_catch (let! x := run_closure c v in resolve_promise (target rx) x)
                    (fun e => settle_promise (target rx) (Rejected e))
      end
  | Rejected e =>
      match on_rejected rx with
      | None => settle_promise (target rx) (Rejected e)
      | Some c =>
          try_catch (let! x := run_closure c e in resolve_promise (target rx) x)
                    (fun e' => settle_promise (target rx) (Rejected e'))
      end
  end.

Definition run_job (j : job) : M unit :=
  match j with
  | JReaction rx o => run_reaction rx o
  | JThenable p x thn =>
      try_catch (do! call_value thn x [AFun (CResolve p); AFun (CReject p)] in ret tt)
                (fun e => settle_promise p (Rejected e))
  end.


(** ** Resolver wrapping *)

(** [a && b]. *)
Definition js_and (a : value) (b : M value) : M value :=
  if truthy a then b else ret a.

Definition is_array (h : list obj) (v : value) : bool :=
  match v with
  | VObj l => match h !! l with Some (OArr _) => true | _ => false end
  | _ => false
  end.

Definition array_elems (h : list obj) (v : value) : list value :=
  match v with
  | VObj l => match h !! l with Some (OArr es) => es | _ => [] end
  | _ => []
  end.

(** The elements [value] of the result with
    [value && typeof value.then === 'function']. *)
Definition collect_promises (h : list obj) (result : value) : list value :=
  filter (fun v => truthy v && typeof_function (get_field h v "then") = true)
         (array_elems h result).

(** The second [try] block of [decoratedResolver]: process the result of the
    resolver. *)
Definition process_result (resolverReport : loc) (datadogContext : value)
    (result : value) : M value :=
  let default_return :=
    do! finishRun resolverReport datadogContext in ret result in
  if bool_decide (result = VNull) then
    do! set_prop resolverReport "resultNull" (VBool true) in
    default_return
  else if typeof_undefined result then
    do! set_prop resolverReport "resultUndefined" (VBool true) in
    default_return
  else
    let! thn := get_prop result "then" in
    if typeof_function thn then
      let! p2 := call_method result "then"
                   [AFun (CFinishRun resolverReport datadogContext)] in
      do! call_method p2 "catch"
            [AFun (COnRejected resolverReport datadogContext)] in
      ret result
    else
      let! arr := gets (fun s => is_array (heap s) result) in
      if arr : bool then
        let! promises := gets (fun s => collect_promises (heap s) result) in
        if bool_decide (0 < length promises) then
          let! pa := promise_all promises in
          let! p2 := call_method pa "then"
                       [AFun (CFinishRun resolverReport datadogContext)] in
          do! call_method p2 "catch"
                [AFun (COnRejected resolverReport datadogContext)] in
          ret result
        else default_return
      else default_return.

Definition resolver_fn : Type := value → value → value → value → M value.

(** The properties a new [resolverReport] is created with. *)
Definition report_props (startOffset fieldInfo resolverInfo ctx : value)
    : list (string * value) :=
  [("resolverContext", ctx); ("resolverInfo", resolverInfo);
   ("fieldInfo", fieldInfo); ("startOffset", startOffset)].

(** Lines 118-126 of [decoratedResolver]: create the [resolverReport] and
    push it on [datadogContext.resolverCalls]. *)
Definition new_report (datadogContext fieldInfo ctx resolverInfo : value) : M loc :=
  let! start := get_prop datadogContext "startHrTime" in
  let! startOffset := hrtime start in
  let! resolverReport :=
    alloc (OObj (report_props startOffset fieldInfo resolverInfo ctx)) in
  let! calls := get_prop datadogContext "resolverCalls" in
  do! call_method calls "push" [AVal (VObj resolverReport)] in
  ret resolverReport.

Definition decoratedResolver (fn : resolver_fn) (fieldInfo : value)
    (p a ctx resolverInfo : value) : M value :=
  let! datadogContext := js_and ctx (get_prop ctx "datadogContext") in
  if negb (truthy datadogContext) then fn p a ctx resolverInfo
  else
    let! resolverReport := new_report datadogContext fieldInfo ctx resolverInfo in
    let! result :=
      try_catch (fn p a ctx resolverInfo)
        (fun e =>
           do! set_prop resolverReport "error" (VBool true) in
           do! finishRun resolverReport datadogContext in
           throw e) in
    try_catch (process_result resolverReport datadogContext result)
              (fun _ => ret result).

(** The property key a value stands for.  Objects, whose key is computed by
    their own [toString], all read as ["[object Object]"]. *)
Definition to_key (v : value) : string :=
  match v with
  | VStr s => s
  | VUndef => "undefined"
  | VNull => "null"
  | VBool true => "true"
  | VBool false => "false"
  | VNum n => pretty n
  | _ => "[object Object]"
  end.

(** Copied by the source from graphql-js. *)
Definition defaultResolveFn (source args context info : value) : M value :=
  let! fieldName := get_prop info "fieldName" in
  if typeof_object source || typeof_function source then
    let! property := get_prop source (to_key fieldName) in
    if typeof_function property then
      call_method source (to_key fieldName) [AVal args; AVal context]
    else ret property
  else ret VUndef.

(** The resolvers the model runs: a function of the application, the default
    resolver, or a resolver decorated by [decorateField]. *)
Inductive resolver :=
| RApp (k : fn_id)
| RDefault
| RDecorated (fn : resolver) (fieldInfo : value).

Fixpoint call_resolver (f : resolver) : resolver_fn :=
  match f with
  | RApp k => fun p a ctx info => call_app k VUndef [AVal p; AVal a; AVal ctx; AVal info]
  | RDefault => defaultResolveFn
  | RDecorated fn fieldInfo => decoratedResolver (call_resolver fn) fieldInfo
  end.

(** ** Schema wrapping *)

(** Modelled from the spec: the reporting module [./Report] is not part of
    the sources at hand; it receives the signal "trace started" with the
    RequestContext, the root invocation info and the context, and the signal
    "trace finished" with the request. *)
Definition reportRequestStart (datadogContext info ctx : value) : M unit :=
  modify (fun s => set_reports (reports s ++ [ReportRequestStart datadogContext info ctx]) s).

Definition reportRequestEnd (req : value) : M unit :=
  modify (fun s => set_reports (reports s ++ [ReportRequestEnd req]) s).

(** The function given to [addSchemaLevelResolveFunction]. *)
Definition schemaLevelResolve (root args ctx info : value) : M value :=
  let! datadogContext := get_prop ctx "datadogContext" in
  do! (if truthy datadogContext
       then reportRequestStart datadogContext info ctx else ret tt) in
  ret root.

Inductive root_fn := SchemaLevelResolve.

Definition call_root_fn (f : root_fn) : resolver_fn :=
  match f with SchemaLevelResolve => schemaLevelResolve end.

(** The functions that the [resolve] property of a field can hold: a
    function of the application, the default resolver, what [decorateField]
    makes of a function, and what graphql-tools makes when a schema-level
    resolve function is added: a function that calls the schema-level function
    [outer] and then the function [inner] it has replaced, if there was one.
    The library's functions are not run by this model. *)
#[local] Set Warnings "-register-all".
Inductive resolve_fn :=
| FApp (k : fn_id)
| FDefault
| FDecorated (fn : resolve_fn) (fieldInfo : value)
| FSchemaLevel (outer : root_fn) (inner : option resolve_fn).

(** [decorateField] returns [decoratedResolver], as a function value. *)
Definition decorateField (fn : resolve_fn) (fieldInfo : value) : resolve_fn :=
  FDecorated fn fieldInfo.

(** [decoratedResolver.$proxy]. *)
Definition proxy (f : resolve_fn) : option resolve_fn :=
  match f with FDecorated fn _ => Some fn | _ => None end.

(** The resolver that a function value is, when no function of the library
    is part of it. *)
Fixpoint runnable (f : resolve_fn) : option resolver :=
  match f with
  | FApp k => Some (RApp k)
  | FDefault => Some RDefault
  | FDecorated fn fieldInfo => (fun r => RDecorated r fieldInfo) <$> runnable fn
  | FSchemaLevel _ _ => None
  end.

(** Number of [decorateField] layers in a function value. *)
Fixpoint layers (f : resolve_fn) : nat :=
  match f with
  | FDecorated fn _ => S (layers fn)
  | FSchemaLevel _ (Some fn) => layers fn
  | _ => 0
  end.

Record field := Field {
  typeName : string;
  fieldName : string;
  resolve : option resolve_fn;
}.

(** An executable schema, as far as instrumentation sees it: the marker, the
    names of its root types (query, mutation, subscription) and the fields of
    its object types. *)
Record schema := Schema {
  _opticsInstrumented : bool;
  rootTypes : list string;
  fields : list field;
}.

(** graphql-tools is not part of the sources.  Of the two functions that
    [instrumentSchema] uses the model keeps what they do to the schema:
    [forEachField(schema, fn)] calls [fn] on every field of every object
    type; [addSchemaLevelResolveFunction(schema, fn)] replaces the [resolve]
    of every field of a root type by a function of its own, which calls [fn]
    and then the function it has replaced. *)
Definition forEachField (sch : schema) (fn : field → field) : schema :=
  Schema (_opticsInstrumented sch) (rootTypes sch) (map fn (fields sch)).

Definition root_field (sch : schema) (f : field) : bool :=
  bool_decide (typeName f ∈ rootTypes sch).

Definition addSchemaLevelResolveFunction (sch : schema) (fn : root_fn) : schema :=
  Schema (_opticsInstrumented sch) (rootTypes sch)
         (map (fun f => if root_field sch f
                        then Field (typeName f) (fieldName f)
                                   (Some (FSchemaLevel fn (resolve f)))
                        else f)
              (fields sch)).

(** The callback [instrumentSchema] gives to [forEachField]. *)
Definition instrumentField (f : field) : field :=
  let resolve0 :=
    match resolve f with
    | Some fn => fn
    | None => FDefault
    end in
  Field (typeName f) (fieldName f)
        (Some (decorateField resolve0 (VFieldInfo (typeName f) (fieldName f)))).

Definition instrumentSchema (sch : schema) : schema :=
  if _opticsInstrumented sch then sch
  else
    let marked := Schema true (rootTypes sch) (fields sch) in
    addSchemaLevelResolveFunction (forEachField marked instrumentField)
                                  SchemaLevelResolve.

(** ** Request wrapping *)

(** [o.k = v] in strict mode. *)
Definition put_prop (o : value) (k : string) (v : value) : M unit :=
  match o with
  | VUndef | VNull | VBool _ | VNum _ | VStr _ => throw TypeError
  | VObj l => set_prop l k v
  | _ => ret tt
  end.

Definition setImmediate (t : task) : M unit :=
  modify (fun s => set_immediates (immediates s ++ [t]) s).

Definition preRequest (req : value) : M unit :=
  let! startWallTime := date_now in
  let! startHrTime := hrtime VUndef in
  let! resolverCalls := alloc (OArr []) in
  let! context :=
    alloc (OObj [("resolverCalls", VObj resolverCalls); ("startHrTime", startHrTime);
                 ("startWallTime", startWallTime); ("req", req)]) in
  put_prop req "_datadogContext" (VObj context).

Definition postRequest (req : value) : M unit :=
  let! context := get_prop req "_datadogContext" in
  if truthy context then
    let! start := get_prop context "startHrTime" in
    let! duration := hrtime start in
    do! put_prop context "durationHrTime" duration in
    let! endWallTime := date_now in
    do! put_prop context "endWallTime" endWallTime in
    setImmediate (TReportRequestEnd req)
  else ret tt.

Definition newContext (req agent : value) : M value :=
  let! context0 := get_prop req "_datadogContext" in
  let! context :=
    (if negb (truthy context0) then
       do! call_method agent "debugFn"
             [AVal (VStr "Optics context not found. Make sure Optics middleware is installed.")] in
       do! preRequest req in
       get_prop req "_datadogContext"
     else ret context0) in
  do! put_prop context "agent" agent in
  ret context.

(** [instrumentHapiServer] gives [server.ext] two handlers, one of type
    [onPreHandler] and one of type [onPostHandler]; these are their bodies. *)
Definition hapi_onPreHandler (request reply : value) : M value :=
  let! raw := get_prop request "raw" in
  let! req := get_prop raw "req" in
  do! preRequest req in
  call_method reply "continue" [].

Definition hapi_onPostHandler (request reply : value) : M value :=
  let! raw := get_prop request "raw" in
  let! req := get_prop raw "req" in
  do! postRequest req in
  call_method reply "continue" [].

Definition run_task (t : task) : M unit :=
  match t with TReportRequestEnd req => reportRequestEnd req end.


(** ** Runs

    What happens around and after a resolver invocation: the application
    settles one of its promises, the next microtask runs, time passes, a
    resolver is invoked for another field. *)

Inductive event :=
| EvSettle (p : pid) (o : pstate)
| EvRunJob
| EvTick (dhr : N) (dwall : Z)
| EvCall (f : resolver) (p a ctx info : value).

Definition is_ext (p : pid) (s : state) : bool :=
  match promises s !! p with
  | Some pr => p_ext pr
  | None => false
  end.

Definition exec_event (ev : event) (s : state) : state :=
  match ev with
  | EvSettle p o =>
      if is_ext p s then
        match o with
        | Pending => s
        | Fulfilled v => (resolve_promise p v s).2
        | Rejected e => (settle_promise p (Rejected e) s).2
        end
      else s
  | EvRunJob =>
      match queue s with
      | [] => s
      | j :: rest => (run_job j (set_queue rest s)).2
      end
  | EvTick dhr dwall => set_clocks (hr_now s + Z.of_N dhr)%Z (wall_now s + dwall)%Z s
  | EvCall f p a ctx info => (call_resolver f p a ctx info s).2
  end.

Definition run_events (evs : list event) (s : state) : state :=
  foldl (fun s ev => exec_event ev s) s evs.

(** Run the next [n] microtasks. *)
Definition run_jobs (n : nat) (s : state) : state :=
  Nat.iter n (exec_event EvRunJob) s.

(** ** Reading a record *)

Definition state_of_promise (p : pid) (s : state) : pstate :=
  match promises s !! p with
  | Some pr => p_state pr
  | None => Pending
  end.

Definition record_props (r : loc) (s : state) : list (string * value) :=
  match heap s !! r with
  | Some (OObj ps) => ps
  | _ => []
  end.

Definition field_of (r : loc) (k : string) (s : state) : value :=
  get_field (heap s) (VObj r) k.


(** ** One invocation, taken apart

    The parts of [decoratedResolver] and the shapes of its arguments that
    the statements below speak of. *)

(** The context argument carries a RequestContext: [ctx.datadogContext] is an
    object with the [startHrTime] and the [resolverCalls] array that
    [preRequest] gave it. *)
Definition request_context (s : state) (ctx : value) (c l : loc) (t0 : Z)
    (calls : list value) : Prop :=
  truthy ctx = true ∧
  get_field (heap s) ctx "datadogContext" = VObj c ∧
  ∃ pc, heap s !! c = Some (OObj pc) ∧
        assoc "startHrTime" pc = Some (VHr t0) ∧
        assoc "resolverCalls" pc = Some (VObj l) ∧
        heap s !! l = Some (OArr calls).

(** The record of the invocation, as created. *)
Definition new_props (s : state) (t0 : Z) (fieldInfo ctx info : value)
    : list (string * value) :=
  report_props (VHr (hr_now s - t0)) fieldInfo info ctx.

(** The state in which the wrapped function is called: the record is
    allocated and pushed on [resolverCalls]. *)
Definition called_state (s : state) (l : loc) (t0 : Z) (calls : list value)
    (fieldInfo ctx info : value) : state :=
  set_heap (<[l := OArr (calls ++ [VObj (length (heap s))])]>
              (heap s ++ [OObj (new_props s t0 fieldInfo ctx info)])) s.

(** The context argument carries no RequestContext: it is falsy, or its
    [datadogContext] is. *)
Definition no_context (h : list obj) (ctx : value) : Prop :=
  truthy ctx = false ∨ truthy (get_field h ctx "datadogContext") = false.

(** What [decoratedResolver] does before it calls the wrapped function:
    nothing to record ([None]), or a new record and the context it belongs to. *)
Definition prologue (fieldInfo p a ctx resolverInfo : value) : M (option (loc * value)) :=
  let! datadogContext := js_and ctx (get_prop ctx "datadogContext") in
  if negb (truthy datadogContext) then ret None
  else
    let! resolverReport := new_report datadogContext fieldInfo ctx resolverInfo in
    ret (Some (resolverReport, datadogContext)).

(** What it does after the wrapped function has returned or thrown. *)
Definition epilogue (resolverReport : loc) (datadogContext : value)
    (out : result value) : M value :=
  match out with
  | Ok result =>
      try_catch (process_result resolverReport datadogContext result)
                (fun _ => ret result)
  | Thrown e =>
      do! set_prop resolverReport "error" (VBool true) in
      do! finishRun resolverReport datadogContext in
      throw e
  end.

(** The context argument of a field call: with a RequestContext, or without. *)
Definition context_arg (s : state) (ctx : value) : Prop :=
  no_context (heap s) ctx ∨ ∃ c l t0 calls, request_context s ctx c l t0 calls.

(** The deferred values of a result, as [decoratedResolver] finds them: the
    result itself when [typeof result.then === 'function'], or those elements
    of an array result that pass the same test. *)
Definition deferred (h : list obj) (result : value) : list value :=
  if bool_decide (result = VNull) then []
  else if typeof_undefined result then []
  else if typeof_function (get_field h result "then") then [result]
  else collect_promises h result.

(** A promise of the runtime, as opposed to a thenable of the application. *)
Definition native (s : state) (x : value) : Prop :=
  ∃ e, x = VPromise e ∧ e < length (promises s).

(** A field of a schema that has not been instrumented: the function in its
    [resolve], if there is one, carries no decoration. *)
Definition undecorated (f : field) : Prop :=
  match resolve f with
  | Some fn => layers fn = 0
  | None => True
  end.

(** The function a field has before instrumentation, the default resolver if
    none. *)
Definition base_resolver (f : field) : resolve_fn :=
  match resolve f with
  | Some fn => fn
  | None => FDefault
  end.

(** A call of the decorated resolver [f] is the prologue, then a call of
    [fn], then the epilogue, neither of which has [fn] at hand; when the
    prologue throws, [fn] is not called.  The prologue does not throw when
    the context argument is one of [context_arg]. *)
Definition calls_once (f fn : resolver) (fieldInfo : value) : Prop :=
  ∀ p a ctx info s,
    call_resolver f p a ctx info s =
    match prologue fieldInfo p a ctx info s with
    | (Ok None, s1) => call_resolver fn p a ctx info s1
    | (Ok (Some (r, dc)), s1) =>
        let '(out, s2) := call_resolver fn p a ctx info s1 in epilogue r dc out s2
    | (Thrown e, s1) => (Thrown e, s1)
    end ∧
    (context_arg s ctx → ∃ o s1, prologue fieldInfo p a ctx info s = (Ok o, s1)).

(** A field of an instrumented schema: the function of [f0], decorated once;
    on a field of a root type, under the function that graphql-tools has made
    for the schema-level resolve function. *)
Definition wrapped_once (root : bool) (f0 f1 : field) : Prop :=
  let fieldInfo := VFieldInfo (typeName f0) (fieldName f0) in
  let decorated := decorateField (base_resolver f0) fieldInfo in
  typeName f1 = typeName f0 ∧ fieldName f1 = fieldName f0 ∧
  resolve f1 = Some (if root then FSchemaLevel SchemaLevelResolve (Some decorated)
                     else decorated) ∧
  (∀ rf, resolve f1 = Some rf → layers rf = 1) ∧
  ∀ fn, runnable (base_resolver f0) = Some fn →
        calls_once (RDecorated fn fieldInfo) fn fieldInfo.

(** The context [preRequest] creates at a given time. *)
Definition context_props (s : state) (req : value) : list (string * value) :=
  [("resolverCalls", VObj (length (heap s))); ("startHrTime", VHr (hr_now s));
   ("startWallTime", VNum (wall_now s)); ("req", req)].


(** ** What a step of the rest of the program may do

    An invocation owns its [resolverReport], the promise derived by
    [then(finishRun)] and, for an array result, the count-down of its
    [Promise.all].  [avoid] names what is owned; a closure, reaction or job is
    clean when it names only allocated things and none that is owned. *)

Record avoid := Avoid {
  av_rec : loc → Prop;
  av_pid : pid → Prop;
  av_all : nat → Prop;
}.

Record bounds := Bounds { b_heap : nat; b_prom : nat; b_alls : nat }.

Definition bounds_of (s : state) : bounds :=
  Bounds (length (heap s)) (length (promises s)) (length (alls s)).

Definition bounds_le (b b' : bounds) : Prop :=
  b_heap b ≤ b_heap b' ∧ b_prom b ≤ b_prom b' ∧ b_alls b ≤ b_alls b'.

Section Rely.

Variable av : avoid.

Definition clean_tgt (b : bounds) (t : pid) : Prop :=
  t < b_prom b ∧ ¬ av_pid av t.

Definition clean_cl (b : bounds) (c : closure) : Prop :=
  match c with
  | CApp _ | CBuiltin _ => True
  | CFinishRun r _ | COnRejected r _ => r < b_heap b ∧ ¬ av_rec av r
  | CResolve p | CReject p => clean_tgt b p
  | CAllElement a p _ => a < b_alls b ∧ ¬ av_all av a ∧ clean_tgt b p
  end.

Definition clean_opt (b : bounds) (oc : option closure) : Prop :=
  match oc with
  | Some c => clean_cl b c
  | None => True
  end.

Definition clean_rx (b : bounds) (rx : reaction) : Prop :=
  clean_opt b (on_fulfilled rx) ∧ clean_opt b (on_rejected rx) ∧
  clean_tgt b (target rx).

(** A job runs one handler of its reaction only. *)
Definition clean_job (b : bounds) (j : job) : Prop :=
  match j with
  | JReaction rx (Fulfilled _) => clean_opt b (on_fulfilled rx) ∧ clean_tgt b (target rx)
  | JReaction rx (Rejected _) => clean_opt b (on_rejected rx) ∧ clean_tgt b (target rx)
  | JReaction rx Pending => True
  | JThenable p _ _ => clean_tgt b p
  end.

(** What is owned is allocated. *)
Definition avoid_alloc (s : state) : Prop :=
  (∀ l, av_rec av l → l < length (heap s)) ∧
  (∀ p, av_pid av p → p < length (promises s)) ∧
  (∀ a, av_all av a → a < length (alls s)).

(** Steps that leave alone what is owned. *)
Inductive fstep : state → state → Prop :=
| fs_refl s : fstep s s
| fs_trans s1 s2 s3 : fstep s1 s2 → fstep s2 s3 → fstep s1 s3
| fs_misc s a hr w im rp :
    fstep s (State a hr w (heap s) (promises s) (alls s) (queue s) im rp)
| fs_alloc s o : fstep s (set_heap (heap s ++ [o]) s)
| fs_set s l ps k v :
    heap s !! l = Some (OObj ps) → ¬ av_rec av l → k ≠ "startHrTime" →
    fstep s (set_heap (<[l := OObj ((k, v) :: ps)]> (heap s)) s)
| fs_push s l es es' :
    heap s !! l = Some (OArr es) →
    fstep s (set_heap (<[l := OArr es']> (heap s)) s)
| fs_newp s ext :
    fstep s (set_promises (promises s ++ [Promise Pending [] ext]) s)
| fs_react s q rxs ext rx :
    promises s !! q = Some (Promise Pending rxs ext) →
    clean_rx (bounds_of s) rx →
    fstep s (set_promises (<[q := Promise Pending (rxs ++ [rx]) ext]> (promises s)) s)
| fs_settle s q rxs ext o :
    promises s !! q = Some (Promise Pending rxs ext) →
    ¬ av_pid av q → settled o = true →
    fstep s (set_queue (queue s ++ map (fun rx => JReaction rx o) rxs)
               (set_promises (<[q := Promise o [] ext]> (promises s)) s))
| fs_job s j :
    clean_job (bounds_of s) j →
    fstep s (enqueue j s)
| fs_alls s al :
    (∀ a, av_all av a → al !! a = alls s !! a) →
    length (alls s) ≤ length al →
    fstep s (set_alls al s).

End Rely.


(** ** Steps of the rest of the program: basic facts *)

Section RelyFacts.

Variable av : avoid.

Lemma bounds_le_refl b : bounds_le b b.
Proof. unfold bounds_le; lia. Qed.

Lemma bounds_le_trans b1 b2 b3 : bounds_le b1 b2 → bounds_le b2 b3 → bounds_le b1 b3.
Proof. unfold bounds_le; lia. Qed.

Lemma clean_tgt_mono b b' t : bounds_le b b' → clean_tgt av b t → clean_tgt av b' t.
Proof. unfold bounds_le, clean_tgt; intros ? [? ?]; split; [lia | done]. Qed.

Lemma clean_cl_mono b b' c : bounds_le b b' → clean_cl av b c → clean_cl av b' c.
Proof.
  intros Hb; destruct c; simpl; try done;
    try (intros [? ?]; split; [unfold bounds_le in Hb; lia | done]);
    try (apply clean_tgt_mono; done).
  intros (? & ? & ?); split_and!; [unfold bounds_le in Hb; lia | done |].
  by eapply clean_tgt_mono.
Qed.

Lemma clean_opt_mono b b' oc : bounds_le b b' → clean_opt av b oc → clean_opt av b' oc.
Proof. destruct oc; simpl; [apply clean_cl_mono | done]. Qed.

Lemma clean_rx_mono b b' rx : bounds_le b b' → clean_rx av b rx → clean_rx av b' rx.
Proof.
  intros Hb (? & ? & ?); split_and!;
    eauto using clean_opt_mono, clean_tgt_mono.
Qed.

Lemma clean_job_mono b b' j : bounds_le b b' → clean_job av b j → clean_job av b' j.
Proof.
  intros Hb; destruct j as [rx [| |]|]; simpl; try done.
  - intros [? ?]; split; eauto using clean_opt_mono, clean_tgt_mono.
  - intros [? ?]; split; eauto using clean_opt_mono, clean_tgt_mono.
  - by apply clean_tgt_mono.
Qed.

Lemma clean_rx_job b rx o : clean_rx av b rx → clean_job av b (JReaction rx o).
Proof. intros (? & ? & ?); destruct o; simpl; done. Qed.

Lemma fstep_bounds s s' : fstep av s s' → bounds_le (bounds_of s) (bounds_of s').
Proof.
  induction 1; unfold bounds_le, bounds_of in *; simpl in *;
    rewrite ?length_app, ?length_insert; simpl; try lia.
Qed.

Lemma avoid_alloc_mono s s' : fstep av s s' → avoid_alloc av s → avoid_alloc av s'.
Proof.
  intros Hs (H1 & H2 & H3). apply fstep_bounds in Hs.
  unfold bounds_le, bounds_of in Hs; simpl in Hs.
  split_and!; intros x Hx; [apply H1 in Hx | apply H2 in Hx | apply H3 in Hx]; lia.
Qed.

(** Computations that read only. *)
Lemma get_prop_state v k s : (get_prop v k s).2 = s.
Proof. by destruct v. Qed.

Lemma hrtime_state v s : (hrtime v s).2 = s.
Proof. by destruct v. Qed.

Lemma bind_run {X Y} (m : M X) (k : X → M Y) s :
  bind m k s = match m s with
               | (Ok x, s') => k x s'
               | (Thrown e, s') => (Thrown e, s')
               end.
Proof. done. Qed.

(** Heap, application state and promise creation. *)
Lemma alloc_fstep o s : fstep av s (alloc o s).2.
Proof. apply fs_alloc. Qed.

Lemma set_prop_fstep l k v s :
  ¬ av_rec av l → k ≠ "startHrTime" → fstep av s (set_prop l k v s).2.
Proof.
  intros Hl Hk. unfold set_prop, modify; simpl.
  destruct (heap s !! l) as [[ps|es]|] eqn:E; try apply fs_refl.
  by eapply fs_set.
Qed.

Lemma array_push_fstep this args s : fstep av s (array_push this args s).2.
Proof.
  destruct this; simpl; try apply fs_refl.
  destruct (heap s !! l) as [[ps|es]|] eqn:E; simpl; try apply fs_refl.
  by eapply fs_push.
Qed.

Lemma new_promise_fstep ext s : fstep av s (new_promise ext s).2.
Proof. apply fs_newp. Qed.

Lemma settle_fstep p o s :
  settled o = true → ¬ av_pid av p → fstep av s (settle p o s).
Proof.
  intros Ho Hp. unfold settle.
  destruct (promises s !! p) as [[[| |] rxs ext]|] eqn:E; try apply fs_refl.
  by eapply fs_settle.
Qed.

Lemma settle_promise_fstep p o s :
  settled o = true → ¬ av_pid av p → fstep av s (settle_promise p o s).2.
Proof. apply settle_fstep. Qed.

Lemma is_pending_lt p s : is_pending p s = true → p < length (promises s).
Proof.
  unfold is_pending. destruct (promises s !! p) eqn:E; [|done].
  intros _. by eapply lookup_lt_Some.
Qed.

Lemma resolve_promise_fstep p x s :
  ¬ av_pid av p → fstep av s (resolve_promise p x s).2.
Proof.
  intros Hp. unfold resolve_promise.
  case_bool_decide; [by apply settle_promise_fstep|].
  destruct (_ || _); [|by apply settle_promise_fstep].
  unfold bind, gets; simpl.
  destruct (typeof_function _); [|by apply settle_promise_fstep].
  unfold modify; simpl.
  destruct (is_pending p s) eqn:E; [|apply fs_refl].
  apply fs_job; simpl. split; [by apply is_pending_lt | done].
Qed.

Lemma add_reaction_fstep p rx s :
  clean_rx av (bounds_of s) rx → fstep av s (add_reaction p rx s).
Proof.
  intros Hrx. unfold add_reaction.
  destruct (promises s !! p) as [[[| |] rxs ext]|] eqn:E.
  - by eapply fs_react.
  - apply fs_job. by apply clean_rx_job.
  - apply fs_job. by apply clean_rx_job.
  - apply fs_refl.
Qed.

Lemma perform_then_run p onF onR s :
  perform_then p onF onR s =
  (Ok (VPromise (length (promises s))),
   add_reaction p (Reaction onF onR (length (promises s)))
     (set_promises (promises s ++ [Promise Pending [] false]) s)).
Proof. done. Qed.

Lemma fresh_tgt s ext :
  avoid_alloc av s →
  clean_tgt av (bounds_of (set_promises (promises s ++ [Promise Pending [] ext]) s))
            (length (promises s)).
Proof.
  intros (_ & H2 & _). unfold clean_tgt; simpl. rewrite length_app; simpl.
  split; [lia|]. intros Hav. apply H2 in Hav. lia.
Qed.

Lemma perform_then_fstep p onF onR s :
  avoid_alloc av s →
  clean_opt av (bounds_of s) onF → clean_opt av (bounds_of s) onR →
  fstep av s (perform_then p onF onR s).2.
Proof.
  intros Hal HF HR. rewrite perform_then_run; simpl.
  eapply fs_trans; [apply (fs_newp av s false)|].
  apply add_reaction_fstep.
  assert (Hb := fstep_bounds _ _ (fs_newp av s false)).
  split_and!; simpl; eauto using clean_opt_mono, fresh_tgt.
Qed.

(** Sequencing. *)
Lemma fstep_bind {X Y} (m : M X) (k : X → M Y) s :
  fstep av s (m s).2 →
  (∀ x s1, m s = (Ok x, s1) → fstep av s s1 → fstep av s1 (k x s1).2) →
  fstep av s (bind m k s).2.
Proof.
  intros Hm Hk. rewrite bind_run.
  destruct (m s) as [[x|e] s1] eqn:E; simpl in *; [|done].
  eapply fs_trans; [exact Hm|]. by apply Hk.
Qed.

Lemma fstep_bind_ro {X Y} (m : M X) (k : X → M Y) s :
  (m s).2 = s →
  (∀ x, m s = (Ok x, s) → fstep av s (k x s).2) →
  fstep av s (bind m k s).2.
Proof.
  intros Hm Hk. rewrite bind_run.
  destruct (m s) as [[x|e] s1] eqn:E; simpl in *; subst; [|apply fs_refl].
  by apply Hk.
Qed.

Lemma fstep_try {X} (m : M X) (h : value → M X) s :
  fstep av s (m s).2 →
  (∀ e s1, m s = (Thrown e, s1) → fstep av s s1 → fstep av s1 (h e s1).2) →
  fstep av s (try_catch m h s).2.
Proof.
  intros Hm Hh. unfold try_catch.
  destruct (m s) as [[x|e] s1] eqn:E; simpl in *; [done|].
  eapply fs_trans; [exact Hm|]. by apply Hh.
Qed.

Lemma fstep_ret {X} (x : X) s : fstep av s (ret x s).2.
Proof. apply fs_refl. Qed.

Lemma fstep_throw {X} e s : fstep av s (@throw X e s).2.
Proof. apply fs_refl. Qed.

(** Calls. *)
Definition clean_arg (b : bounds) (x : arg) : Prop :=
  match x with
  | AFun c => clean_cl av b c
  | AVal _ => True
  end.

Lemma arg_handler_clean b x : clean_arg b x → clean_opt av b (arg_handler x).
Proof. destruct x as [[]|]; simpl; done. Qed.

Lemma nth_arg_clean b i args : Forall (clean_arg b) args → clean_arg b (nth_arg i args).
Proof.
  intros H. unfold nth_arg. destruct (args !! i) eqn:E; simpl; [|done].
  eapply Forall_lookup_1; eauto.
Qed.

Lemma call_builtin_fstep b this args s :
  avoid_alloc av s → Forall (clean_arg (bounds_of s)) args →
  fstep av s (call_builtin b this args s).2.
Proof.
  intros Hal Hargs. destruct b; simpl.
  - apply array_push_fstep.
  - destruct this; try apply fs_refl.
    apply perform_then_fstep; auto using arg_handler_clean, nth_arg_clean.
  - destruct this; try apply fs_refl.
    apply perform_then_fstep; simpl; auto using arg_handler_clean, nth_arg_clean.
Qed.

(** The closures of an invocation that is not the owner. *)
Lemma finishRun_fstep r dc s :
  ¬ av_rec av r → fstep av s (finishRun r dc s).2.
Proof.
  intros Hr. unfold finishRun.
  apply fstep_bind_ro; [apply get_prop_state|]. intros start _.
  apply fstep_bind_ro; [apply hrtime_state|]. intros t _.
  by apply set_prop_fstep.
Qed.

Lemma onRejected_fstep r dc s :
  ¬ av_rec av r → fstep av s (onRejected r dc s).2.
Proof.
  intros Hr. unfold onRejected.
  apply fstep_bind; [by apply set_prop_fstep|].
  intros _ s1 _ _. by apply finishRun_fstep.
Qed.

(** [Promise.all]. *)
Lemma set_alls_insert_fstep a rec s :
  ¬ av_all av a → fstep av s (set_alls (<[a := rec]> (alls s)) s).
Proof.
  intros Ha. apply fs_alls.
  - intros a' Ha'. rewrite list_lookup_insert_ne; [done|]. by intros ->.
  - by rewrite length_insert.
Qed.

Lemma all_add_element_fstep a s :
  ¬ av_all av a → fstep av s (all_add_element a s).2.
Proof.
  intros Ha. unfold all_add_element, modify; simpl.
  destruct (alls s !! a) as [[vs n]|]; [|apply fs_refl].
  by apply set_alls_insert_fstep.
Qed.

Lemma all_count_down_fstep a p s :
  ¬ av_all av a → ¬ av_pid av p → fstep av s (all_count_down a p s).2.
Proof.
  intros Ha Hp. unfold all_count_down.
  apply fstep_bind_ro; [done|]. intros [[vs n]|] _; [|apply fs_refl].
  apply fstep_bind; [by apply set_alls_insert_fstep|]. intros _ s1 _ _.
  case_bool_decide; [|apply fs_refl].
  apply fstep_bind; [apply alloc_fstep|]. intros arr s2 _ _.
  by apply resolve_promise_fstep.
Qed.

Lemma all_resolve_element_fstep a p i x s :
  ¬ av_all av a → ¬ av_pid av p → fstep av s (all_resolve_element a p i x s).2.
Proof.
  intros Ha Hp. unfold all_resolve_element.
  apply fstep_bind_ro; [done|]. intros [[vs n]|] _; [|apply fs_refl].
  destruct (vs !! i) as [[v|]|]; try apply fs_refl.
  apply fstep_bind; [by apply set_alls_insert_fstep|]. intros _ s1 _ _.
  by apply all_count_down_fstep.
Qed.

(** Running a closure; calls of the application's functions. *)
Lemma clean_arg_mono b b' x : bounds_le b b' → clean_arg b x → clean_arg b' x.
Proof. destruct x; simpl; [done|apply clean_cl_mono]. Qed.

Lemma run_closure_with_fstep call_fn c x s :
  (∀ k this args s', avoid_alloc av s' → Forall (clean_arg (bounds_of s')) args →
                     fstep av s' (call_fn k this args s').2) →
  avoid_alloc av s → clean_cl av (bounds_of s) c →
  fstep av s (run_closure_with call_fn c x s).2.
Proof.
  intros Hfn Hal Hc. destruct c; simpl in Hc; unfold run_closure_with.
  - apply Hfn; [done|]. by repeat constructor.
  - apply call_builtin_fstep; [done|]. by repeat constructor.
  - destruct Hc. apply fstep_bind; [by apply finishRun_fstep|]. intros; apply fs_refl.
  - destruct Hc. apply fstep_bind; [by apply onRejected_fstep|]. intros; apply fs_refl.
  - destruct Hc. apply fstep_bind; [by apply resolve_promise_fstep|]. intros; apply fs_refl.
  - destruct Hc. apply fstep_bind; [by apply settle_promise_fstep|]. intros; apply fs_refl.
  - destruct Hc as (? & ? & ? & ?).
    apply fstep_bind; [by apply all_resolve_element_fstep|]. intros; apply fs_refl.
Qed.

Lemma call_back_fstep h x s :
  avoid_alloc av s → clean_arg (bounds_of s) h → fstep av s (call_back h x s).2.
Proof.
  intros Hal Hh. unfold call_back.
  assert (Hc := arg_handler_clean _ _ Hh).
  destruct (arg_handler h) as [c|]; [|apply fs_refl].
  apply run_closure_with_fstep; [|done|done]. intros; apply fs_refl.
Qed.

Lemma run_behaviour_fstep args b : ∀ s,
  avoid_alloc av s → Forall (clean_arg (bounds_of s)) args →
  fstep av s (run_behaviour args b s).2.
Proof.
  induction b as [r a|i x k IH]; intros s Hal Hargs; simpl.
  - apply fs_misc.
  - destruct (call_back (nth_arg i args) x s) as [r s1] eqn:E.
    assert (Hs1 : fstep av s s1).
    { replace s1 with (call_back (nth_arg i args) x s).2 by (by rewrite E).
      apply call_back_fstep; [done|by apply nth_arg_clean]. }
    eapply fs_trans; [exact Hs1|]. apply IH; [eauto using avoid_alloc_mono|].
    eapply Forall_impl; [exact Hargs|]. intros y Hy. simpl.
    eapply clean_arg_mono; [|exact Hy]. by apply fstep_bounds.
Qed.

Lemma call_app_fstep k this args s :
  avoid_alloc av s → Forall (clean_arg (bounds_of s)) args →
  fstep av s (call_app k this args s).2.
Proof. intros Hal Hargs. by apply run_behaviour_fstep. Qed.

Lemma call_value_fstep f this args s :
  avoid_alloc av s → Forall (clean_arg (bounds_of s)) args →
  fstep av s (call_value f this args s).2.
Proof.
  intros Hal Hargs. destruct f; simpl; try apply fs_refl.
  - by apply call_app_fstep.
  - by apply call_builtin_fstep.
Qed.

Lemma call_method_fstep o k args s :
  avoid_alloc av s → Forall (clean_arg (bounds_of s)) args →
  fstep av s (call_method o k args s).2.
Proof.
  intros Hal Hargs. unfold call_method.
  apply fstep_bind_ro; [apply get_prop_state|].
  intros f _. by apply call_value_fstep.
Qed.

Lemma run_closure_fstep c x s :
  avoid_alloc av s → clean_cl av (bounds_of s) c → fstep av s (run_closure c x s).2.
Proof. apply run_closure_with_fstep. intros; by apply call_app_fstep. Qed.

Lemma promise_resolve_fstep x s :
  avoid_alloc av s → fstep av s (promise_resolve x s).2.
Proof.
  intros Hal.
  assert (H : fstep av s
    ((let! t := new_promise false in do! resolve_promise t x in ret (VPromise t)) s).2).
  { apply fstep_bind; [apply new_promise_fstep|]. intros t s1 E _.
    injection E as <- <-.
    apply fstep_bind; [|intros; apply fs_refl].
    apply resolve_promise_fstep. apply (fresh_tgt s false Hal). }
  destruct x; simpl; first [exact H | apply fs_refl].
Qed.

Lemma all_loop_fstep a p elems : ∀ i s,
  avoid_alloc av s → clean_cl av (bounds_of s) (CAllElement a p i) →
  fstep av s (all_loop a p i elems s).2.
Proof.
  induction elems as [|e rest IH]; intros i s Hal Hcl; simpl; [apply fs_refl|].
  destruct Hcl as (Ha & Hna & Hp).
  apply fstep_bind; [by apply all_add_element_fstep|]. intros _ s1 _ Hs1.
  apply fstep_bind; [apply promise_resolve_fstep; eauto using avoid_alloc_mono|].
  intros nextPromise s2 _ Hs2.
  assert (Hs12 : fstep av s s2) by (eapply fs_trans; eauto).
  assert (Hb := fstep_bounds _ _ Hs12).
  assert (Hcl2 : ∀ j, clean_cl av (bounds_of s2) (CAllElement a p j)).
  { intros j. eapply clean_cl_mono; [exact Hb|]. by split_and!. }
  apply fstep_bind.
  - apply call_method_fstep; [eauto using avoid_alloc_mono|].
    constructor; [apply (Hcl2 i)|]. constructor; [|constructor].
    simpl. by destruct (Hcl2 0) as (_ & _ & ?).
  - intros _ s3 _ Hs3. apply IH; [eauto using avoid_alloc_mono|].
    eapply clean_cl_mono; [eapply fstep_bounds; exact Hs3|]. apply Hcl2.
Qed.

Lemma promise_all_fstep elems s :
  avoid_alloc av s → fstep av s (promise_all elems s).2.
Proof.
  intros Hal. unfold promise_all.
  apply fstep_bind; [apply new_promise_fstep|]. intros p s1 E Hs1.
  injection E as <- <-.
  assert (Hp := fresh_tgt s false Hal).
  set (s1 := set_promises _ s) in *.
  assert (Hal1 : avoid_alloc av s1) by eauto using avoid_alloc_mono.
  apply fstep_bind.
  { simpl. apply fs_alls; [|rewrite length_app; simpl; lia].
    intros a Ha. destruct Hal1 as (_ & _ & H3). apply H3 in Ha.
    by rewrite lookup_app_l. }
  intros a s2 E Hs2. injection E as <- <-.
  set (s2 := set_alls _ s1) in *.
  assert (Hal2 : avoid_alloc av s2) by eauto using avoid_alloc_mono.
  assert (Hcl : ∀ j, clean_cl av (bounds_of s2) (CAllElement (length (alls s1)) (length (promises s)) j)).
  { intros j. simpl. rewrite length_app; simpl. split; [lia|]. split; [|exact Hp].
    intros Ha. destruct Hal1 as (_ & _ & H3). apply H3 in Ha. simpl in Ha. lia. }
  apply fstep_bind; [|intros; apply fs_refl].
  apply fstep_try.
  - apply fstep_bind; [by apply all_loop_fstep|]. intros _ s3 _ Hs3.
    destruct (Hcl 0) as (_ & Hna & _ & Hnp).
    by apply all_count_down_fstep.
  - intros e s3 _ _. apply settle_promise_fstep; [done|].
    by destruct Hp.
Qed.

(** Running a closure, a reaction, a job. *)
Lemma run_handler_fstep c x t s :
  avoid_alloc av s → clean_cl av (bounds_of s) c → ¬ av_pid av t →
  fstep av s
    (try_catch (let! y := run_closure c x in resolve_promise t y)
               (fun e => settle_promise t (Rejected e)) s).2.
Proof.
  intros Hal Hc Ht. apply fstep_try.
  - apply fstep_bind; [by apply run_closure_fstep|]. intros y s1 _ _.
    by apply resolve_promise_fstep.
  - intros e s1 _ _. by apply settle_promise_fstep.
Qed.

Lemma run_job_fstep j s :
  avoid_alloc av s → clean_job av (bounds_of s) j → fstep av s (run_job j s).2.
Proof.
  intros Hal Hj. destruct j as [rx [|v|e]|p x thn]; simpl in *.
  - apply fs_refl.
  - destruct Hj as [Hc [_ Ht]]. destruct (on_fulfilled rx); simpl in *.
    + by apply run_handler_fstep.
    + by apply resolve_promise_fstep.
  - destruct Hj as [Hc [_ Ht]]. destruct (on_rejected rx); simpl in *.
    + by apply run_handler_fstep.
    + by apply settle_promise_fstep.
  - apply fstep_try.
    + apply fstep_bind; [|intros; apply fs_refl].
      apply call_value_fstep; [done|].
      constructor; [exact Hj|]. constructor; [exact Hj|constructor].
    + intros e s1 _ _. apply settle_promise_fstep; [done|]. by destruct Hj.
Qed.

(** Another invocation of a decorated resolver. *)
Lemma process_result_fstep r dc result s :
  avoid_alloc av s → r < length (heap s) → ¬ av_rec av r →
  fstep av s (process_result r dc result s).2.
Proof.
  intros Hal Hr Hnr.
  assert (Hdef : ∀ s', fstep av s' ((do! finishRun r dc in ret result) s').2).
  { intros s'. apply fstep_bind; [by apply finishRun_fstep|]. intros; apply fs_refl. }
  assert (Hchain : ∀ pa s', avoid_alloc av s' → r < length (heap s') →
    fstep av s'
      ((let! p2 := call_method pa "then" [AFun (CFinishRun r dc)] in
        do! call_method p2 "catch" [AFun (COnRejected r dc)] in ret result) s').2).
  { intros pa s' Hal' Hr'.
    apply fstep_bind.
    { apply call_method_fstep; [done|]. constructor; [|constructor]. by split. }
    intros p2 s1 _ Hs1. apply fstep_bind; [|intros; apply fs_refl].
    apply call_method_fstep; [eauto using avoid_alloc_mono|].
    constructor; [|constructor]. split; [|done].
    apply fstep_bounds in Hs1. unfold bounds_le, bounds_of in Hs1; simpl in *. lia. }
  unfold process_result.
  case_bool_decide.
  { apply fstep_bind; [by apply set_prop_fstep|]. intros; apply Hdef. }
  destruct (typeof_undefined result).
  { apply fstep_bind; [by apply set_prop_fstep|]. intros; apply Hdef. }
  apply fstep_bind_ro; [apply get_prop_state|]. intros thn _.
  destruct (typeof_function thn); [by apply Hchain|].
  apply fstep_bind_ro; [done|]. intros [|] _; [|apply Hdef].
  apply fstep_bind_ro; [done|]. intros promises _.
  case_bool_decide; [|apply Hdef].
  apply fstep_bind; [by apply promise_all_fstep|]. intros pa s1 _ Hs1.
  apply Hchain; [eauto using avoid_alloc_mono|].
  apply fstep_bounds in Hs1. unfold bounds_le, bounds_of in Hs1; simpl in *. lia.
Qed.

Lemma new_report_fstep dc fi ctx info s :
  avoid_alloc av s → fstep av s (new_report dc fi ctx info s).2.
Proof.
  intros Hal. unfold new_report.
  apply fstep_bind_ro; [apply get_prop_state|]. intros start _.
  apply fstep_bind_ro; [apply hrtime_state|]. intros startOffset _.
  apply fstep_bind; [apply alloc_fstep|]. intros r s1 _ Hs1.
  apply fstep_bind_ro; [apply get_prop_state|]. intros calls _.
  apply fstep_bind; [|intros; apply fs_refl].
  apply call_method_fstep; [eauto using avoid_alloc_mono|].
  by repeat constructor.
Qed.

Lemma new_report_fresh dc fi ctx info s r s1 :
  avoid_alloc av s →
  new_report dc fi ctx info s = (Ok r, s1) →
  r = length (heap s) ∧ r < length (heap s1).
Proof.
  intros Hal. unfold new_report. rewrite bind_run.
  destruct (get_prop dc "startHrTime" s) as [[start|?] s0] eqn:E1; [|done].
  assert (s0 = s) as -> by (by rewrite <- (get_prop_state dc "startHrTime" s), E1).
  rewrite bind_run.
  destruct (hrtime start s) as [[t|?] s0] eqn:E2; [|done].
  assert (s0 = s) as -> by (by rewrite <- (hrtime_state start s), E2).
  rewrite bind_run. unfold alloc at 1.
  set (s2 := set_heap _ s).
  assert (Hs2 : fstep av s s2) by apply fs_alloc.
  rewrite bind_run.
  destruct (get_prop dc "resolverCalls" s2) as [[calls|?] s0] eqn:E3; [|done].
  assert (s0 = s2) as -> by (by rewrite <- (get_prop_state dc "resolverCalls" s2), E3).
  rewrite bind_run.
  destruct (call_method calls "push" _ s2) as [[?|?] s3] eqn:E4; [|done].
  intros [= <- <-]. split; [done|].
  assert (Hs3 : fstep av s2 s3).
  { replace s3 with (call_method calls "push" [AVal (VObj (length (heap s)))] s2).2
      by (by rewrite E4).
    apply call_method_fstep; [eauto using avoid_alloc_mono|].
    by repeat constructor. }
  apply fstep_bounds in Hs3. unfold bounds_le, bounds_of, s2 in Hs3; simpl in Hs3.
  rewrite length_app in Hs3; simpl in Hs3. lia.
Qed.

Section Decorated.

Variable fn : resolver_fn.
Hypothesis fn_fstep :
  ∀ p a ctx info s, avoid_alloc av s → fstep av s (fn p a ctx info s).2.

Lemma decoratedResolver_fstep fi p a ctx info s :
  avoid_alloc av s → fstep av s (decoratedResolver fn fi p a ctx info s).2.
Proof.
  intros Hal. unfold decoratedResolver.
  apply fstep_bind_ro.
  { unfold js_and. destruct (truthy ctx); [apply get_prop_state|done]. }
  intros dc _. destruct (negb (truthy dc)); [by apply fn_fstep|].
  apply fstep_bind; [by apply new_report_fstep|]. intros r s1 E Hs1.
  apply new_report_fresh in E as [-> Hr1]; [|done].
  assert (Hal1 : avoid_alloc av s1) by eauto using avoid_alloc_mono.
  assert (Hnr : ¬ av_rec av (length (heap s))).
  { intros Hr. destruct Hal as (H1 & _). apply H1 in Hr. lia. }
  apply fstep_bind.
  - apply fstep_try; [by apply fn_fstep|]. intros e s2 _ Hs2.
    apply fstep_bind; [by apply set_prop_fstep|]. intros _ s3 _ _.
    apply fstep_bind; [by apply finishRun_fstep|]. intros; apply fs_refl.
  - intros result s2 _ Hs2. apply fstep_try; [|intros; apply fs_refl].
    apply process_result_fstep; [eauto using avoid_alloc_mono| |done].
    apply fstep_bounds in Hs2. unfold bounds_le, bounds_of in Hs2; simpl in *. lia.
Qed.

End Decorated.

Lemma defaultResolveFn_fstep source args context info s :
  avoid_alloc av s → fstep av s (defaultResolveFn source args context info s).2.
Proof.
  intros Hal. unfold defaultResolveFn.
  apply fstep_bind_ro; [apply get_prop_state|]. intros fieldName _.
  destruct (_ || _); [|apply fs_refl].
  apply fstep_bind_ro; [apply get_prop_state|]. intros property _.
  destruct (typeof_function property); [|apply fs_refl].
  apply call_method_fstep; [done|]. by repeat constructor.
Qed.

Lemma call_resolver_fstep f : ∀ p a ctx info s,
  avoid_alloc av s → fstep av s (call_resolver f p a ctx info s).2.
Proof.
  induction f as [k| |fn IH fi]; intros p a ctx info s Hal; simpl.
  - apply call_app_fstep; [done|]. by repeat constructor.
  - by apply defaultResolveFn_fstep.
  - by apply decoratedResolver_fstep.
Qed.

(** Every event but the run of a job is such a step, as long as the
    application cannot settle an owned promise. *)
Lemma exec_event_fstep ev s :
  ev ≠ EvRunJob → avoid_alloc av s →
  (∀ p, av_pid av p → is_ext p s = false) →
  fstep av s (exec_event ev s).
Proof.
  intros Hev Hal Hext. destruct ev as [p o| |dhr dwall|f p a ctx info]; simpl.
  - destruct (is_ext p s) eqn:E; [|apply fs_refl].
    assert (¬ av_pid av p) by (intros Hp; apply Hext in Hp; congruence).
    destruct o; [apply fs_refl| |].
    + by apply resolve_promise_fstep.
    + by apply settle_promise_fstep.
  - done.
  - apply fs_misc.
  - by apply call_resolver_fstep.
Qed.

End RelyFacts.

(** *** Cleanliness when something new becomes owned

    What is clean stays clean when the newly owned things lie beyond the
    bounds it was clean for. *)

Section Fresh.

Variables av av' : avoid.
Variables b b' : bounds.
Hypothesis Hb : bounds_le b b'.
Hypothesis Hrec : ∀ l, av_rec av' l → av_rec av l ∨ b_heap b ≤ l.
Hypothesis Hpid : ∀ p, av_pid av' p → av_pid av p ∨ b_prom b ≤ p.
Hypothesis Hall : ∀ a, av_all av' a → av_all av a ∨ b_alls b ≤ a.

Lemma clean_tgt_fresh t : clean_tgt av b t → clean_tgt av' b' t.
Proof.
  intros [Hlt Hn]. destruct Hb as (_ & ? & _). split; [lia|].
  intros Hav. apply Hpid in Hav as [?|?]; [done|lia].
Qed.

Lemma clean_cl_fresh cl : clean_cl av b cl → clean_cl av' b' cl.
Proof.
  destruct Hb as (? & ? & ?).
  destruct cl; simpl; auto using clean_tgt_fresh.
  - intros [Hlt Hn]. split; [lia|]. intros Hav. apply Hrec in Hav as [?|?]; [done|lia].
  - intros [Hlt Hn]. split; [lia|]. intros Hav. apply Hrec in Hav as [?|?]; [done|lia].
  - intros (Hlt & Hn & Ht). split; [lia|]. split; [|by apply clean_tgt_fresh].
    intros Hav. apply Hall in Hav as [?|?]; [done|lia].
Qed.

Lemma clean_opt_fresh oc : clean_opt av b oc → clean_opt av' b' oc.
Proof. destruct oc; simpl; auto using clean_cl_fresh. Qed.

Lemma clean_rx_fresh rx : clean_rx av b rx → clean_rx av' b' rx.
Proof.
  intros (? & ? & ?); split_and!; auto using clean_opt_fresh, clean_tgt_fresh.
Qed.

Lemma clean_job_fresh j : clean_job av b j → clean_job av' b' j.
Proof.
  destruct j as [rx [| |]|]; simpl; auto using clean_tgt_fresh.
  - intros [? ?]; split; auto using clean_opt_fresh, clean_tgt_fresh.
  - intros [? ?]; split; auto using clean_opt_fresh, clean_tgt_fresh.
Qed.

End Fresh.

(** Nothing is owned. *)
Definition av_none : avoid := Avoid (fun _ => False) (fun _ => False) (fun _ => False).

(** A state in which every closure names allocated things only. *)
Definition wf_state (s : state) : Prop :=
  (∀ q pr, promises s !! q = Some pr →
           Forall (clean_rx av_none (bounds_of s)) (p_reactions pr)) ∧
  Forall (clean_job av_none (bounds_of s)) (queue s).

(** ** The completion chain of one invocation

    For a result that is a promise [d] (the result itself, or the
    [Promise.all] of its elements) the wrapper evaluates
    [d.then(finishRun).catch(...)].  The section follows the two reactions
    this creates through every later step of the program. *)

Section Chain.

Variable r : loc.                (* the resolverReport *)
Variable c : loc.                (* the datadogContext *)
Variable t0 : Z.                 (* its startHrTime *)
Variable props0 : list (string * value).  (* the record as created *)
Variable d : pid.                (* the promise the chain hangs on *)

Definition rxF (p2 : pid) : reaction :=
  Reaction (Some (CFinishRun r (VObj c))) None p2.
Definition rxR (p3 : pid) : reaction :=
  Reaction None (Some (COnRejected r (VObj c))) p3.

Definition av_idle : avoid := Avoid (fun l => l = r) (fun _ => False) (fun _ => False).
Definition av_chain (p2 : pid) : avoid :=
  Avoid (fun l => l = r) (fun p => p = p2) (fun _ => False).

Inductive phase :=
| Quiet (props : list (string * value))  (* no closure of the invocation is left *)
| Armed (p2 p3 : pid)                    (* [d] is pending *)
| Trig (p2 p3 : pid) (o : pstate) (k : nat)  (* [d] is settled, its job is [k]-th in the queue *)
| RejJob (p3 : pid) (e : value) (k : nat)    (* the [catch] job is [k]-th in the queue *)
| Done (o : pstate) (t : Z).             (* the chain has run *)

Definition final_props (o : pstate) (t : Z) : list (string * value) :=
  match o with
  | Rejected _ => ("endOffset", VHr t) :: ("error", VBool true) :: props0
  | _ => ("endOffset", VHr t) :: props0
  end.

Definition phase_props (ph : phase) : list (string * value) :=
  match ph with
  | Quiet props => props
  | Done o t => final_props o t
  | _ => props0
  end.

Definition av_of (ph : phase) : avoid :=
  match ph with
  | Armed p2 _ | Trig p2 _ _ _ => av_chain p2
  | _ => av_idle
  end.

Definition pst (ps : list promise) (p : pid) : pstate :=
  match ps !! p with
  | Some pr => p_state pr
  | None => Pending
  end.

Definition pclean (av : avoid) (b : bounds) (ps : list promise) (X : list pid) : Prop :=
  ∀ q pr, ps !! q = Some pr → q ∉ X → Forall (clean_rx av b) (p_reactions pr).

Definition qclean (av : avoid) (b : bounds) (q : list job) : Prop :=
  Forall (clean_job av b) q.

(** Promise [p] is pending and [rx] is among its reactions, the others clean. *)
Definition hangs (av : avoid) (b : bounds) (ps : list promise) (p : pid)
    (rx : reaction) (ext : bool) : Prop :=
  ∃ l1 l2, ps !! p = Some (Promise Pending (l1 ++ rx :: l2) ext) ∧
           Forall (clean_rx av b) (l1 ++ l2).

(** Job [j] is the [k]-th of the queue, the others clean. *)
Definition queued (av : avoid) (b : bounds) (q : list job) (j : job) (k : nat) : Prop :=
  ∃ pre post, q = pre ++ j :: post ∧ length pre = k ∧
              Forall (clean_job av b) (pre ++ post).

Definition shape (ph : phase) (b : bounds) (ps : list promise) (q : list job) : Prop :=
  match ph with
  | Quiet _ => pclean av_idle b ps [] ∧ qclean av_idle b q
  | Done o _ =>
      settled o = true ∧ pst ps d = o ∧ pclean av_idle b ps [] ∧ qclean av_idle b q
  | Armed p2 p3 =>
      d ≠ p2 ∧ p3 < b_prom b ∧
      (∃ ext, hangs (av_chain p2) b ps d (rxF p2) ext) ∧
      hangs (av_chain p2) b ps p2 (rxR p3) false ∧
      pclean (av_chain p2) b ps [d; p2] ∧ qclean (av_chain p2) b q
  | Trig p2 p3 o k =>
      settled o = true ∧ pst ps d = o ∧ p3 < b_prom b ∧
      hangs (av_chain p2) b ps p2 (rxR p3) false ∧
      pclean (av_chain p2) b ps [p2] ∧
      queued (av_chain p2) b q (JReaction (rxF p2) o) k
  | RejJob p3 e k =>
      pst ps d = Rejected e ∧
      pclean av_idle b ps [] ∧
      queued av_idle b q (JReaction (rxR p3) (Rejected e)) k
  end.

Definition ctx_ok (h : list obj) : Prop :=
  ∃ pc, h !! c = Some (OObj pc) ∧ assoc "startHrTime" pc = Some (VHr t0).

Definition inv (ph : phase) (s : state) : Prop :=
  heap s !! r = Some (OObj (phase_props ph)) ∧ ctx_ok (heap s) ∧
  shape ph (bounds_of s) (promises s) (queue s).

(** How a step of the rest of the program can move the chain: not at all,
    or by settling [d]. *)
Definition fnext (ph ph' : phase) : Prop :=
  ph' = ph ∨ ∃ p2 p3 o k, ph = Armed p2 p3 ∧ ph' = Trig p2 p3 o k.

(** *** Cleanliness is kept when less is owned *)

Section Weaken.

Variables av av' : avoid.
Hypothesis Hrec : ∀ l, av_rec av' l → av_rec av l.
Hypothesis Hpid : ∀ p, av_pid av' p → av_pid av p.
Hypothesis Hall : ∀ a, av_all av' a → av_all av a.

Lemma clean_tgt_weaken b t : clean_tgt av b t → clean_tgt av' b t.
Proof. intros [? ?]; split; auto. Qed.

Lemma clean_cl_weaken b cl : clean_cl av b cl → clean_cl av' b cl.
Proof.
  destruct cl; simpl; auto using clean_tgt_weaken.
  - intros [? ?]; split; auto.
  - intros [? ?]; split; auto.
  - intros (? & ? & ?); split_and!; auto using clean_tgt_weaken.
Qed.

Lemma clean_opt_weaken b oc : clean_opt av b oc → clean_opt av' b oc.
Proof. destruct oc; simpl; auto using clean_cl_weaken. Qed.

Lemma clean_rx_weaken b rx : clean_rx av b rx → clean_rx av' b rx.
Proof.
  intros (? & ? & ?); split_and!; auto using clean_opt_weaken, clean_tgt_weaken.
Qed.

Lemma clean_job_weaken b j : clean_job av b j → clean_job av' b j.
Proof.
  destruct j as [rx [| |]|]; simpl; auto using clean_tgt_weaken.
  - intros [? ?]; split; auto using clean_opt_weaken, clean_tgt_weaken.
  - intros [? ?]; split; auto using clean_opt_weaken, clean_tgt_weaken.
Qed.

End Weaken.

Lemma clean_rx_idle p2 b rx : clean_rx (av_chain p2) b rx → clean_rx av_idle b rx.
Proof. apply clean_rx_weaken; simpl; tauto. Qed.

Lemma clean_job_idle p2 b j : clean_job (av_chain p2) b j → clean_job av_idle b j.
Proof. apply clean_job_weaken; simpl; tauto. Qed.

(** *** The promise store and the queue under the four kinds of change *)

Ltac solve_notin :=
  repeat match goal with
         | H : _ ∉ _ :: _ |- _ => apply not_elem_of_cons in H as [? ?]
         end;
  repeat (apply not_elem_of_cons; split; [congruence|]); apply not_elem_of_nil.

Lemma pst_app ps pr p : p_state pr = Pending → pst (ps ++ [pr]) p = pst ps p.
Proof.
  intros Hpr. unfold pst.
  destruct (decide (p < length ps)) as [Hlt|Hge].
  - by rewrite lookup_app_l.
  - rewrite (lookup_ge_None_2 ps p) by lia.
    destruct (decide (p = length ps)) as [->|Hne].
    + by rewrite list_lookup_middle.
    + rewrite lookup_ge_None_2; [done|]. rewrite length_app; simpl; lia.
Qed.

Lemma pst_insert ps q pr p :
  (q = p → p_state pr = pst ps p) → pst (<[q := pr]> ps) p = pst ps p.
Proof.
  intros Hq. unfold pst.
  destruct (decide (q = p)) as [->|Hne].
  - destruct (decide (p < length ps)) as [Hlt|Hge].
    + rewrite list_lookup_insert_eq by done. specialize (Hq eq_refl).
      unfold pst in Hq. done.
    + by rewrite list_insert_ge by lia.
  - by rewrite list_lookup_insert_ne.
Qed.

Lemma pclean_mono av b b' ps X :
  bounds_le b b' → pclean av b ps X → pclean av b' ps X.
Proof.
  intros Hb H q pr Hq HX. eapply Forall_impl; [by eapply H|].
  intros rx. by apply clean_rx_mono.
Qed.

Lemma qclean_mono av b b' q : bounds_le b b' → qclean av b q → qclean av b' q.
Proof.
  intros Hb H. eapply Forall_impl; [exact H|]. intros j. by apply clean_job_mono.
Qed.

Lemma hangs_mono av b b' ps p rx ext :
  bounds_le b b' → hangs av b ps p rx ext → hangs av b' ps p rx ext.
Proof.
  intros Hb (l1 & l2 & ? & H). exists l1, l2. split; [done|].
  eapply Forall_impl; [exact H|]. intros ?. by apply clean_rx_mono.
Qed.

Lemma queued_mono av b b' q j k :
  bounds_le b b' → queued av b q j k → queued av b' q j k.
Proof.
  intros Hb (pre & post & ? & ? & H). exists pre, post. split_and!; [done..|].
  eapply Forall_impl; [exact H|]. intros ?. by apply clean_job_mono.
Qed.

Lemma shape_mono ph b b' ps q :
  bounds_le b b' → shape ph b ps q → shape ph b' ps q.
Proof.
  intros Hb. assert (Hb' := Hb). destruct Hb' as (_ & Hp & _).
  destruct ph; simpl.
  - intros [? ?]. eauto using pclean_mono, qclean_mono.
  - intros (? & ? & [ext ?] & ? & ? & ?).
    split_and!; eauto using pclean_mono, qclean_mono, hangs_mono. lia.
  - intros (? & ? & ? & ? & ? & ?).
    split_and!; eauto using pclean_mono, queued_mono, hangs_mono. lia.
  - intros (? & ? & ?). split_and!; eauto using pclean_mono, queued_mono.
  - intros (? & ? & ? & ?). split_and!; eauto using pclean_mono, qclean_mono.
Qed.

(** A promise is created. *)
Lemma pclean_app av b ps X ext :
  pclean av b ps X → pclean av b (ps ++ [Promise Pending [] ext]) X.
Proof.
  intros H q pr Hq HX.
  apply lookup_app_Some in Hq as [Hq|[_ Hq]]; [by eapply H|].
  apply list_lookup_singleton_Some in Hq as [_ <-]. constructor.
Qed.

Lemma hangs_app av b ps p rx ext pr :
  hangs av b ps p rx ext → hangs av b (ps ++ [pr]) p rx ext.
Proof.
  intros (l1 & l2 & Hp & H). exists l1, l2. split; [|done].
  rewrite lookup_app_l; [done|]. by eapply lookup_lt_Some.
Qed.

Lemma shape_newp ph b ps q ext :
  shape ph b ps q → shape ph b (ps ++ [Promise Pending [] ext]) q.
Proof.
  destruct ph; simpl.
  - intros [? ?]. eauto using pclean_app.
  - intros (? & ? & [e ?] & ? & ? & ?). split_and!; eauto using pclean_app, hangs_app.
  - intros (? & ? & ? & ? & ? & ?). rewrite pst_app by done.
    split_and!; eauto using pclean_app, hangs_app.
  - intros (? & ? & ?). rewrite pst_app by done. split_and!; eauto using pclean_app.
  - intros (? & ? & ? & ?). rewrite pst_app by done. split_and!; eauto using pclean_app.
Qed.

(** A reaction is added to a pending promise. *)
Lemma pclean_insert av b ps X q0 pr :
  pclean av b ps X →
  (q0 ∉ X → Forall (clean_rx av b) (p_reactions pr)) →
  pclean av b (<[q0 := pr]> ps) X.
Proof.
  intros H Hpr q pr' Hq HX.
  apply list_lookup_insert_Some in Hq as [(-> & <- & _)|[_ Hq]]; [auto|].
  by eapply H.
Qed.

Lemma hangs_react av b ps q0 rxs ext0 rx' p rx ext :
  ps !! q0 = Some (Promise Pending rxs ext0) → clean_rx av b rx' →
  hangs av b ps p rx ext →
  hangs av b (<[q0 := Promise Pending (rxs ++ [rx']) ext0]> ps) p rx ext.
Proof.
  intros Hq0 Hrx' (l1 & l2 & Hp & H).
  destruct (decide (q0 = p)) as [->|Hne].
  - rewrite Hp in Hq0. injection Hq0 as <- <-.
    exists l1, (l2 ++ [rx']). split.
    + rewrite list_lookup_insert_eq by (by eapply lookup_lt_Some).
      by rewrite <- app_assoc.
    + rewrite app_assoc. apply Forall_app. split; [done|by constructor].
  - exists l1, l2. split; [|done]. by rewrite list_lookup_insert_ne.
Qed.

Lemma pclean_react av b ps X q0 rxs ext rx :
  ps !! q0 = Some (Promise Pending rxs ext) → clean_rx av b rx →
  pclean av b ps X →
  pclean av b (<[q0 := Promise Pending (rxs ++ [rx]) ext]> ps) X.
Proof.
  intros Hq0 Hrx H. apply pclean_insert; [done|]. intros HX; simpl.
  apply Forall_app. split; [|by constructor].
  by apply (H q0 _ Hq0).
Qed.

Lemma shape_react ph b ps q q0 rxs ext rx :
  ps !! q0 = Some (Promise Pending rxs ext) → clean_rx (av_of ph) b rx →
  shape ph b ps q →
  shape ph b (<[q0 := Promise Pending (rxs ++ [rx]) ext]> ps) q.
Proof.
  intros Hq0 Hrx.
  assert (Hpst : pst (<[q0 := Promise Pending (rxs ++ [rx]) ext]> ps) d = pst ps d).
  { apply pst_insert. intros ->. unfold pst. by rewrite Hq0. }
  destruct ph; simpl in *; rewrite ?Hpst.
  - intros [? ?]. eauto using pclean_react.
  - intros (? & ? & [e ?] & ? & ? & ?).
    split_and!; eauto using pclean_react, hangs_react.
  - intros (? & ? & ? & ? & ? & ?).
    split_and!; eauto using pclean_react, hangs_react.
  - intros (? & ? & ?). split_and!; eauto using pclean_react.
  - intros (? & ? & ? & ?). split_and!; eauto using pclean_react.
Qed.

(** A job is added to the queue. *)
Lemma queued_app av b q j k new :
  Forall (clean_job av b) new → queued av b q j k → queued av b (q ++ new) j k.
Proof.
  intros Hnew (pre & post & -> & Hk & H). exists pre, (post ++ new).
  split_and!; [by rewrite <- app_assoc | done |].
  rewrite app_assoc. by apply Forall_app.
Qed.

Lemma shape_jobs ph b ps q new :
  Forall (clean_job (av_of ph) b) new → shape ph b ps q → shape ph b ps (q ++ new).
Proof.
  intros Hnew. unfold qclean. destruct ph; simpl in *.
  - intros [? ?]. split; [done|]. by apply Forall_app.
  - intros (? & ? & ? & ? & ? & ?). split_and!; try done. by apply Forall_app.
  - intros (? & ? & ? & ? & ? & ?). split_and!; eauto using queued_app.
  - intros (? & ? & ?). split_and!; eauto using queued_app.
  - intros (? & ? & ? & ?). split_and!; try done. by apply Forall_app.
Qed.

(** A pending promise is settled. *)
Lemma jobs_of_clean av b rxs o :
  Forall (clean_rx av b) rxs →
  Forall (clean_job av b) (map (fun rx => JReaction rx o) rxs).
Proof.
  intros H. apply Forall_map. eapply Forall_impl; [exact H|].
  intros rx ?. by apply clean_rx_job.
Qed.

Lemma pclean_settle av b ps X q0 o ext :
  pclean av b ps X → pclean av b (<[q0 := Promise o [] ext]> ps) X.
Proof. intros H. apply pclean_insert; [done|]. intros _; constructor. Qed.

Lemma hangs_insert_ne av b ps q0 pr p rx ext :
  q0 ≠ p → hangs av b ps p rx ext → hangs av b (<[q0 := pr]> ps) p rx ext.
Proof.
  intros Hne (l1 & l2 & Hp & H). exists l1, l2. split; [|done].
  by rewrite list_lookup_insert_ne.
Qed.

Lemma pst_settled_ne ps q0 rxs ext pr o :
  ps !! q0 = Some (Promise Pending rxs ext) → pst ps d = o → settled o = true →
  pst (<[q0 := pr]> ps) d = o.
Proof.
  intros Hq0 Hd Ho. rewrite pst_insert; [done|].
  intros ->. unfold pst in Hd. rewrite Hq0 in Hd. simpl in Hd. by subst o.
Qed.

Lemma shape_settle ph b ps q q0 rxs ext o :
  ps !! q0 = Some (Promise Pending rxs ext) →
  ¬ av_pid (av_of ph) q0 → settled o = true →
  shape ph b ps q →
  ∃ ph', fnext ph ph' ∧
         shape ph' b (<[q0 := Promise o [] ext]> ps)
               (q ++ map (fun rx => JReaction rx o) rxs).
Proof.
  intros Hq0 Hav Ho Hsh. unfold qclean in *.
  assert (Hidle : pclean av_idle b ps [] → Forall (clean_rx av_idle b) rxs).
  { intros Hp. apply (Hp q0 _ Hq0). solve_notin. }
  destruct ph as [props|p2 p3|p2 p3 o' k|p3 e k|o' t]; simpl in *.
  - exists (Quiet props). split; [by left|]. destruct Hsh as [Hp Hq].
    split; [by apply pclean_settle|].
    apply Forall_app. split; [done|]. apply jobs_of_clean. auto.
  - destruct Hsh as (Hd2 & Hp3 & [e Hd] & H2 & Hp & Hq).
    destruct (decide (q0 = d)) as [->|Hne].
    + destruct Hd as (l1 & l2 & Hd & Hl).
      rewrite Hd in Hq0. injection Hq0 as <- <-.
      exists (Trig p2 p3 o (length q + length l1)). split; [right; by eauto 10|].
      simpl. split_and!; try done.
      * unfold pst. rewrite list_lookup_insert_eq by (by eapply lookup_lt_Some). done.
      * by apply hangs_insert_ne.
      * intros q' pr' Hq' HX.
        apply list_lookup_insert_Some in Hq' as [(<- & <- & _)|[Hne Hq']];
          [constructor|].
        apply (Hp q' pr' Hq'). solve_notin.
      * exists (q ++ map (fun rx => JReaction rx o) l1),
               (map (fun rx => JReaction rx o) l2).
        split_and!.
        -- rewrite map_app; simpl. by rewrite <- app_assoc.
        -- by rewrite length_app, length_map.
        -- apply Forall_app in Hl as [Hl1 Hl2].
           rewrite <- app_assoc. repeat (apply Forall_app; split);
             auto using jobs_of_clean.
    + exists (Armed p2 p3). split; [by left|]. simpl.
      assert (Hrxs : Forall (clean_rx (av_chain p2) b) rxs).
      { apply (Hp q0 _ Hq0). solve_notin. }
      split_and!; try done.
      * exists e. by apply hangs_insert_ne.
      * by apply hangs_insert_ne.
      * by apply pclean_settle.
      * apply Forall_app. split; [done|]. by apply jobs_of_clean.
  - destruct Hsh as (Ho' & Hd & Hp3 & H2 & Hp & Hq).
    exists (Trig p2 p3 o' k). split; [by left|]. simpl.
    assert (Hrxs : Forall (clean_rx (av_chain p2) b) rxs).
    { apply (Hp q0 _ Hq0). solve_notin. }
    split_and!; try done.
    + by eapply pst_settled_ne.
    + by apply hangs_insert_ne.
    + by apply pclean_settle.
    + apply queued_app; [|done]. by apply jobs_of_clean.
  - destruct Hsh as (Hd & Hp & Hq).
    exists (RejJob p3 e k). split; [by left|]. simpl.
    split_and!.
    + by eapply pst_settled_ne.
    + by apply pclean_settle.
    + apply queued_app; [|done]. apply jobs_of_clean. auto.
  - destruct Hsh as (Ho' & Hd & Hp & Hq).
    exists (Done o' t). split; [by left|]. simpl.
    split_and!; try done.
    + by eapply pst_settled_ne.
    + by apply pclean_settle.
    + apply Forall_app. split; [done|]. apply jobs_of_clean. auto.
Qed.

(** *** The chain is kept by every step of the rest of the program *)

Lemma fnext_av ph ph' : fnext ph ph' → av_of ph' = av_of ph.
Proof. intros [->|(p2 & p3 & o & k & -> & ->)]; done. Qed.

Lemma fnext_trans ph1 ph2 ph3 : fnext ph1 ph2 → fnext ph2 ph3 → fnext ph1 ph3.
Proof.
  intros [->|(p2 & p3 & o & k & -> & ->)]; [done|].
  intros [->|(? & ? & ? & ? & ? & _)]; [|done]. right. eauto 10.
Qed.

Lemma fnext_props ph ph' : fnext ph ph' → phase_props ph' = phase_props ph.
Proof. intros [->|(p2 & p3 & o & k & -> & ->)]; done. Qed.

Lemma ctx_ok_set h l ps k v :
  h !! l = Some (OObj ps) → k ≠ "startHrTime" →
  ctx_ok h → ctx_ok (<[l := OObj ((k, v) :: ps)]> h).
Proof.
  intros Hl Hk (pc & Hc & Hst).
  destruct (decide (l = c)) as [->|Hne].
  - rewrite Hc in Hl. injection Hl as <-.
    exists ((k, v) :: pc). split.
    + apply list_lookup_insert_eq. by eapply lookup_lt_Some.
    + simpl. by rewrite bool_decide_eq_false_2.
  - exists pc. split; [|done]. by rewrite list_lookup_insert_ne.
Qed.

Lemma fstep_record av s s' ps :
  fstep av s s' → av_rec av r →
  heap s !! r = Some (OObj ps) → heap s' !! r = Some (OObj ps).
Proof.
  induction 1; intros Hav Hr; simpl; auto.
  - rewrite lookup_app_l; [done|]. by eapply lookup_lt_Some.
  - rewrite list_lookup_insert_ne; [done|]. by intros ->.
  - rewrite list_lookup_insert_ne; [done|]. intros ->. congruence.
Qed.

Lemma fstep_ctx_ok av s s' : fstep av s s' → ctx_ok (heap s) → ctx_ok (heap s').
Proof.
  induction 1; intros Hctx; simpl; auto.
  - destruct Hctx as (pc & Hc & Hst). exists pc. split; [|done].
    rewrite lookup_app_l; [done|]. by eapply lookup_lt_Some.
  - by apply ctx_ok_set.
  - destruct Hctx as (pc & Hc & Hst). exists pc. split; [|done].
    rewrite list_lookup_insert_ne; [done|]. intros ->. congruence.
Qed.

Lemma inv_fstep av s s' :
  fstep av s s' → ∀ ph, av = av_of ph → inv ph s →
  ∃ ph', fnext ph ph' ∧ inv ph' s'.
Proof.
  induction 1 as [s|s1 s2 s3 H1 IH1 H2 IH2|s a hr w im rp|s o|s l ps k v Hl Hav Hk
                 |s l es es' Hl|s ext|s q rxs ext rx Hq Hrx|s q rxs ext o Hq Hav Ho
                 |s j Hj|s al Hal Hlen];
    intros ph -> (Hrec & Hctx & Hsh).
  - exists ph. split; [by left|done].
  - destruct (IH1 ph eq_refl) as (ph1 & Hn1 & Hi1); [done|].
    destruct (IH2 ph1) as (ph2 & Hn2 & Hi2); [by rewrite (fnext_av _ _ Hn1)|done|].
    exists ph2. split; [by eapply fnext_trans|done].
  - exists ph. split; [by left|done].
  - exists ph. split; [by left|]. split_and!; simpl.
    + rewrite lookup_app_l; [done|]. by eapply lookup_lt_Some.
    + destruct Hctx as (pc & Hc & Hst). exists pc. split; [|done].
      rewrite lookup_app_l; [done|]. by eapply lookup_lt_Some.
    + eapply shape_mono; [|exact Hsh]. unfold bounds_le, bounds_of; simpl.
      rewrite length_app; simpl. lia.
  - exists ph. split; [by left|]. split_and!; simpl.
    + rewrite list_lookup_insert_ne; [done|]. intros ->. apply Hav. by destruct ph.
    + by apply ctx_ok_set.
    + eapply shape_mono; [|exact Hsh]. unfold bounds_le, bounds_of; simpl.
      rewrite length_insert. lia.
  - exists ph. split; [by left|]. split_and!; simpl.
    + rewrite list_lookup_insert_ne; [done|]. intros ->. congruence.
    + destruct Hctx as (pc & Hc & Hst). exists pc. split; [|done].
      rewrite list_lookup_insert_ne; [done|]. intros ->. congruence.
    + eapply shape_mono; [|exact Hsh]. unfold bounds_le, bounds_of; simpl.
      rewrite length_insert. lia.
  - exists ph. split; [by left|]. split_and!; try done. simpl.
    apply shape_newp. eapply shape_mono; [|exact Hsh].
    unfold bounds_le, bounds_of; simpl. rewrite length_app; simpl. lia.
  - exists ph. split; [by left|]. split_and!; try done. simpl.
    eapply shape_mono; [|by apply shape_react].
    unfold bounds_le, bounds_of; simpl. rewrite length_insert. lia.
  - destruct (shape_settle ph _ _ _ _ _ _ o Hq Hav Ho Hsh) as (ph' & Hn & Hsh').
    exists ph'. split; [done|]. split_and!; try done.
    + simpl. by rewrite (fnext_props _ _ Hn).
    + simpl. eapply shape_mono; [|exact Hsh'].
      unfold bounds_le, bounds_of; simpl. rewrite length_insert. lia.
  - exists ph. split; [by left|]. split_and!; try done. simpl.
    apply shape_jobs; [|done]. by constructor.
  - exists ph. split; [by left|]. split_and!; try done. simpl.
    eapply shape_mono; [|exact Hsh]. unfold bounds_le, bounds_of; simpl. lia.
Qed.

(** What the chain owns is allocated, and the application cannot settle the
    derived promise. *)
Lemma hangs_lookup av b ps p rx ext :
  hangs av b ps p rx ext → ∃ rxs, ps !! p = Some (Promise Pending rxs ext).
Proof. intros (l1 & l2 & ? & _). eauto. Qed.

Lemma inv_avoid_alloc ph s : inv ph s → avoid_alloc (av_of ph) s.
Proof.
  intros (Hrec & _ & Hsh).
  assert (Hr : r < length (heap s)) by (by eapply lookup_lt_Some).
  split_and!.
  - intros l Hl. destruct ph; simpl in Hl; by subst.
  - intros p Hp. destruct ph; simpl in *; try done; subst p.
    + destruct Hsh as (_ & _ & _ & H2 & _).
      apply hangs_lookup in H2 as [? H2]. by eapply lookup_lt_Some.
    + destruct Hsh as (_ & _ & _ & H2 & _).
      apply hangs_lookup in H2 as [? H2]. by eapply lookup_lt_Some.
  - intros a Ha. by destruct ph.
Qed.

Lemma inv_not_ext ph s p : inv ph s → av_pid (av_of ph) p → is_ext p s = false.
Proof.
  intros (_ & _ & Hsh) Hp. unfold is_ext.
  destruct ph; simpl in *; try done; subst p.
  - destruct Hsh as (_ & _ & _ & H2 & _).
    apply hangs_lookup in H2 as [? ->]. done.
  - destruct Hsh as (_ & _ & _ & H2 & _).
    apply hangs_lookup in H2 as [? ->]. done.
Qed.

Lemma inv_other_event ev ph s :
  ev ≠ EvRunJob → inv ph s → ∃ ph', fnext ph ph' ∧ inv ph' (exec_event ev s).
Proof.
  intros Hev Hinv. eapply inv_fstep; [|done|done].
  apply exec_event_fstep; [done|by apply inv_avoid_alloc|].
  intros p. by apply inv_not_ext.
Qed.

(** *** The jobs of the chain *)

Lemma finishRun_run props s :
  heap s !! r = Some (OObj props) → ctx_ok (heap s) →
  finishRun r (VObj c) s =
  (Ok tt, set_heap (<[r := OObj (("endOffset", VHr (hr_now s - t0)) :: props)]> (heap s)) s).
Proof.
  intros Hr (pc & Hc & Hst). unfold finishRun.
  rewrite bind_run. unfold get_prop, gets; simpl. rewrite Hc, Hst; simpl.
  rewrite bind_run; simpl. unfold set_prop, modify. by rewrite Hr.
Qed.

Lemma onRejected_run props s :
  heap s !! r = Some (OObj props) → ctx_ok (heap s) →
  onRejected r (VObj c) s =
  (Ok tt, set_heap (<[r := OObj (("endOffset", VHr (hr_now s - t0))
                                  :: ("error", VBool true) :: props)]> (heap s)) s).
Proof.
  intros Hr Hctx. unfold onRejected. rewrite bind_run.
  unfold set_prop at 1, modify; simpl. rewrite Hr.
  set (s1 := set_heap _ s).
  assert (Hr1 : heap s1 !! r = Some (OObj (("error", VBool true) :: props))).
  { simpl. apply list_lookup_insert_eq. by eapply lookup_lt_Some. }
  rewrite (finishRun_run _ s1 Hr1); [|by apply ctx_ok_set].
  simpl. by rewrite list_insert_insert_eq.
Qed.

Lemma resolve_undef p s : resolve_promise p VUndef s = (Ok tt, settle p (Fulfilled VUndef) s).
Proof. done. Qed.

(** The head of the queue is taken off. *)
Definition popped (ph : phase) : phase :=
  match ph with
  | Trig p2 p3 o (S k) => Trig p2 p3 o k
  | RejJob p3 e (S k) => RejJob p3 e k
  | _ => ph
  end.

Definition at_head (ph : phase) : Prop :=
  match ph with
  | Trig _ _ _ 0 | RejJob _ _ 0 => True
  | _ => False
  end.

Lemma queued_pop av b j0 rest j k :
  queued av b (j0 :: rest) j (S k) → clean_job av b j0 ∧ queued av b rest j k.
Proof.
  intros (pre & post & Hq & Hk & H). destruct pre as [|j1 pre]; [done|].
  simpl in *. injection Hq as <- ->. apply Forall_cons in H as [? ?].
  split; [done|]. exists pre, post. split_and!; [done|lia|done].
Qed.

Lemma shape_pop ph b ps j rest :
  ¬ at_head ph → shape ph b ps (j :: rest) →
  clean_job (av_of ph) b j ∧ shape (popped ph) b ps rest.
Proof.
  intros Hh. unfold qclean. destruct ph as [props|p2 p3|p2 p3 o [|k]|p3 e [|k]|o t];
    simpl in *; try done.
  - intros (? & [? ?]%Forall_cons). done.
  - intros (? & ? & ? & ? & ? & [? ?]%Forall_cons). done.
  - intros (? & ? & ? & ? & ? & [? ?]%queued_pop). done.
  - intros (? & ? & [? ?]%queued_pop). done.
  - intros (? & ? & ? & [? ?]%Forall_cons). done.
Qed.

Lemma popped_av ph : av_of (popped ph) = av_of ph.
Proof. by destruct ph as [| | ? ? ? [|?]| ? ? [|?]|]. Qed.

Lemma popped_props ph : phase_props (popped ph) = phase_props ph.
Proof. by destruct ph as [| | ? ? ? [|?]| ? ? [|?]|]. Qed.

Lemma inv_pop ph s j rest :
  ¬ at_head ph → inv ph s → queue s = j :: rest →
  clean_job (av_of ph) (bounds_of s) j ∧ inv (popped ph) (set_queue rest s).
Proof.
  intros Hh (Hrec & Hctx & Hsh) Hq. rewrite Hq in Hsh.
  apply shape_pop in Hsh as [Hj Hsh]; [|done].
  split; [done|]. split_and!; simpl; [by rewrite popped_props|done|done].
Qed.

(** A job that is not of the chain runs. *)
Lemma inv_run_clean ph s j rest :
  ¬ at_head ph → inv ph s → queue s = j :: rest →
  ∃ ph', fnext (popped ph) ph' ∧ inv ph' (exec_event EvRunJob s).
Proof.
  intros Hh Hinv Hq. simpl. rewrite Hq.
  destruct (inv_pop _ _ _ _ Hh Hinv Hq) as [Hj Hpop].
  eapply inv_fstep; [|done|done].
  apply run_job_fstep; [by apply inv_avoid_alloc|].
  by rewrite popped_av.
Qed.

Lemma queued_head av b q j :
  queued av b q j 0 → ∃ post, q = j :: post ∧ Forall (clean_job av b) post.
Proof.
  intros (pre & post & -> & Hk & H). destruct pre; [|done]. eauto.
Qed.

Lemma pclean_p2_settled p2 p3 b ps o :
  hangs (av_chain p2) b ps p2 (rxR p3) false →
  pclean (av_chain p2) b ps [p2] →
  pclean av_idle b (<[p2 := Promise o [] false]> ps) [].
Proof.
  intros _ Hp q pr Hq _.
  apply list_lookup_insert_Some in Hq as [(<- & <- & _)|[Hne Hq]]; [constructor|].
  eapply Forall_impl; [apply (Hp q pr Hq); solve_notin|].
  intros rx. apply clean_rx_idle.
Qed.

Lemma clean_job_rxR b p3 v :
  p3 < b_prom b → clean_job av_idle b (JReaction (rxR p3) (Fulfilled v)).
Proof. intros ?. simpl. split; [done|]. split; [done|]. by intros []. Qed.

Lemma jobs_of_p2 p2 p3 b m1 m2 v :
  p3 < b_prom b → Forall (clean_rx (av_chain p2) b) (m1 ++ m2) →
  Forall (clean_job av_idle b)
         (map (fun rx => JReaction rx (Fulfilled v)) (m1 ++ rxR p3 :: m2)).
Proof.
  intros Hp3 [H1 H2]%Forall_app. rewrite map_app; simpl.
  apply Forall_app. split; [|apply Forall_cons; split].
  - apply jobs_of_clean. eapply Forall_impl; [exact H1|]. intros ?; apply clean_rx_idle.
  - by apply clean_job_rxR.
  - apply jobs_of_clean. eapply Forall_impl; [exact H2|]. intros ?; apply clean_rx_idle.
Qed.

(** [d] was fulfilled: [finishRun] runs and the derived promise is fulfilled. *)
Lemma trig_fulfilled_run p2 p3 v s :
  inv (Trig p2 p3 (Fulfilled v) 0) s →
  inv (Done (Fulfilled v) (hr_now s - t0)) (exec_event EvRunJob s).
Proof.
  intros (Hrec & Hctx & Hsh). simpl in Hrec, Hsh.
  destruct Hsh as (_ & Hd & Hp3 & H2 & Hp & Hq).
  apply queued_head in Hq as (post & Hq & Hpost).
  assert (H2' := H2). destruct H2' as (m1 & m2 & Hp2 & Hm).
  simpl. rewrite Hq. simpl. unfold try_catch. rewrite bind_run.
  set (s0 := set_queue post s).
  unfold run_closure. rewrite bind_run.
  rewrite (finishRun_run props0 s0) by done. simpl.
  unfold settle; simpl. rewrite Hp2. simpl.
  unfold inv, shape; split_and!; simpl.
  - apply list_lookup_insert_eq. by eapply lookup_lt_Some.
  - by apply ctx_ok_set.
  - done.
  - by eapply pst_settled_ne.
  - eapply pclean_mono; [|by eapply pclean_p2_settled].
    unfold bounds_le, bounds_of; simpl. rewrite !length_insert. lia.
  - unfold qclean. eapply Forall_impl.
    + apply Forall_app. split.
      * eapply Forall_impl; [exact Hpost|]. intros ?; apply clean_job_idle.
      * by eapply jobs_of_p2.
    + intros j. apply clean_job_mono.
      unfold bounds_le, bounds_of; simpl. rewrite !length_insert. lia.
Qed.

(** [d] was rejected: the derived promise is rejected with the same reason. *)
Lemma trig_rejected_run p2 p3 e s :
  inv (Trig p2 p3 (Rejected e) 0) s →
  ∃ k, inv (RejJob p3 e k) (exec_event EvRunJob s).
Proof.
  intros (Hrec & Hctx & Hsh). simpl in Hrec, Hsh.
  destruct Hsh as (_ & Hd & Hp3 & H2 & Hp & Hq).
  apply queued_head in Hq as (post & Hq & Hpost).
  assert (H2' := H2). destruct H2' as (m1 & m2 & Hp2 & Hm).
  exists (length post + length m1).
  simpl. rewrite Hq. simpl. unfold settle; simpl. rewrite Hp2. simpl.
  unfold inv, shape; split_and!; simpl.
  - done.
  - done.
  - by eapply pst_settled_ne.
  - eapply pclean_mono; [|by eapply pclean_p2_settled].
    unfold bounds_le, bounds_of; simpl. rewrite !length_insert. lia.
  - apply Forall_app in Hm as [Hm1 Hm2].
    exists (post ++ map (fun rx => JReaction rx (Rejected e)) m1),
           (map (fun rx => JReaction rx (Rejected e)) m2).
    split_and!.
    + rewrite map_app; simpl. by rewrite <- app_assoc.
    + by rewrite length_app, length_map.
    + eapply Forall_impl.
      * rewrite <- app_assoc. repeat (apply Forall_app; split).
        -- eapply Forall_impl; [exact Hpost|]. intros ?; apply clean_job_idle.
        -- apply jobs_of_clean. eapply Forall_impl; [exact Hm1|].
           intros ?; apply clean_rx_idle.
        -- apply jobs_of_clean. eapply Forall_impl; [exact Hm2|].
           intros ?; apply clean_rx_idle.
      * intros j. apply clean_job_mono.
        unfold bounds_le, bounds_of; simpl. rewrite !length_insert. lia.
Qed.

(** The [catch] handler runs: the error is noted, then the end time. *)
Lemma rejjob_run p3 e s :
  inv (RejJob p3 e 0) s →
  inv (Done (Rejected e) (hr_now s - t0)) (exec_event EvRunJob s).
Proof.
  intros (Hrec & Hctx & Hsh). simpl in Hrec, Hsh.
  destruct Hsh as (Hd & Hp & Hq).
  apply queued_head in Hq as (post & Hq & Hpost).
  simpl. rewrite Hq. simpl. unfold try_catch. rewrite bind_run.
  set (s0 := set_queue post s).
  unfold run_closure. rewrite bind_run.
  rewrite (onRejected_run props0 s0) by done. simpl.
  set (s1 := set_heap _ s0).
  assert (Hinv1 : inv (Done (Rejected e) (hr_now s - t0)) s1).
  { unfold inv, shape; split_and!; simpl.
    - apply list_lookup_insert_eq. by eapply lookup_lt_Some.
    - (* two assignments, neither to [startHrTime] *)
      destruct Hctx as (pc & Hc & Hst).
      destruct (decide (r = c)) as [->|Hne].
      + rewrite Hc in Hrec. injection Hrec as <-.
        eexists. split; [apply list_lookup_insert_eq; by eapply lookup_lt_Some|].
        simpl. done.
      + exists pc. split; [|done]. by rewrite list_lookup_insert_ne.
    - done.
    - done.
    - eapply pclean_mono; [|exact Hp].
      unfold bounds_le, bounds_of; simpl. rewrite !length_insert. lia.
    - unfold qclean. eapply Forall_impl; [exact Hpost|].
      intros j. apply clean_job_mono.
      unfold bounds_le, bounds_of; simpl. rewrite !length_insert. lia. }
  assert (Hfs : fstep av_idle s1 (resolve_promise p3 VUndef s1).2).
  { apply resolve_promise_fstep. by intros []. }
  destruct (inv_fstep _ _ _ Hfs (Done (Rejected e) (hr_now s - t0)) eq_refl Hinv1)
    as (ph' & [->|Hn] & Hinv').
  - exact Hinv'.
  - by destruct Hn as (? & ? & ? & ? & ? & _).
Qed.

(** *** Every event *)

Inductive next : phase → phase → Prop :=
| nx_same ph : next ph ph
| nx_settle p2 p3 o k : next (Armed p2 p3) (Trig p2 p3 o k)
| nx_pop_trig p2 p3 o k : next (Trig p2 p3 o (S k)) (Trig p2 p3 o k)
| nx_ful p2 p3 v t : next (Trig p2 p3 (Fulfilled v) 0) (Done (Fulfilled v) t)
| nx_rej p2 p3 e k : next (Trig p2 p3 (Rejected e) 0) (RejJob p3 e k)
| nx_pop_rej p3 e k : next (RejJob p3 e (S k)) (RejJob p3 e k)
| nx_catch p3 e t : next (RejJob p3 e 0) (Done (Rejected e) t).

Lemma next_popped ph ph' : fnext (popped ph) ph' → next ph ph'.
Proof.
  intros [->|(p2 & p3 & o & k & Hp & ->)].
  - destruct ph as [| | ? ? ? [|?]| ? ? [|?]|]; simpl; constructor.
  - destruct ph as [| | ? ? ? [|?]| ? ? [|?]|]; simpl in Hp; try done.
    injection Hp as -> ->. constructor.
Qed.

Ltac run_clean Hinv Hq :=
  match type of Hinv with
  | inv ?ph _ =>
      let Hh := fresh in
      let ph' := fresh "ph" in
      let Hn := fresh in
      let Hi := fresh in
      assert (Hh : ¬ at_head ph) by (simpl; tauto);
      destruct (inv_run_clean _ _ _ _ Hh Hinv Hq) as (ph' & Hn & Hi);
      exists ph'; split; [by apply next_popped|done]
  end.

Lemma inv_event ev ph s :
  inv ph s → ∃ ph', next ph ph' ∧ inv ph' (exec_event ev s).
Proof.
  intros Hinv.
  assert (ev = EvRunJob ∨ ev ≠ EvRunJob) as [->|Hev]
    by (destruct ev; (by left) || (by right)).
  - destruct (queue s) as [|j rest] eqn:Hq.
    { exists ph. split; [constructor|]. simpl. by rewrite Hq. }
    destruct ph as [props|p2 p3|p2 p3 o [|k]|p3 e [|k]|o t].
    + run_clean Hinv Hq.
    + run_clean Hinv Hq.
    + destruct o as [|v|e].
      * by destruct Hinv as (_ & _ & ? & _).
      * eexists. split; [|exact (trig_fulfilled_run _ _ _ _ Hinv)]. constructor.
      * destruct (trig_rejected_run _ _ _ _ Hinv) as [k Hi].
        eexists. split; [|exact Hi]. constructor.
    + run_clean Hinv Hq.
    + eexists. split; [|exact (rejjob_run _ _ _ Hinv)]. constructor.
    + run_clean Hinv Hq.
    + run_clean Hinv Hq.
  - destruct (inv_other_event ev ph s Hev Hinv) as (ph' & Hn & Hi).
    exists ph'. split; [|done].
    destruct Hn as [->|(p2 & p3 & o & k & -> & ->)]; constructor.
Qed.

(** Phases reachable in any number of events. *)
Inductive reach : phase → phase → Prop :=
| reach_refl ph : reach ph ph
| reach_step ph1 ph2 ph3 : next ph1 ph2 → reach ph2 ph3 → reach ph1 ph3.

Lemma inv_run_events evs : ∀ ph s,
  inv ph s → ∃ ph', reach ph ph' ∧ inv ph' (run_events evs s).
Proof.
  induction evs as [|ev evs IH]; intros ph s Hinv; simpl.
  - exists ph. split; [constructor|done].
  - destruct (inv_event ev ph s Hinv) as (ph1 & Hn & Hi).
    destruct (IH ph1 _ Hi) as (ph2 & Hr & Hi2).
    exists ph2. split; [by eapply reach_step|done].
Qed.

(** Once the chain has run, or when there never was one, nothing moves. *)
Definition at_rest (ph : phase) : Prop :=
  match ph with Quiet _ | Done _ _ => True | _ => False end.

Lemma next_at_rest ph ph' : at_rest ph → next ph ph' → ph' = ph.
Proof. intros Hr Hn. by destruct Hn. Qed.

Lemma reach_at_rest ph ph' : at_rest ph → reach ph ph' → ph' = ph.
Proof.
  intros Hr Hn. induction Hn as [|ph1 ph2 ph3 H12 H23 IH]; [done|].
  apply next_at_rest in H12; [|done]. subst. auto.
Qed.

(** A chain never turns into [Quiet]. *)
Definition on_chain (ph : phase) : Prop :=
  match ph with Quiet _ => False | _ => True end.

Lemma reach_on_chain ph ph' : on_chain ph → reach ph ph' → on_chain ph'.
Proof.
  intros Hc Hn. induction Hn as [|ph1 ph2 ph3 H12 H23 IH]; [done|].
  apply IH. by destruct H12.
Qed.

(** *** The chain completes *)

Lemma run_jobs_succ n s : run_jobs (S n) s = run_jobs n (exec_event EvRunJob s).
Proof. unfold run_jobs. by rewrite Nat.iter_succ_r. Qed.

Lemma inv_pop_step ph s :
  ¬ at_head ph → ph ≠ popped ph → inv ph s →
  inv (popped ph) (exec_event EvRunJob s).
Proof.
  intros Hh Hne Hinv.
  destruct (queue s) as [|j rest] eqn:Hq.
  { exfalso. destruct Hinv as (_ & _ & Hsh).
    destruct ph as [| | ? ? ? [|?]| ? ? [|?]|]; simpl in *; try done.
    - destruct Hsh as (_ & _ & _ & _ & _ & (pre & post & Hq' & Hk & _)).
      rewrite Hq in Hq'. by destruct pre.
    - destruct Hsh as (_ & _ & (pre & post & Hq' & Hk & _)).
      rewrite Hq in Hq'. by destruct pre. }
  destruct (inv_run_clean _ _ _ _ Hh Hinv Hq) as (ph' & [->|Hn] & Hi); [done|].
  destruct Hn as (p2 & p3 & o & k & Hp & _).
  by destruct ph as [| | ? ? ? [|?]| ? ? [|?]|].
Qed.

Lemma rej_completes p3 e k : ∀ s,
  inv (RejJob p3 e k) s → ∃ n t, inv (Done (Rejected e) t) (run_jobs n s).
Proof.
  induction k as [|k IH]; intros s Hinv.
  - exists 1, (hr_now s - t0)%Z. exact (rejjob_run _ _ _ Hinv).
  - apply inv_pop_step in Hinv; [|simpl; tauto|simpl; intros [=]; lia].
    destruct (IH _ Hinv) as (n & t & Hn). exists (S n), t. by rewrite run_jobs_succ.
Qed.

Lemma trig_completes p2 p3 o k : ∀ s,
  inv (Trig p2 p3 o k) s → ∃ n t, inv (Done o t) (run_jobs n s).
Proof.
  induction k as [|k IH]; intros s Hinv.
  - destruct o as [|v|e].
    + by destruct Hinv as (_ & _ & ? & _).
    + exists 1, (hr_now s - t0)%Z. exact (trig_fulfilled_run _ _ _ _ Hinv).
    + destruct (trig_rejected_run _ _ _ _ Hinv) as [k Hi].
      destruct (rej_completes _ _ _ _ Hi) as (n & t & Hn).
      exists (S n), t. by rewrite run_jobs_succ.
  - apply inv_pop_step in Hinv; [|simpl; tauto|simpl; intros [=]; lia].
    destruct (IH _ Hinv) as (n & t & Hn). exists (S n), t. by rewrite run_jobs_succ.
Qed.

(** *** The chain is set up *)

(** The state after [d.then(finishRun).catch(...)]. *)
Definition attach (s : state) : state :=
  let p2 := length (promises s) in
  let s1 := set_promises (promises s ++ [Promise Pending [] false]) s in
  let s2 := add_reaction d (rxF p2) s1 in
  let s3 := set_promises (promises s2 ++ [Promise Pending [] false]) s2 in
  add_reaction p2 (rxR (S p2)) s3.

Lemma add_reaction_length p rx s :
  length (promises (add_reaction p rx s)) = length (promises s).
Proof.
  unfold add_reaction.
  destruct (_ !! p) as [[[| |] ? ?]|]; simpl; by rewrite ?length_insert.
Qed.

Lemma attach_run (result : value) s :
  (let! p2 := call_method (VPromise d) "then" [AFun (CFinishRun r (VObj c))] in
   do! call_method p2 "catch" [AFun (COnRejected r (VObj c))] in
   ret result) s = (Ok result, attach s).
Proof.
  rewrite bind_run. unfold call_method at 1. rewrite bind_run. simpl.
  rewrite bind_run. unfold call_method. rewrite bind_run. simpl.
  unfold attach, rxF, rxR.
  rewrite !add_reaction_length. simpl. rewrite length_app. simpl.
  by replace (length (promises s) + 1) with (S (length (promises s))) by lia.
Qed.

Lemma idle_chain_rx p2 b b' rx :
  bounds_le b b' → b_prom b ≤ p2 →
  clean_rx av_idle b rx → clean_rx (av_chain p2) b' rx.
Proof.
  intros Hb Hp. apply clean_rx_fresh; simpl; auto.
  intros p ->. by right.
Qed.

Lemma idle_chain_job p2 b b' j :
  bounds_le b b' → b_prom b ≤ p2 →
  clean_job av_idle b j → clean_job (av_chain p2) b' j.
Proof.
  intros Hb Hp. apply clean_job_fresh; simpl; auto.
  intros p ->. by right.
Qed.

Definition fresh_promise : promise := Promise Pending [] false.

Lemma add_reaction_pending p rx s rxs ext :
  promises s !! p = Some (Promise Pending rxs ext) →
  add_reaction p rx s =
  set_promises (<[p := Promise Pending (rxs ++ [rx]) ext]> (promises s)) s.
Proof. intros H. unfold add_reaction. by rewrite H. Qed.

Lemma add_reaction_settled p rx s o rxs ext :
  promises s !! p = Some (Promise o rxs ext) → settled o = true →
  add_reaction p rx s = enqueue (JReaction rx o) s.
Proof. intros H Ho. unfold add_reaction. rewrite H. by destruct o. Qed.

Lemma attach_pending s rxs ext :
  promises s !! d = Some (Promise Pending rxs ext) →
  attach s =
  set_promises
    (<[length (promises s) := Promise Pending [rxR (S (length (promises s)))] false]>
       (<[d := Promise Pending (rxs ++ [rxF (length (promises s))]) ext]>
          (promises s ++ [fresh_promise]) ++ [fresh_promise])) s.
Proof.
  intros Hd. assert (Hlt : d < length (promises s)) by (by eapply lookup_lt_Some).
  unfold attach.
  rewrite (add_reaction_pending d _ _ rxs ext) by (simpl; by rewrite lookup_app_l).
  rewrite (add_reaction_pending (length (promises s)) _ _ [] false); [done|].
  simpl. rewrite lookup_app_l by (rewrite length_insert, length_app; simpl; lia).
  rewrite list_lookup_insert_ne by lia.
  by rewrite list_lookup_middle.
Qed.

Lemma attach_settled s o rxs ext :
  promises s !! d = Some (Promise o rxs ext) → settled o = true →
  attach s =
  set_queue (queue s ++ [JReaction (rxF (length (promises s))) o])
    (set_promises
       (<[length (promises s) := Promise Pending [rxR (S (length (promises s)))] false]>
          ((promises s ++ [fresh_promise]) ++ [fresh_promise])) s).
Proof.
  intros Hd Ho. assert (Hlt : d < length (promises s)) by (by eapply lookup_lt_Some).
  unfold attach.
  rewrite (add_reaction_settled d _ _ o rxs ext); [|simpl; by rewrite lookup_app_l|done].
  rewrite (add_reaction_pending (length (promises s)) _ _ [] false); [done|].
  simpl. rewrite lookup_app_l by (rewrite length_app; simpl; lia).
  by rewrite list_lookup_middle.
Qed.

Lemma pclean_two_fresh p2 b b' ps X :
  bounds_le b b' → b_prom b ≤ p2 →
  pclean av_idle b ps [] →
  pclean (av_chain p2) b' ((ps ++ [fresh_promise]) ++ [fresh_promise]) X.
Proof.
  intros Hb Hp2 Hp q pr Hq _.
  apply lookup_app_Some in Hq as [Hq|[_ Hq]].
  2:{ apply list_lookup_singleton_Some in Hq as [_ <-]. constructor. }
  apply lookup_app_Some in Hq as [Hq|[_ Hq]].
  2:{ apply list_lookup_singleton_Some in Hq as [_ <-]. constructor. }
  eapply Forall_impl; [apply (Hp q pr Hq), not_elem_of_nil|].
  intros rx. by apply idle_chain_rx.
Qed.

Lemma attach_inv s :
  inv (Quiet props0) s → d < length (promises s) →
  let p2 := length (promises s) in
  (pst (promises s) d = Pending ∧ inv (Armed p2 (S p2)) (attach s)) ∨
  (settled (pst (promises s) d) = true ∧
   inv (Trig p2 (S p2) (pst (promises s) d) (length (queue s))) (attach s)).
Proof.
  intros (Hrec & Hctx & Hp & Hq) Hd p2.
  destruct (lookup_lt_is_Some_2 _ _ Hd) as [[o rxs ext] Hld].
  assert (Hrxs : Forall (clean_rx av_idle (bounds_of s)) rxs).
  { apply (Hp d _ Hld). apply not_elem_of_nil. }
  assert (Hpst : pst (promises s) d = o) by (unfold pst; by rewrite Hld).
  assert (Hp2 : b_prom (bounds_of s) ≤ p2) by (simpl; lia).
  rewrite Hpst.
  assert (o = Pending ∨ settled o = true) as [->|Ho] by (destruct o; auto);
    [left|right]; (split; [done|]).
  - rewrite (attach_pending _ _ _ Hld). fold p2.
    set (s' := set_promises _ s).
    assert (Hb : bounds_le (bounds_of s) (bounds_of s')).
    { unfold bounds_le, s', bounds_of; simpl.
      rewrite length_insert, length_app, length_insert, length_app; simpl. lia. }
    unfold inv, shape. split_and!; try done.
    + lia.
    + simpl. rewrite length_insert, length_app, length_insert, length_app; simpl. lia.
    + exists ext, rxs, []. split.
      * simpl. rewrite list_lookup_insert_ne by lia.
        rewrite lookup_app_l by (rewrite length_insert, length_app; simpl; lia).
        apply list_lookup_insert_eq. rewrite length_app; simpl. lia.
      * rewrite app_nil_r. eapply Forall_impl; [exact Hrxs|].
        intros rx. by apply idle_chain_rx.
    + exists [], []. split; [|constructor].
      apply list_lookup_insert_eq.
      rewrite length_app, length_insert, length_app; simpl. lia.
    + intros q pr Hlq HX. simpl in Hlq.
      apply not_elem_of_cons in HX as [Hqd HX].
      apply not_elem_of_cons in HX as [Hq2 _].
      rewrite list_lookup_insert_ne in Hlq by done.
      apply lookup_app_Some in Hlq as [Hlq|[_ Hlq]].
      2:{ apply list_lookup_singleton_Some in Hlq as [_ <-]. constructor. }
      rewrite list_lookup_insert_ne in Hlq by done.
      apply lookup_app_Some in Hlq as [Hlq|[_ Hlq]].
      2:{ apply list_lookup_singleton_Some in Hlq as [_ <-]. constructor. }
      eapply Forall_impl; [apply (Hp q pr Hlq), not_elem_of_nil|].
      intros rx. by apply idle_chain_rx.
    + eapply Forall_impl; [exact Hq|]. intros j. by apply idle_chain_job.
  - rewrite (attach_settled _ _ _ _ Hld Ho). fold p2.
    set (s' := set_queue _ _).
    assert (Hb : bounds_le (bounds_of s) (bounds_of s')).
    { unfold bounds_le, s', bounds_of; simpl.
      rewrite length_insert, !length_app; simpl. lia. }
    unfold inv, shape. split_and!; try done.
    + unfold pst. simpl. rewrite list_lookup_insert_ne by lia.
      rewrite !lookup_app_l by (rewrite ?length_app; simpl; lia).
      by rewrite Hld.
    + simpl. rewrite length_insert, !length_app; simpl. lia.
    + exists [], []. split; [|constructor].
      apply list_lookup_insert_eq. rewrite !length_app; simpl. lia.
    + apply pclean_insert; [|intros HX; by apply not_elem_of_cons in HX as [? _]].
      by eapply pclean_two_fresh.
    + exists (queue s), []. split_and!; [done..|].
      rewrite app_nil_r. eapply Forall_impl; [exact Hq|].
      intros j. by apply idle_chain_job.
Qed.

(** *** What the invariant says about the record and about [d] *)

Lemma inv_record ph s : inv ph s → record_props r s = phase_props ph.
Proof. intros (Hrec & _). unfold record_props. by rewrite Hrec. Qed.

Lemma writes_cons k k' v ps :
  writes k ((k', v) :: ps) = (if bool_decide (k' = k) then 1 else 0) + writes k ps.
Proof.
  unfold writes. rewrite filter_cons. simpl.
  case_decide; case_bool_decide; simpl; congruence.
Qed.

Lemma chain_writes ph :
  writes "endOffset" props0 = 0 → on_chain ph →
  writes "endOffset" (phase_props ph) =
  match ph with Done _ _ => 1 | _ => 0 end.
Proof.
  intros H0 Hc. destruct ph as [| | | |o t]; simpl; try done.
  destruct o; simpl; rewrite !writes_cons, H0; done.
Qed.

Lemma rest_event ev ph s : at_rest ph → inv ph s → inv ph (exec_event ev s).
Proof.
  intros Hr Hinv. destruct (inv_event ev ph s Hinv) as (ph' & Hn & Hi).
  apply next_at_rest in Hn; [|done]. by subst.
Qed.

Lemma rest_events evs ph s : at_rest ph → inv ph s → inv ph (run_events evs s).
Proof.
  intros Hr Hinv. destruct (inv_run_events evs ph s Hinv) as (ph' & Hn & Hi).
  apply reach_at_rest in Hn; [|done]. by subst.
Qed.

Lemma chain_state ph s :
  inv ph s → on_chain ph →
  match ph with
  | Armed _ _ => state_of_promise d s = Pending
  | Trig _ _ o _ | Done o _ => state_of_promise d s = o ∧ settled o = true
  | RejJob _ e _ => state_of_promise d s = Rejected e
  | Quiet _ => True
  end.
Proof.
  intros (_ & _ & Hsh) _. unfold state_of_promise.
  destruct ph; simpl in *; try done.
  - destruct Hsh as (_ & _ & [ext (l1 & l2 & -> & _)] & _). done.
  - destruct Hsh as (? & ? & _). done.
  - by destruct Hsh as (? & _).
  - destruct Hsh as (? & ? & _). done.
Qed.

Lemma chain_completes ph s :
  inv ph s → on_chain ph → settled (state_of_promise d s) = true →
  ∃ n t, inv (Done (state_of_promise d s) t) (run_jobs n s).
Proof.
  intros Hinv Hc Hs. assert (Hst := chain_state ph s Hinv Hc).
  destruct ph as [props|p2 p3|p2 p3 o k|p3 e k|o t]; try done.
  - rewrite Hst in Hs. done.
  - destruct Hst as [-> _]. by eapply trig_completes.
  - rewrite Hst. by eapply rej_completes.
  - destruct Hst as [-> _]. by exists 0, t.
Qed.

End Chain.

(** ** One invocation of a decorated resolver with a RequestContext *)

(** Every event keeps a state well formed. *)
Lemma wf_state_mono s s' :
  promises s' = promises s → queue s' = queue s →
  bounds_le (bounds_of s) (bounds_of s') → wf_state s → wf_state s'.
Proof.
  intros Hp Hq Hb [H1 H2]. split.
  - intros q pr Hl. rewrite Hp in Hl.
    eapply Forall_impl; [by eapply H1|]. intros rx. by apply clean_rx_mono.
  - rewrite Hq. eapply Forall_impl; [exact H2|]. intros j. by apply clean_job_mono.
Qed.

Lemma wf_state_fstep s s' : fstep av_none s s' → wf_state s → wf_state s'.
Proof.
  induction 1 as [s|s1 s2 s3 H1 IH1 H2 IH2|s a0 hr w im rp|s o|s l ps k v Hl Hav Hk
                 |s l es0 es' Hl|s ext|s q rxs ext rx Hq Hrx|s q rxs ext o Hq Hav Ho
                 |s j Hj|s al Hal Hlen]; intros Hwf; auto.
  - apply (wf_state_mono s); auto.
    unfold bounds_le, bounds_of; simpl. rewrite length_app; lia.
  - apply (wf_state_mono s); auto.
    unfold bounds_le, bounds_of; simpl. rewrite length_insert; lia.
  - apply (wf_state_mono s); auto.
    unfold bounds_le, bounds_of; simpl. rewrite length_insert; lia.
  - destruct Hwf as [H1 H2].
    assert (Hb : bounds_le (bounds_of s)
              (bounds_of (set_promises (promises s ++ [Promise Pending [] ext]) s))).
    { unfold bounds_le, bounds_of; simpl. rewrite length_app; simpl. lia. }
    split; simpl; [|by eapply Forall_impl; [exact H2|]; intros j; apply clean_job_mono].
    intros q pr Hl.
    apply lookup_app_Some in Hl as [Hl|[_ Hl]].
    + eapply Forall_impl; [by eapply H1|]. intros rx. by apply clean_rx_mono.
    + apply list_lookup_singleton_Some in Hl as [_ <-]. constructor.
  - destruct Hwf as [H1 H2].
    assert (Hb : bounds_le (bounds_of s)
              (bounds_of (set_promises (<[q := Promise Pending (rxs ++ [rx]) ext]> (promises s)) s))).
    { unfold bounds_le, bounds_of; simpl. rewrite length_insert. lia. }
    split; simpl; [|by eapply Forall_impl; [exact H2|]; intros j; apply clean_job_mono].
    intros q' pr Hl.
    apply list_lookup_insert_Some in Hl as [(<- & <- & _)|[_ Hl]]; simpl.
    + apply Forall_app. split.
      * eapply Forall_impl; [exact (H1 q _ Hq)|]. intros rx'. by apply clean_rx_mono.
      * constructor; [|constructor]. by eapply clean_rx_mono.
    + eapply Forall_impl; [by eapply H1|]. intros rx'. by apply clean_rx_mono.
  - destruct Hwf as [H1 H2].
    set (s' := set_queue _ _).
    assert (Hb : bounds_le (bounds_of s) (bounds_of s')).
    { unfold bounds_le, bounds_of; simpl. rewrite length_insert. lia. }
    split; simpl.
    + intros q' pr Hl.
      apply list_lookup_insert_Some in Hl as [(<- & <- & _)|[_ Hl]]; [constructor|].
      eapply Forall_impl; [by eapply H1|]. intros rx'. by apply clean_rx_mono.
    + apply Forall_app. split.
      * eapply Forall_impl; [exact H2|]. intros j. by apply clean_job_mono.
      * apply Forall_map. eapply Forall_impl; [exact (H1 q _ Hq)|].
        intros rx' Hrx'. simpl. apply clean_rx_job. by eapply clean_rx_mono.
  - destruct Hwf as [H1 H2]. split; simpl; [exact H1|].
    apply Forall_app. split; [done|]. constructor; [done|constructor].
  - apply (wf_state_mono s); auto.
    unfold bounds_le, bounds_of; simpl. lia.
Qed.

Lemma wf_state_event ev s : wf_state s → wf_state (exec_event ev s).
Proof.
  intros Hwf.
  assert (Hav : ∀ s0, avoid_alloc av_none s0) by (intros s0; by split_and!).
  assert (Hev : ev = EvRunJob ∨ ev ≠ EvRunJob) by (destruct ev; auto).
  destruct Hev as [->|Hev].
  - simpl. destruct (queue s) as [|j rest] eqn:Hq; [done|].
    destruct Hwf as [H1 H2]. rewrite Hq in H2. apply Forall_cons in H2 as [Hj H2].
    apply (wf_state_fstep (set_queue rest s)); [|by split].
    by apply run_job_fstep.
  - apply (wf_state_fstep s); [|done].
    apply exec_event_fstep; [done|done|]. by intros p [].
Qed.

Lemma wf_state_run_events evs : ∀ s, wf_state s → wf_state (run_events evs s).
Proof.
  induction evs as [|ev evs IH]; intros s Hwf; [done|].
  simpl. apply IH. by apply wf_state_event.
Qed.

Lemma truthy_get_prop v k s : truthy v = true → get_prop v k s = (Ok (get_field (heap s) v k), s).
Proof. by destruct v. Qed.

Lemma new_report_run s ctx c l t0 calls fi info :
  request_context s ctx c l t0 calls →
  new_report (VObj c) fi ctx info s =
  (Ok (length (heap s)), called_state s l t0 calls fi ctx info).
Proof.
  intros (_ & _ & pc & Hc & Hst & Hrc & Hl).
  assert (Hlt : l < length (heap s)) by (by eapply lookup_lt_Some).
  assert (Hct : c < length (heap s)) by (by eapply lookup_lt_Some).
  unfold new_report. rewrite bind_run. simpl. rewrite Hc, Hst. simpl.
  rewrite bind_run. simpl. rewrite bind_run. simpl. rewrite bind_run. simpl.
  rewrite (lookup_app_l _ _ c), Hc, Hrc by done. simpl.
  rewrite bind_run. unfold call_method. rewrite bind_run. simpl.
  rewrite (lookup_app_l _ _ l), Hl by done. simpl.
  by rewrite (lookup_app_l _ _ l), Hl by done.
Qed.

Lemma decoratedResolver_run fn s ctx c l t0 calls fi p a info :
  request_context s ctx c l t0 calls →
  decoratedResolver fn fi p a ctx info s =
  match fn p a ctx info (called_state s l t0 calls fi ctx info) with
  | (Ok result, s2) =>
      try_catch (process_result (length (heap s)) (VObj c) result)
                (fun _ => ret result) s2
  | (Thrown e, s2) =>
      (do! set_prop (length (heap s)) "error" (VBool true) in
       do! finishRun (length (heap s)) (VObj c) in
       throw e) s2
  end.
Proof.
  intros Hctx. assert (Hctx' := Hctx). destruct Hctx' as (Ht & Hdc & _).
  unfold decoratedResolver. rewrite bind_run.
  unfold js_and. rewrite Ht, (truthy_get_prop _ _ _ Ht), Hdc. simpl.
  rewrite bind_run, (new_report_run _ _ _ _ _ _ _ _ Hctx).
  rewrite bind_run. unfold try_catch at 1.
  destruct (fn p a ctx info _) as [[result|e] s2]; [done|].
  rewrite !bind_run. unfold set_prop, modify.
  match goal with |- context [bind (finishRun ?r0 ?dc) ?k ?s0] =>
    rewrite !(bind_run (finishRun r0 dc) k s0);
    destruct (finishRun r0 dc s0) as [[[]|e'] s3]; done
  end.
Qed.

(** The invariant of the chain section holds, with no closure of the
    invocation around, when the wrapped function is called ... *)
Lemma quiet_at_call s ctx c l t0 calls fi info d :
  wf_state s → request_context s ctx c l t0 calls →
  inv (length (heap s)) c t0 (new_props s t0 fi ctx info) d
      (Quiet (new_props s t0 fi ctx info))
      (called_state s l t0 calls fi ctx info).
Proof.
  intros [Hwp Hwq] (_ & _ & pc & Hc & Hst & Hrc & Hl).
  assert (Hlt : l < length (heap s)) by (by eapply lookup_lt_Some).
  assert (Hct : c < length (heap s)) by (by eapply lookup_lt_Some).
  assert (Hb : bounds_le (bounds_of s) (bounds_of (called_state s l t0 calls fi ctx info))).
  { unfold bounds_le, bounds_of; simpl. rewrite length_insert, length_app; simpl. lia. }
  unfold inv, shape. split_and!.
  - simpl. rewrite list_lookup_insert_ne by lia. by apply list_lookup_middle.
  - exists pc. split; [|done]. simpl.
    rewrite list_lookup_insert_ne by (intros ->; congruence).
    by rewrite lookup_app_l.
  - intros q pr Hq _. eapply Forall_impl; [by eapply Hwp|].
    intros rx. apply clean_rx_fresh; simpl; auto. intros ? ->. by right.
  - eapply Forall_impl; [exact Hwq|].
    intros j. apply clean_job_fresh; simpl; auto. intros ? ->. by right.
Qed.

(** ... and when it returns or throws. *)
Lemma quiet_after_call r c t0 props0 d props f p a ctx info s :
  inv r c t0 props0 d (Quiet props) s →
  inv r c t0 props0 d (Quiet props) (call_resolver f p a ctx info s).2.
Proof.
  intros Hinv.
  destruct (inv_fstep r c t0 props0 d (av_idle r) s (call_resolver f p a ctx info s).2)
    with (ph := Quiet props) as (ph' & [->|Hn] & Hinv'); try done.
  - apply call_resolver_fstep. by apply (inv_avoid_alloc r c t0 props0 d (Quiet props)).
  - by destruct Hn as (? & ? & ? & ? & ? & _).
Qed.

(** An assignment to the record when no closure of the invocation is around. *)
Lemma quiet_set r c t0 props0 d props k v s :
  k ≠ "startHrTime" →
  inv r c t0 props0 d (Quiet props) s →
  set_prop r k v s =
    (Ok tt, set_heap (<[r := OObj ((k, v) :: props)]> (heap s)) s) ∧
  inv r c t0 props0 d (Quiet ((k, v) :: props))
      (set_heap (<[r := OObj ((k, v) :: props)]> (heap s)) s).
Proof.
  intros Hk (Hrec & Hctx & Hp & Hq). simpl in Hrec. split.
  { unfold set_prop, modify. by rewrite Hrec. }
  assert (Hb : bounds_le (bounds_of s)
    (bounds_of (set_heap (<[r := OObj ((k, v) :: props)]> (heap s)) s))).
  { unfold bounds_le, bounds_of; simpl. rewrite length_insert. lia. }
  unfold inv, shape. split_and!.
  - simpl. apply list_lookup_insert_eq. by eapply lookup_lt_Some.
  - by apply ctx_ok_set.
  - by eapply pclean_mono.
  - by eapply qclean_mono.
Qed.

Lemma quiet_finishRun r c t0 props0 d props s :
  inv r c t0 props0 d (Quiet props) s →
  let s' := set_heap (<[r := OObj (("endOffset", VHr (hr_now s - t0)) :: props)]> (heap s)) s in
  finishRun r (VObj c) s = (Ok tt, s') ∧
  inv r c t0 props0 d (Quiet (("endOffset", VHr (hr_now s - t0)) :: props)) s'.
Proof.
  intros Hinv s'. split.
  - destruct Hinv as (Hrec & Hctx & _). by apply finishRun_run.
  - by apply quiet_set.
Qed.

(** ** The count-down of one [Promise.all]

    For an array result the chain hangs on the promise [pa] of
    [Promise.all(promises)].  The section follows the reactions that
    [Promise.all] registers on the elements, to show that [pa] settles once
    every element has. *)

Section AllOf.

Variable a : nat.            (* the count-down record *)
Variable pa : pid.           (* the promise of [Promise.all] *)
Variable es : list pid.      (* the promises among the elements, in order *)

Definition rxA (i : nat) (t : pid) : reaction :=
  Reaction (Some (CAllElement a pa i)) (Some (CReject pa)) t.

Definition av_count : avoid := Avoid (fun _ => False) (fun _ => False) (fun x => x = a).

Definition item (rx : reaction) : Prop := ∃ i t, i < length es ∧ rx = rxA i t.

Definition item_job (j : job) : Prop :=
  ∃ i t o, i < length es ∧ settled o = true ∧ j = JReaction (rxA i t) o.

Definition ok_rx (b : bounds) (rx : reaction) : Prop := clean_rx av_count b rx ∨ item rx.
Definition ok_job (b : bounds) (j : job) : Prop := clean_job av_count b j ∨ item_job j.

Definition count_none (vs : list (option value)) : nat :=
  length (filter (fun v => v = None) vs).

(** Element [i] still has its reaction: on the pending element, or as the
    [k]-th job of the queue. *)
Definition trig_p (i : nat) (s : state) : Prop :=
  ∃ e rxs ext t, es !! i = Some e ∧
    promises s !! e = Some (Promise Pending rxs ext) ∧ rxA i t ∈ rxs.

Definition trig_q (i k : nat) (s : state) : Prop :=
  ∃ t o, queue s !! k = Some (JReaction (rxA i t) o) ∧ settled o = true.

Definition trigger (i : nat) (s : state) : Prop := trig_p i s ∨ ∃ k, trig_q i k s.

Definition all_clean (s : state) : Prop :=
  (∀ q pr, promises s !! q = Some pr → Forall (ok_rx (bounds_of s)) (p_reactions pr)) ∧
  Forall (ok_job (bounds_of s)) (queue s) ∧
  a < length (alls s).

Definition all_core (s : state) : Prop :=
  all_clean s ∧ pa < length (promises s).

Definition all_inv (s : state) : Prop :=
  all_core s ∧
  ∃ vs, alls s !! a = Some (AllRec vs (count_none vs)) ∧ length vs = length es ∧
        (settled (state_of_promise pa s) = true ∨
         (0 < count_none vs ∧ ∀ i, vs !! i = Some None → trigger i s)).

(** Settled promises stay as they are. *)
Definition pmono (s s' : state) : Prop :=
  ∀ p, settled (state_of_promise p s) = true →
       state_of_promise p s' = state_of_promise p s.

Lemma pmono_refl s : pmono s s.
Proof. by intros p. Qed.

Lemma pmono_trans s1 s2 s3 : pmono s1 s2 → pmono s2 s3 → pmono s1 s3.
Proof.
  intros H1 H2 p Hp. rewrite <- (H1 p Hp). apply H2. by rewrite (H1 p Hp).
Qed.

Lemma state_of_promise_pst p s : state_of_promise p s = pst (promises s) p.
Proof. done. Qed.

Lemma fstep_pmono av s s' : fstep av s s' → pmono s s'.
Proof.
  induction 1; try (by intros p0); eauto using pmono_trans.
  - intros p0 _. rewrite !state_of_promise_pst. simpl. by apply pst_app.
  - intros p0 _. rewrite !state_of_promise_pst. simpl. apply pst_insert.
    intros ->. unfold pst. by rewrite H.
  - intros p0 Hp. rewrite !state_of_promise_pst in *. simpl.
    apply pst_insert. intros ->. unfold pst in *. rewrite H in Hp. done.
Qed.

Lemma ok_rx_mono b b' rx : bounds_le b b' → ok_rx b rx → ok_rx b' rx.
Proof. intros Hb [H|H]; [left; by eapply clean_rx_mono|by right]. Qed.

Lemma ok_job_mono b b' j : bounds_le b b' → ok_job b j → ok_job b' j.
Proof. intros Hb [H|H]; [left; by eapply clean_job_mono|by right]. Qed.

Lemma ok_rx_job b rx o : settled o = true → ok_rx b rx → ok_job b (JReaction rx o).
Proof.
  intros Ho [H|(i & t & Hi & ->)]; [left; by apply clean_rx_job|].
  right. by exists i, t, o.
Qed.

Lemma all_clean_mono s s' :
  promises s' = promises s → queue s' = queue s → length (alls s) ≤ length (alls s') →
  length (heap s) ≤ length (heap s') →
  all_clean s → all_clean s'.
Proof.
  intros Hp Hq Ha Hh (H1 & H2 & H3).
  assert (Hb : bounds_le (bounds_of s) (bounds_of s')).
  { unfold bounds_le, bounds_of; simpl. rewrite Hp. lia. }
  split_and!.
  - intros q pr Hl. rewrite Hp in Hl.
    eapply Forall_impl; [by eapply H1|]. intros rx. by apply ok_rx_mono.
  - rewrite Hq. eapply Forall_impl; [exact H2|]. intros j. by apply ok_job_mono.
  - lia.
Qed.

Lemma all_clean_fstep s s' : fstep av_count s s' → all_clean s → all_clean s'.
Proof.
  induction 1 as [s|s1 s2 s3 H1 IH1 H2 IH2|s a0 hr w im rp|s o|s l ps k v Hl Hav Hk
                 |s l es0 es' Hl|s ext|s q rxs ext rx Hq Hrx|s q rxs ext o Hq Hav Ho
                 |s j Hj|s al Hal Hlen]; intros Hc; auto.
  - apply (all_clean_mono s); simpl; auto. rewrite length_app; lia.
  - apply (all_clean_mono s); simpl; auto. rewrite length_insert; lia.
  - apply (all_clean_mono s); simpl; auto. rewrite length_insert; lia.
  - destruct Hc as (H1 & H2 & H3).
    assert (Hb : bounds_le (bounds_of s)
              (bounds_of (set_promises (promises s ++ [Promise Pending [] ext]) s))).
    { unfold bounds_le, bounds_of; simpl. rewrite length_app; simpl. lia. }
    split_and!; simpl; [|by eapply Forall_impl; [exact H2|]; intros j; apply ok_job_mono|done].
    intros q pr Hl.
    apply lookup_app_Some in Hl as [Hl|[_ Hl]].
    + eapply Forall_impl; [by eapply H1|]. intros rx. by apply ok_rx_mono.
    + apply list_lookup_singleton_Some in Hl as [_ <-]. constructor.
  - destruct Hc as (H1 & H2 & H3).
    assert (Hb : bounds_le (bounds_of s)
              (bounds_of (set_promises (<[q := Promise Pending (rxs ++ [rx]) ext]> (promises s)) s))).
    { unfold bounds_le, bounds_of; simpl. rewrite length_insert. lia. }
    split_and!; simpl; [|by eapply Forall_impl; [exact H2|]; intros j; apply ok_job_mono|done].
    intros q' pr Hl.
    apply list_lookup_insert_Some in Hl as [(<- & <- & _)|[_ Hl]]; simpl.
    + apply Forall_app. split.
      * eapply Forall_impl; [exact (H1 q _ Hq)|]. intros rx'. by apply ok_rx_mono.
      * constructor; [|constructor]. left. by eapply clean_rx_mono.
    + eapply Forall_impl; [by eapply H1|]. intros rx'. by apply ok_rx_mono.
  - destruct Hc as (H1 & H2 & H3).
    set (s' := set_queue _ _).
    assert (Hb : bounds_le (bounds_of s) (bounds_of s')).
    { unfold bounds_le, bounds_of; simpl. rewrite length_insert. lia. }
    split_and!; simpl; [| |done].
    + intros q' pr Hl.
      apply list_lookup_insert_Some in Hl as [(<- & <- & _)|[_ Hl]]; [constructor|].
      eapply Forall_impl; [by eapply H1|]. intros rx'. by apply ok_rx_mono.
    + apply Forall_app. split.
      * eapply Forall_impl; [exact H2|]. intros j. by apply ok_job_mono.
      * apply Forall_map. eapply Forall_impl; [exact (H1 q _ Hq)|].
        intros rx' Hrx'. simpl. apply ok_rx_job; [done|]. by eapply ok_rx_mono.
  - destruct Hc as (H1 & H2 & H3). split_and!; simpl; [exact H1| |done].
    apply Forall_app. split; [done|]. constructor; [by left|constructor].
  - apply (all_clean_mono s); simpl; auto.
Qed.

Lemma all_core_fstep s s' : fstep av_count s s' → all_core s → all_core s'.
Proof.
  intros Hfs [Hc Hp]. split; [by eapply all_clean_fstep|].
  apply fstep_bounds in Hfs. unfold bounds_le, bounds_of in Hfs; simpl in Hfs. lia.
Qed.

Lemma trig_q_app i k s js :
  trig_q i k s → trig_q i k (set_queue (queue s ++ js) s).
Proof.
  intros (t & o & Hk & Ho). exists t, o. split; [|done]. simpl.
  rewrite lookup_app_l; [done|]. by eapply lookup_lt_Some.
Qed.

Lemma trigger_fstep i s s' : fstep av_count s s' → trigger i s → trigger i s'.
Proof.
  induction 1 as [s|s1 s2 s3 H1 IH1 H2 IH2|s a0 hr w im rp|s o|s l ps k v Hl Hav Hk
                 |s l es0 es' Hl|s ext|s q rxs ext rx Hq Hrx|s q rxs ext o Hq Hav Ho
                 |s j Hj|s al Hal Hlen]; intros Ht; auto.
  - (* a promise is created *)
    destruct Ht as [(e & rxs & ext0 & t & He & Hp & Hin)|Ht]; [left|by right].
    exists e, rxs, ext0, t. split_and!; [done| |done]. simpl.
    rewrite lookup_app_l; [done|]. by eapply lookup_lt_Some.
  - (* a reaction is added *)
    destruct Ht as [(e & rxs0 & ext0 & t & He & Hp & Hin)|Ht]; [left|by right].
    destruct (decide (q = e)) as [->|Hne].
    + rewrite Hq in Hp. injection Hp as <- <-.
      exists e, (rxs ++ [rx]), ext, t. split_and!; [done| |].
      * simpl. apply list_lookup_insert_eq. by eapply lookup_lt_Some.
      * apply elem_of_app. by left.
    + exists e, rxs0, ext0, t. split_and!; [done| |done]. simpl.
      by rewrite list_lookup_insert_ne.
  - (* a promise is settled *)
    destruct Ht as [(e & rxs0 & ext0 & t & He & Hp & Hin)|[k Ht]].
    + destruct (decide (q = e)) as [->|Hne].
      * rewrite Hq in Hp. injection Hp as <- <-.
        apply list_elem_of_lookup in Hin as [n Hn].
        right. exists (length (queue s) + n), t, o. split; [|done]. simpl.
        rewrite lookup_app_r by lia.
        replace (length (queue s) + n - length (queue s)) with n by lia.
        by rewrite list_lookup_fmap, Hn.
      * left. exists e, rxs0, ext0, t. split_and!; [done| |done]. simpl.
        by rewrite list_lookup_insert_ne.
    + right. exists k.
      by apply (trig_q_app i k (set_promises (<[q:=Promise o [] ext]> (promises s)) s)).
  - (* a job is added *)
    destruct Ht as [Ht|[k Ht]]; [by left|right]. exists k. by apply trig_q_app.
Qed.

Lemma fstep_alls s s' : fstep av_count s s' → alls s' !! a = alls s !! a.
Proof.
  induction 1; simpl; auto.
  - by rewrite IHfstep2.
  - by apply H.
Qed.

Lemma all_inv_fstep s s' : fstep av_count s s' → all_inv s → all_inv s'.
Proof.
  intros Hfs (Hc & vs & Ha & Hlen & Hpr).
  split; [by eapply all_core_fstep|].
  exists vs. split_and!; [by rewrite (fstep_alls _ _ Hfs)|done|].
  destruct Hpr as [Hs|[Hpos Htr]].
  - left. by rewrite (fstep_pmono _ _ _ Hfs pa Hs).
  - right. split; [done|]. intros i Hi. eapply trigger_fstep; eauto.
Qed.

(** *** Counting the outstanding elements *)

Lemma count_none_cons v vs :
  count_none (v :: vs) = match v with None => 1 | Some _ => 0 end + count_none vs.
Proof.
  unfold count_none. rewrite filter_cons.
  destruct v; destruct (decide _); simpl; congruence.
Qed.

Lemma count_none_insert vs i v :
  vs !! i = Some None →
  0 < count_none vs ∧ count_none (<[i := Some v]> vs) = pred (count_none vs).
Proof.
  revert i. induction vs as [|x vs IH]; intros i Hi; [done|].
  destruct i as [|i]; simpl in *.
  - injection Hi as ->. rewrite !count_none_cons. simpl. lia.
  - destruct (IH i Hi) as [Hpos Heq]. rewrite !count_none_cons, Heq.
    destruct x; simpl; lia.
Qed.

Lemma count_none_pos vs : 0 < count_none vs → ∃ i, vs !! i = Some None.
Proof.
  induction vs as [|x vs IH]; [unfold count_none; simpl; lia|].
  rewrite count_none_cons. destruct x as [v|]; simpl.
  - intros H. destruct (IH H) as [i Hi]. by exists (S i).
  - intros _. by exists 0.
Qed.

Lemma count_none_replicate n : count_none (replicate n None) = n.
Proof. induction n as [|n IH]; [done|]. simpl. rewrite count_none_cons, IH. done. Qed.

Lemma insert_unresolved (vs : list (option value)) i v i' :
  <[i := Some v]> vs !! i' = Some None → i' ≠ i ∧ vs !! i' = Some None.
Proof.
  intros H. destruct (decide (i = i')) as [->|Hne].
  - apply list_lookup_insert_Some in H as [(_ & ? & _)|[? _]]; done.
  - by rewrite list_lookup_insert_ne in H.
Qed.

(** *** Jobs *)

Lemma item_job_dec j : item_job j ∨ ¬ item_job j.
Proof.
  destruct j as [[onF onR t] o|]; [|right; by intros (? & ? & ? & _ & _ & ?)].
  destruct onF as [[| | | | | |a0 p0 i]|];
    try (right; by intros (? & ? & ? & _ & _ & [= ?])).
  destruct (decide (a0 = a)) as [->|]; [|right; intros (? & ? & ? & _ & _ & [= ?]); congruence].
  destruct (decide (p0 = pa)) as [->|]; [|right; intros (? & ? & ? & _ & _ & [= ?]); congruence].
  destruct (decide (onR = Some (CReject pa))) as [->|];
    [|right; intros (? & ? & ? & _ & _ & [= ?]); congruence].
  destruct (decide (i < length es)) as [Hi|];
    [|right; intros (? & ? & ? & ? & _ & [= ?]); subst; lia].
  destruct (settled o) eqn:Ho;
    [|right; intros (? & ? & ? & _ & ? & [= ?]); subst; congruence].
  left. by exists i, t, o.
Qed.

Lemma all_core_avoid s : all_core s → avoid_alloc av_count s.
Proof. intros [(_ & _ & Ha) _]. split_and!; simpl; try done. by intros ? ->. Qed.

Lemma trig_q_fstep i k s s' : fstep av_count s s' → trig_q i k s → trig_q i k s'.
Proof.
  induction 1; intros Ht; auto.
  - by apply (trig_q_app i k (set_promises (<[q:=Promise o [] ext]> (promises s)) s)).
  - by apply trig_q_app.
Qed.

Lemma settle_settled p o s :
  p < length (promises s) → settled o = true →
  settled (state_of_promise p (settle p o s)) = true.
Proof.
  intros Hp Ho. unfold settle, state_of_promise.
  destruct (lookup_lt_is_Some_2 _ _ Hp) as [[st rxs ext] Hl]. rewrite Hl.
  destruct st; simpl; rewrite ?Hl; simpl; try done.
  by rewrite list_lookup_insert_eq.
Qed.

(** A step that touches the count-down records only. *)
Definition alls_only (s s' : state) : Prop :=
  promises s' = promises s ∧ queue s' = queue s ∧ heap s' = heap s ∧
  length (alls s') = length (alls s).

Lemma all_core_alls_only s s' : alls_only s s' → all_core s → all_core s'.
Proof.
  intros (Hp & Hq & Hh & Ha) [Hc Hpa]. split; [|by rewrite Hp].
  apply (all_clean_mono s); auto; [by rewrite Ha|by rewrite Hh].
Qed.

Lemma trigger_same i s s' :
  promises s' = promises s → queue s' = queue s → trigger i s → trigger i s'.
Proof.
  intros Hp Hq [(e & rxs & ext & t & ? & ? & ?)|(k & t & o & ? & ?)].
  - left. exists e, rxs, ext, t. by rewrite Hp.
  - right. exists k, t, o. by rewrite Hq.
Qed.

Lemma trig_q_same i k s s' : queue s' = queue s → trig_q i k s → trig_q i k s'.
Proof. intros Hq (t & o & ? & ?). exists t, o. by rewrite Hq. Qed.

(** What the resolve function of element [i] does: nothing when the element
    is resolved already; otherwise it stores the value and counts down, and
    fulfils [pa] when the count reaches zero. *)
Lemma all_resolve_element_eq s vs n i v :
  alls s !! a = Some (AllRec vs n) → vs !! i = Some None →
  all_resolve_element a pa i v s =
  let vs' := <[i := Some v]> vs in
  let s1 := set_alls (<[a := AllRec vs' (pred n)]> (alls s)) s in
  (Ok tt,
   if bool_decide (pred n = 0) then
     settle pa (Fulfilled (VObj (length (heap s))))
       (set_heap (heap s ++ [OArr (map (default VUndef) vs')]) s1)
   else s1).
Proof.
  intros Ha Hi. assert (Hal : a < length (alls s)) by (by eapply lookup_lt_Some).
  unfold all_resolve_element. rewrite bind_run. simpl. rewrite Ha, Hi.
  rewrite bind_run. unfold modify at 1.
  unfold all_count_down. rewrite bind_run. simpl.
  rewrite list_lookup_insert_eq by done.
  rewrite bind_run. unfold modify at 1. simpl. rewrite list_insert_insert_eq.
  case_bool_decide; [|done]. rewrite bind_run. simpl.
  unfold resolve_promise. simpl. rewrite bind_run. simpl.
  by rewrite list_lookup_middle by done.
Qed.

Lemma all_resolve_element_run s vs i v :
  alls s !! a = Some (AllRec vs (count_none vs)) →
  pa < length (promises s) →
  ∃ s1 vs',
    alls_only s s1 ∧
    alls s1 !! a = Some (AllRec vs' (count_none vs')) ∧
    length vs' = length vs ∧
    (∀ i', vs' !! i' = Some None → i' ≠ i ∧ vs !! i' = Some None) ∧
    (all_resolve_element a pa i v s).1 = Ok tt ∧
    fstep av_count s1 (all_resolve_element a pa i v s).2 ∧
    (0 < count_none vs → count_none vs' = 0 →
     settled (state_of_promise pa (all_resolve_element a pa i v s).2) = true).
Proof.
  intros Ha Hpa.
  assert (Hal : a < length (alls s)) by (by eapply lookup_lt_Some).
  destruct (vs !! i) as [[x|]|] eqn:Hi.
  - unfold all_resolve_element. rewrite bind_run. simpl. rewrite Ha, Hi.
    exists s, vs. split_and!; try done; [|constructor|lia].
    intros i' Hi'. split; [|done]. intros ->. congruence.
  - rewrite (all_resolve_element_eq _ _ _ _ _ Ha Hi). cbv zeta.
    destruct (count_none_insert vs i v Hi) as [Hpos Hcnt].
    set (vs' := <[i := Some v]> vs) in *. rewrite <- Hcnt.
    set (s1 := set_alls (<[a := AllRec vs' (count_none vs')]> (alls s)) s).
    exists s1, vs'. split_and!.
    + unfold alls_only; simpl. by rewrite length_insert.
    + simpl. by apply list_lookup_insert_eq.
    + unfold vs'. by rewrite length_insert.
    + intros i'. apply insert_unresolved.
    + done.
    + simpl. case_bool_decide; [|constructor].
      eapply fs_trans; [apply fs_alloc|]. apply settle_fstep; [done|]. simpl. tauto.
    + intros _ Hz. simpl. rewrite bool_decide_eq_true_2 by done.
      by apply settle_settled.
  - unfold all_resolve_element. rewrite bind_run. simpl. rewrite Ha, Hi.
    exists s, vs. split_and!; try done; [|constructor|lia].
    intros i' Hi'. split; [|done]. intros ->. congruence.
Qed.

(** Every outstanding element has its job among the first [B] of the queue. *)
Definition bounded (B : nat) (s : state) : Prop :=
  ∀ vs n i, alls s !! a = Some (AllRec vs n) → vs !! i = Some None →
            ∃ k, k < B ∧ trig_q i k s.

Lemma resolve_undef_run t s :
  resolve_promise t VUndef s = (Ok tt, settle t (Fulfilled VUndef) s).
Proof. done. Qed.

(** One job is run. *)
Lemma all_inv_run_job s :
  all_inv s →
  let s' := exec_event EvRunJob s in
  all_inv s' ∧ pmono s s' ∧
  ∀ B, bounded (S B) s → settled (state_of_promise pa s') = true ∨ bounded B s'.
Proof.
  intros (Hcore & vs & Ha & Hlen & Hpr) s'. unfold s', exec_event.
  destruct (queue s) as [|j rest] eqn:Hq.
  { split_and!; [split; [done|by exists vs]|apply pmono_refl|].
    intros B HB. right. intros vs0 n i H1 H2.
    destruct (HB _ _ _ H1 H2) as (k & _ & t & o & Hk & _). by rewrite Hq in Hk. }
  set (s0 := set_queue rest s).
  assert (Hok : ok_job (bounds_of s) j ∧ all_core s0).
  { destruct Hcore as [(H1 & H2 & H3) Hp]. rewrite Hq in H2.
    apply Forall_cons in H2 as [Hj H2]. split; [done|]. by split; [split_and!|]. }
  destruct Hok as [Hok Hcore0].
  assert (Hshift : ∀ i k, trig_q i (S k) s → trig_q i k s0).
  { intros i k (t & o & Hk & Ho). exists t, o. simpl. by rewrite Hq in Hk. }
  assert (Hhead : ∀ i, vs !! i = Some None → trig_q i 0 s →
            ∃ t o, j = JReaction (rxA i t) o ∧ settled o = true ∧ i < length es).
  { intros i Hi (t & o & Hk & Ho). rewrite Hq in Hk. injection Hk as ->.
    exists t, o. split_and!; [done..|]. rewrite <- Hlen. by eapply lookup_lt_Some. }
  assert (Hpa0 : pa < length (promises s0)) by apply Hcore0.
  destruct (item_job_dec j) as [(i & t & o & Hi & Ho & ->)|Hni].
  - destruct o as [|v|e]; [done| |].
    + (* the element is fulfilled *)
      destruct (all_resolve_element_run s0 vs i v Ha Hpa0)
        as (s1 & vs' & Hao & Ha1 & Hlen' & Hun & Hok1 & Hfs & Hz).
      assert (Hrun : (run_job (JReaction (rxA i t) (Fulfilled v)) s0).2 =
                     settle t (Fulfilled VUndef) (all_resolve_element a pa i v s0).2).
      { unfold run_job, run_reaction, rxA; simpl. unfold try_catch. rewrite !bind_run.
        destruct (all_resolve_element a pa i v s0) as [r1 s2]. simpl in Hok1. subst r1.
        unfold ret. by rewrite resolve_undef_run. }
      rewrite Hrun.
      set (s2 := (all_resolve_element a pa i v s0).2) in *.
      set (s3 := settle t (Fulfilled VUndef) s2).
      assert (Hfs3 : fstep av_count s2 s3) by (apply settle_fstep; [done|simpl; tauto]).
      assert (Hfs13 : fstep av_count s1 s3) by (by eapply fs_trans).
      assert (Hps : promises s1 = promises s) by (by destruct Hao as (-> & _)).
      assert (Hqs : queue s1 = queue s0) by (by destruct Hao as (_ & -> & _)).
      assert (Hmono : pmono s s3).
      { intros p Hp. rewrite (fstep_pmono _ _ _ Hfs13 p).
        - unfold state_of_promise. by rewrite Hps.
        - unfold state_of_promise in *. by rewrite Hps. }
      assert (Htr : ∀ i', vs' !! i' = Some None → trigger i' s → trigger i' s3).
      { intros i' Hi' Ht. destruct (Hun i' Hi') as [Hne Hvi].
        eapply trigger_fstep; [exact Hfs13|].
        destruct Ht as [(e0 & rxs & ext & t0' & ? & ? & ?)|[[|k] Ht]].
        - left. exists e0, rxs, ext, t0'. by rewrite Hps.
        - destruct (Hhead i' Hvi Ht) as (t' & o' & [= -> _ _] & _). done.
        - right. exists k. apply (trig_q_same _ _ s0); [done|]. by apply Hshift. }
      split_and!.
      * split; [eapply all_core_fstep; [exact Hfs13|]; by eapply all_core_alls_only|].
        exists vs'. split_and!; [by rewrite (fstep_alls _ _ Hfs13)|congruence|].
        destruct Hpr as [Hs|[Hpos Htrg]]; [left; by rewrite (Hmono pa Hs)|].
        destruct (decide (count_none vs' = 0)) as [Hz0|Hnz].
        -- left. rewrite (fstep_pmono _ _ _ Hfs3 pa); by apply Hz.
        -- right. split; [lia|]. intros i' Hi'. apply Htr; [done|].
           apply Htrg. by apply Hun.
      * done.
      * intros B HB. right. intros vs3 n3 i3 H1 H2.
        rewrite (fstep_alls _ _ Hfs13), Ha1 in H1. injection H1 as <- <-.
        destruct (Hun i3 H2) as [Hne Hvi].
        destruct (HB _ _ _ Ha Hvi) as ([|k] & Hk & Ht).
        -- destruct (Hhead i3 Hvi Ht) as (t' & o' & [= -> _ _] & _). done.
        -- exists k. split; [lia|]. eapply trig_q_fstep; [exact Hfs13|].
           apply (trig_q_same _ _ s0); [done|]. by apply Hshift.
    + (* the element is rejected *)
      assert (Hrun : (run_job (JReaction (rxA i t) (Rejected e)) s0).2 =
                     settle t (Fulfilled VUndef) (settle pa (Rejected e) s0)) by done.
      rewrite Hrun.
      set (s2 := settle pa (Rejected e) s0).
      set (s3 := settle t (Fulfilled VUndef) s2).
      assert (Hfs2 : fstep av_count s0 s2) by (apply settle_fstep; [done|simpl; tauto]).
      assert (Hfs3 : fstep av_count s2 s3) by (apply settle_fstep; [done|simpl; tauto]).
      assert (Hfs : fstep av_count s0 s3) by (by eapply fs_trans).
      assert (Hset : settled (state_of_promise pa s3) = true).
      { rewrite (fstep_pmono _ _ _ Hfs3 pa); by apply settle_settled. }
      split_and!.
      * split; [by eapply all_core_fstep|].
        exists vs. split_and!; [by rewrite (fstep_alls _ _ Hfs)|done|by left].
      * intros p Hp. exact (fstep_pmono _ _ _ Hfs p Hp).
      * intros B HB. by left.
  - (* a job of the rest of the program *)
    destruct Hok as [Hcl|Hit]; [|done].
    assert (Hfs : fstep av_count s0 (run_job j s0).2).
    { apply run_job_fstep; [by apply all_core_avoid|done]. }
    assert (Hni' : ∀ i, vs !! i = Some None → ¬ trig_q i 0 s).
    { intros i Hi Ht. destruct (Hhead i Hi Ht) as (t & o & -> & Ho & Hlt).
      apply Hni. by exists i, t, o. }
    split_and!.
    + apply (all_inv_fstep s0); [done|]. split; [done|].
      exists vs. split_and!; [done..|].
      destruct Hpr as [Hs|[Hpos Htrg]]; [by left|right]. split; [done|].
      intros i Hi. destruct (Htrg i Hi) as [(e0 & rxs & ext & t0' & ? & ? & ?)|[[|k] Ht]].
      * left. by exists e0, rxs, ext, t0'.
      * by destruct (Hni' i Hi).
      * right. exists k. by apply Hshift.
    + intros p Hp. exact (fstep_pmono _ _ _ Hfs p Hp).
    + intros B HB. right. intros vs3 n3 i3 H1 H2.
      rewrite (fstep_alls _ _ Hfs) in H1. simpl in H1. rewrite Ha in H1.
      injection H1 as <- <-.
      destruct (HB _ _ _ Ha H2) as ([|k] & Hk & Ht); [by destruct (Hni' i3 H2)|].
      exists k. split; [lia|]. eapply trig_q_fstep; [exact Hfs|]. by apply Hshift.
Qed.

(** Any event. *)
Lemma all_inv_event ev s :
  all_inv s → all_inv (exec_event ev s) ∧ pmono s (exec_event ev s).
Proof.
  intros Hinv.
  assert (Hev : ev = EvRunJob ∨ ev ≠ EvRunJob) by (destruct ev; auto).
  destruct Hev as [->|Hev].
  - destruct (all_inv_run_job s Hinv) as (? & ? & _). done.
  - assert (Hfs : fstep av_count s (exec_event ev s)).
    { apply exec_event_fstep; [done|apply all_core_avoid, Hinv|]. by intros p []. }
    split; [by eapply all_inv_fstep|by eapply fstep_pmono].
Qed.

Lemma all_inv_run_events evs : ∀ s,
  all_inv s → all_inv (run_events evs s) ∧ pmono s (run_events evs s).
Proof.
  induction evs as [|ev evs IH]; intros s Hinv; [split; [done|apply pmono_refl]|].
  destruct (all_inv_event ev s Hinv) as [H1 H2].
  destruct (IH _ H1) as [H3 H4]. split; [done|]. by eapply pmono_trans.
Qed.

(** Every element is settled. *)
Definition all_settled (s : state) : Prop :=
  Forall (fun e => settled (state_of_promise e s) = true) es.

Lemma all_settled_mono s s' : pmono s s' → all_settled s → all_settled s'.
Proof.
  intros Hm Hs. eapply Forall_impl; [exact Hs|]. intros e He. simpl. by rewrite (Hm e He).
Qed.

Lemma bounded_completes B : ∀ s,
  all_inv s → bounded B s →
  ∃ m, settled (state_of_promise pa (run_jobs m s)) = true.
Proof.
  induction B as [|B IH]; intros s Hinv HB.
  - exists 0. destruct Hinv as (_ & vs & Ha & _ & [Hs|[Hpos _]]); [done|].
    destruct (count_none_pos _ Hpos) as [i Hi].
    destruct (HB _ _ _ Ha Hi) as (k & Hk & _). lia.
  - destruct (all_inv_run_job s Hinv) as (Hinv' & _ & Hstep).
    destruct (Hstep B HB) as [Hs|HB']; [by exists 1|].
    destruct (IH _ Hinv' HB') as [m Hm]. exists (S m). by rewrite run_jobs_succ.
Qed.

(** Once every element is settled, [pa] is within finitely many jobs. *)
Lemma all_completes s :
  all_inv s → all_settled s →
  ∃ m, settled (state_of_promise pa (run_jobs m s)) = true.
Proof.
  intros Hinv Hall.
  assert (Hd : settled (state_of_promise pa s) = true ∨ bounded (length (queue s)) s).
  { destruct Hinv as (_ & vs0 & Ha & _ & [Hs|[_ Htr]]); [by left|right].
    intros vs n i H1 H2. rewrite Ha in H1. injection H1 as <- <-.
    destruct (Htr i H2) as [(e & rxs & ext & t & He & Hp & _)|[k Ht]].
    - unfold all_settled in Hall. rewrite Forall_lookup in Hall.
      specialize (Hall _ _ He). unfold state_of_promise in Hall. by rewrite Hp in Hall.
    - exists k. split; [|done]. destruct Ht as (t & o & Hk & _). by eapply lookup_lt_Some. }
  destruct Hd as [Hs|HB]; [by exists 0|]. by eapply bounded_completes.
Qed.

(** *** [Promise.all] registers its reactions *)

Lemma add_item_core e i t s :
  all_core s → i < length es → all_core (add_reaction e (rxA i t) s).
Proof.
  intros [(H1 & H2 & H3) Hp] Hi. unfold add_reaction.
  destruct (promises s !! e) as [[[|v|v] rxs ext]|] eqn:He; [| | |done].
  - set (s' := set_promises _ s).
    assert (Hb : bounds_le (bounds_of s) (bounds_of s')).
    { unfold bounds_le, bounds_of; simpl. rewrite length_insert. lia. }
    split; [split_and!|]; simpl; [| |done|by rewrite length_insert].
    + intros q pr Hl.
      apply list_lookup_insert_Some in Hl as [(<- & <- & _)|[_ Hl]]; simpl.
      * apply Forall_app. split.
        -- eapply Forall_impl; [exact (H1 e _ He)|]. intros rx. by apply ok_rx_mono.
        -- constructor; [|constructor]. right. by exists i, t.
      * eapply Forall_impl; [exact (H1 q _ Hl)|]. intros rx. by apply ok_rx_mono.
    + eapply Forall_impl; [exact H2|]. intros j. by apply ok_job_mono.
  - split; [split_and!|]; simpl; try done.
    apply Forall_app. split; [done|]. constructor; [|constructor].
    right. by exists i, t, (Fulfilled v).
  - split; [split_and!|]; simpl; try done.
    apply Forall_app. split; [done|]. constructor; [|constructor].
    right. by exists i, t, (Rejected v).
Qed.

Lemma add_item_trigger e i t s :
  es !! i = Some e → e < length (promises s) →
  trigger i (add_reaction e (rxA i t) s).
Proof.
  intros He Hlt. unfold add_reaction.
  destruct (lookup_lt_is_Some_2 _ _ Hlt) as [[o rxs ext] Hl]. rewrite Hl.
  destruct o as [|v|v].
  - left. exists e, (rxs ++ [rxA i t]), ext, t.
    split_and!; [done|simpl; by apply list_lookup_insert_eq|].
    apply elem_of_app. right. by apply list_elem_of_singleton.
  - right. exists (length (queue s)), t, (Fulfilled v). split; [|done].
    simpl. by rewrite list_lookup_middle.
  - right. exists (length (queue s)), t, (Rejected v). split; [|done].
    simpl. by rewrite list_lookup_middle.
Qed.

Lemma add_reaction_trigger e rx i s : trigger i s → trigger i (add_reaction e rx s).
Proof.
  intros Ht. unfold add_reaction.
  destruct (promises s !! e) as [[[|v|v] rxs ext]|] eqn:He; [| | |done].
  - destruct Ht as [(e0 & rxs0 & ext0 & t & H1 & H2 & H3)|[k Ht]]; [|by right; exists k].
    left. destruct (decide (e = e0)) as [->|Hne].
    + rewrite He in H2. injection H2 as <- <-.
      exists e0, (rxs ++ [rx]), ext, t. split_and!; [done| |].
      * simpl. apply list_lookup_insert_eq. by eapply lookup_lt_Some.
      * apply elem_of_app. by left.
    + exists e0, rxs0, ext0, t. split_and!; [done| |done]. simpl.
      by rewrite list_lookup_insert_ne.
  - destruct Ht as [Ht|[k Ht]]; [by left|right]. exists k. by apply trig_q_app.
  - destruct Ht as [Ht|[k Ht]]; [by left|right]. exists k. by apply trig_q_app.
Qed.

(** The loop has registered the reactions of the first [i] elements. *)
Definition counting (i : nat) (s : state) : Prop :=
  all_core s ∧ alls s !! a = Some (AllRec (replicate i None) (S i)) ∧
  ∀ i', i' < i → trigger i' s.

Lemma all_loop_run rest : ∀ i s,
  (∀ k e, rest !! k = Some e → es !! (i + k) = Some e) →
  Forall (fun e => e < length (promises s)) rest →
  counting i s →
  ∃ s', all_loop a pa i (map VPromise rest) s = (Ok tt, s') ∧
        counting (i + length rest) s'.
Proof.
  induction rest as [|e rest IH]; intros i s Hes Hlt Hc.
  { exists s. simpl. by rewrite Nat.add_0_r. }
  destruct Hc as (Hcore & Ha & Htr).
  apply Forall_cons in Hlt as [He Hlt].
  assert (Hei : es !! i = Some e).
  { specialize (Hes 0 e eq_refl). by rewrite Nat.add_0_r in Hes. }
  assert (Hi : i < length es) by (by eapply lookup_lt_Some).
  assert (Hal : a < length (alls s)) by (by eapply lookup_lt_Some).
  set (s1 := set_alls (<[a := AllRec (replicate (S i) None) (S (S i))]> (alls s)) s).
  set (s1' := set_promises (promises s ++ [Promise Pending [] false]) s1).
  set (s2 := add_reaction e (rxA i (length (promises s))) s1').
  assert (Hstep : all_loop a pa i (map VPromise (e :: rest)) s
                  = all_loop a pa (S i) (map VPromise rest) s2).
  { simpl. rewrite bind_run. unfold all_add_element, modify. rewrite Ha.
    rewrite <- replicate_S_end. rewrite bind_run. simpl.
    rewrite bind_run. unfold call_method. rewrite bind_run. simpl. done. }
  assert (Hc1 : all_core s1).
  { apply (all_core_alls_only s); [|done]. unfold alls_only; simpl.
    by rewrite length_insert. }
  assert (Hfs : fstep av_count s1 s1') by exact (fs_newp av_count s1 false).
  assert (Hc2 : counting (S i) s2).
  { split_and!.
    - apply add_item_core; [|done]. by eapply all_core_fstep.
    - unfold s2, add_reaction. simpl.
      destruct (_ !! e) as [[[| |] ? ?]|]; simpl; by apply list_lookup_insert_eq.
    - intros i' Hi'. destruct (decide (i' = i)) as [->|Hne].
      + apply add_item_trigger; [done|]. simpl. rewrite length_app. lia.
      + apply add_reaction_trigger. eapply trigger_fstep; [exact Hfs|].
        apply (trigger_same _ s); [done..|]. apply Htr. lia. }
  destruct (IH (S i) s2) as (s' & Hrun & Hc'); [| |done|].
  - intros k e' Hk. replace (S i + k) with (i + S k) by lia. by apply Hes.
  - eapply Forall_impl; [exact Hlt|]. intros e' He'. simpl.
    unfold s2. rewrite add_reaction_length. simpl in *. rewrite length_app. simpl. lia.
  - exists s'. rewrite Hstep. split; [done|].
    by replace (i + length (e :: rest)) with (S i + length rest) by (simpl; lia).
Qed.

(** [Promise.all] on a non-empty list of promises: the count-down is set up. *)
Lemma promise_all_run av s :
  a = length (alls s) → pa = length (promises s) → es ≠ [] →
  Forall (fun e => e < length (promises s)) es →
  pclean av (bounds_of s) (promises s) [] → qclean av (bounds_of s) (queue s) →
  ∃ s', promise_all (map VPromise es) s = (Ok (VPromise pa), s') ∧ all_inv s'.
Proof.
  intros Ha0 Hpa0 Hne Hlt Hp Hq.
  set (s0 := set_alls (alls s ++ [AllRec [] 1])
               (set_promises (promises s ++ [Promise Pending [] false]) s)).
  assert (Hb : bounds_le (bounds_of s) (bounds_of s0)).
  { unfold bounds_le, bounds_of; simpl. rewrite !length_app; simpl. lia. }
  assert (Hc0 : counting 0 s0).
  { split_and!.
    - split; [split_and!|]; simpl.
      + intros q pr Hl. apply lookup_app_Some in Hl as [Hl|[_ Hl]].
        * eapply Forall_impl; [eapply Hp; [exact Hl|apply not_elem_of_nil]|].
          intros rx Hrx. left. revert Hrx.
          apply clean_rx_fresh; simpl; auto; try tauto. intros ? ->. right. lia.
        * apply list_lookup_singleton_Some in Hl as [_ <-]. constructor.
      + eapply Forall_impl; [exact Hq|]. intros j Hj. left. revert Hj.
        apply clean_job_fresh; simpl; auto; try tauto. intros ? ->. right. lia.
      + rewrite length_app; simpl; lia.
      + rewrite length_app; simpl; lia.
    - simpl. rewrite Ha0. by rewrite list_lookup_middle.
    - intros i' Hi'. lia. }
  destruct (all_loop_run es 0 s0) as (s1 & Hrun & Hcore & Ha1 & Htr); [done| |done|].
  { eapply Forall_impl; [exact Hlt|]. intros e He. simpl in *. rewrite length_app. lia. }
  simpl in Ha1, Htr.
  assert (Hal : a < length (alls s1)) by (by eapply lookup_lt_Some).
  assert (Hn : length es ≠ 0) by (by destruct es).
  set (s2 := set_alls (<[a := AllRec (replicate (length es) None) (length es)]> (alls s1)) s1).
  assert (Hrun2 : promise_all (map VPromise es) s = (Ok (VPromise pa), s2)).
  { unfold promise_all. rewrite bind_run. simpl. rewrite bind_run. simpl.
    rewrite <- Ha0, <- Hpa0. fold s0. rewrite bind_run. unfold try_catch.
    rewrite bind_run, Hrun. unfold all_count_down. rewrite bind_run. simpl.
    rewrite Ha1. rewrite bind_run. unfold modify. simpl.
    by rewrite bool_decide_eq_false_2 by done. }
  exists s2. split; [done|]. split.
  - apply (all_core_alls_only s1); [|done]. unfold alls_only; simpl.
    by rewrite length_insert.
  - exists (replicate (length es) None). split_and!.
    + simpl. rewrite count_none_replicate. by apply list_lookup_insert_eq.
    + by rewrite length_replicate.
    + right. rewrite count_none_replicate. split; [lia|].
      intros i Hi. apply lookup_replicate in Hi as [_ Hi].
      apply (trigger_same _ s1); [done..|]. by apply Htr.
Qed.

End AllOf.

(** ** The claims about the resolver wrapper *)

Lemma field_of_props r k s props :
  heap s !! r = Some (OObj props) → field_of r k s = default VUndef (assoc k props).
Proof. intros H. unfold field_of. simpl. by rewrite H. Qed.

Lemma process_result_promise r c d s :
  process_result r (VObj c) (VPromise d) s = (Ok (VPromise d), attach r c d s).
Proof.
  unfold process_result. rewrite bool_decide_eq_false_2 by done. simpl.
  rewrite bind_run. simpl. apply attach_run.
Qed.

Lemma attach_queue r c d s : ∃ js, queue (attach r c d s) = queue s ++ js.
Proof.
  unfold attach.
  assert (H : ∀ p rx s0, ∃ js, queue (add_reaction p rx s0) = queue s0 ++ js).
  { intros p rx s0. unfold add_reaction.
    destruct (promises s0 !! p) as [[[| |] ? ?]|]; simpl; eauto.
    all: exists []; by rewrite app_nil_r. }
  destruct (H (length (promises s)) (rxR r c (S (length (promises s))))
              (set_promises
                 (promises (add_reaction d (rxF r c (length (promises s)))
                    (set_promises (promises s ++ [Promise Pending [] false]) s))
                  ++ [Promise Pending [] false])
                 (add_reaction d (rxF r c (length (promises s)))
                    (set_promises (promises s ++ [Promise Pending [] false]) s))))
    as [js1 H1].
  destruct (H d (rxF r c (length (promises s)))
              (set_promises (promises s ++ [Promise Pending [] false]) s)) as [js2 H2].
  exists (js2 ++ js1). rewrite H1. simpl. rewrite H2. simpl. by rewrite app_assoc.
Qed.

(** A wrapped resolver that returns a promise [d] of the run time, invoked
    with a RequestContext. *)
Lemma single_promise_run f fi p a ctx info s c l t0 calls d s2 :
  wf_state s →
  request_context s ctx c l t0 calls →
  call_resolver f p a ctx info (called_state s l t0 calls fi ctx info)
    = (Ok (VPromise d), s2) →
  d < length (promises s2) →
  let r := length (heap s) in
  ∃ s3,
    decoratedResolver (call_resolver f) fi p a ctx info s = (Ok (VPromise d), s3) ∧
    state_of_promise d s3 = state_of_promise d s2 ∧
    (∃ js, queue s3 = queue s2 ++ js) ∧
    field_of r "endOffset" s3 = VUndef ∧
    ∀ evs, let s4 := run_events evs s3 in
      (field_of r "endOffset" s4 ≠ VUndef →
       settled (state_of_promise d s4) = true) ∧
      (settled (state_of_promise d s4) = true →
       ∃ n, ∀ evs', let s5 := run_events evs' (run_jobs n s4) in
         (∃ t, field_of r "endOffset" s5 = VHr t) ∧
         state_of_promise d s5 = state_of_promise d s4) ∧
      (∀ e, state_of_promise d s4 = Rejected e →
       ∃ n, ∀ evs', let s5 := run_events evs' (run_jobs n s4) in
         field_of r "error" s5 = VBool true ∧
         (∃ t, field_of r "endOffset" s5 = VHr t) ∧
         state_of_promise d s5 = Rejected e).
Proof.
  intros Hwf Hctx Hfn Hd r.
  set (props0 := new_props s t0 fi ctx info).
  assert (Hq1 := quiet_at_call s ctx c l t0 calls fi info d Hwf Hctx).
  apply (quiet_after_call _ _ _ _ _ _ f p a ctx info) in Hq1.
  rewrite Hfn in Hq1. simpl in Hq1. fold r props0 in Hq1.
  exists (attach r c d s2).
  assert (Hrun : decoratedResolver (call_resolver f) fi p a ctx info s
                 = (Ok (VPromise d), attach r c d s2)).
  { rewrite (decoratedResolver_run _ _ _ _ _ _ _ _ _ _ _ Hctx), Hfn.
    unfold try_catch. by rewrite process_result_promise. }
  assert (Hph : ∃ ph, on_chain ph ∧ ¬ at_rest ph ∧ inv r c t0 props0 d ph (attach r c d s2) ∧
                      state_of_promise d (attach r c d s2) = state_of_promise d s2).
  { destruct (attach_inv r c t0 props0 d s2 Hq1 Hd) as [[Hp Hi]|[Hs Hi]].
    - eexists. split_and!; [| |exact Hi|]; [done|by intros []|].
      apply (chain_state r c t0 props0 d) in Hi; [|done]. by rewrite Hi.
    - eexists. split_and!; [| |exact Hi|]; [done|by intros []|].
      apply (chain_state r c t0 props0 d) in Hi as [Hi _]; [|done]. by rewrite Hi. }
  destruct Hph as (ph0 & Hc0 & Hnr0 & Hi0 & Hst0).
  assert (Hno : assoc "endOffset" props0 = None) by done.
  split_and!; [done|done|apply attach_queue| |].
  { rewrite (field_of_props _ _ _ (phase_props props0 ph0)) by apply Hi0.
    destruct ph0; simpl in *; try done. }
  intros evs s4.
  destruct (inv_run_events r c t0 props0 d evs ph0 _ Hi0) as (ph4 & Hr4 & Hi4).
  fold s4 in Hi4.
  assert (Hc4 : on_chain ph4) by (by eapply reach_on_chain).
  assert (Hfinal : ∀ o n t, inv r c t0 props0 d (Done o t) (run_jobs n s4) →
    ∀ evs', let s5 := run_events evs' (run_jobs n s4) in
      field_of r "endOffset" s5 = VHr t ∧ state_of_promise d s5 = o ∧
      (∀ e, o = Rejected e → field_of r "error" s5 = VBool true)).
  { intros o n t Hi evs' s5.
    apply (rest_events r c t0 props0 d evs') in Hi; [|done]. fold s5 in Hi.
    assert (Hst := chain_state r c t0 props0 d _ _ Hi I). destruct Hst as [Hst _].
    split_and!; [|done|].
    - rewrite (field_of_props _ _ _ (final_props props0 o t)) by apply Hi.
      by destruct o.
    - intros e ->.
      by rewrite (field_of_props _ _ _ (final_props props0 (Rejected e) t)) by apply Hi. }
  split_and!.
  - intros Hset.
    assert (Hst := chain_state r c t0 props0 d _ _ Hi4 Hc4).
    rewrite (field_of_props _ _ _ (phase_props props0 ph4)) in Hset by apply Hi4.
    destruct ph4 as [| | | |o t]; simpl in *; try done. by destruct Hst as [-> ?].
  - intros Hs.
    destruct (chain_completes r c t0 props0 d ph4 s4 Hi4 Hc4 Hs) as (n & t & Hi).
    exists n. intros evs' s5.
    destruct (Hfinal _ n t Hi evs') as (H1 & H2 & _). eauto.
  - intros e He.
    assert (Hs : settled (state_of_promise d s4) = true) by (by rewrite He).
    destruct (chain_completes r c t0 props0 d ph4 s4 Hi4 Hc4 Hs) as (n & t & Hi).
    exists n. intros evs' s5. rewrite He in Hi.
    destruct (Hfinal _ n t Hi evs') as (H1 & H2 & H3). eauto.
Qed.
(** ** Completion is recorded once *)

Lemma run_jobs_events m : ∀ s, run_jobs m s = run_events (replicate m EvRunJob) s.
Proof.
  induction m as [|m IH]; intros s; [done|]. by rewrite run_jobs_succ, IH.
Qed.

Lemma run_events_app evs evs' s :
  run_events (evs ++ evs') s = run_events evs' (run_events evs s).
Proof. apply foldl_app. Qed.

Lemma run_jobs_add n m s : run_jobs n (run_jobs m s) = run_jobs (n + m) s.
Proof. unfold run_jobs. by rewrite Nat.iter_add. Qed.

Lemma native_list s xs :
  (∀ x, x ∈ xs → native s x) →
  ∃ es, xs = map VPromise es ∧ Forall (fun e => e < length (promises s)) es.
Proof.
  induction xs as [|x xs IH]; intros H; [by exists []|].
  destruct (H x) as (e & -> & He); [by left|].
  destruct IH as (es & -> & Hes); [intros y Hy; apply H; by right|].
  exists (e :: es). split; [done|]. by constructor.
Qed.

Section Once.

Variables r c : loc.
Variable t0 : Z.
Variable props0 : list (string * value).
Hypothesis Hnew : writes "endOffset" props0 = 0.

(** From [s3] on: [endOffset] is assigned at most once, the record stays as
    it is once that has happened, and it happens within finitely many jobs of
    any state in which [live] holds. *)
Definition once (s3 : state) (live : state → Prop) : Prop :=
  ∀ evs, let s4 := run_events evs s3 in
    writes "endOffset" (record_props r s4) ≤ 1 ∧
    (writes "endOffset" (record_props r s4) = 1 →
     ∀ evs', record_props r (run_events evs' s4) = record_props r s4) ∧
    (live s4 → ∃ n, writes "endOffset" (record_props r (run_jobs n s4)) = 1).

Lemma quiet_once d props s3 live :
  inv r c t0 props0 d (Quiet props) s3 → writes "endOffset" props = 1 →
  once s3 live.
Proof.
  intros Hinv Hw evs s4.
  assert (Hi4 : inv r c t0 props0 d (Quiet props) s4) by (by apply rest_events).
  assert (Hrec := inv_record _ _ _ _ _ _ _ Hi4). simpl in Hrec.
  split_and!.
  - rewrite Hrec. lia.
  - intros _ evs'. rewrite Hrec.
    assert (Hi5 : inv r c t0 props0 d (Quiet props) (run_events evs' s4))
      by (by apply rest_events).
    by rewrite (inv_record _ _ _ _ _ _ _ Hi5).
  - intros _. exists 0. simpl. by rewrite Hrec.
Qed.

Lemma chain_once d ph s3 :
  on_chain ph → inv r c t0 props0 d ph s3 →
  once s3 (fun s4 => settled (state_of_promise d s4) = true).
Proof.
  intros Hc Hinv evs s4.
  destruct (inv_run_events r c t0 props0 d evs ph _ Hinv) as (ph4 & Hr4 & Hi4).
  fold s4 in Hi4.
  assert (Hc4 : on_chain ph4) by (by eapply reach_on_chain).
  assert (Hrec := inv_record _ _ _ _ _ _ _ Hi4).
  assert (Hw := chain_writes props0 ph4 Hnew Hc4).
  split_and!.
  - rewrite Hrec, Hw. destruct ph4; lia.
  - rewrite Hrec, Hw. intros H1 evs'.
    assert (Hrest : at_rest ph4) by (destruct ph4; simpl; done || lia).
    assert (Hi5 : inv r c t0 props0 d ph4 (run_events evs' s4)) by (by apply rest_events).
    by rewrite (inv_record _ _ _ _ _ _ _ Hi5).
  - intros Hs.
    destruct (chain_completes r c t0 props0 d ph4 s4 Hi4 Hc4 Hs) as (n & t & Hi).
    exists n. rewrite (inv_record _ _ _ _ _ _ _ Hi).
    by rewrite (chain_writes props0 (Done (state_of_promise d s4) t) Hnew I).
Qed.

(** The chain hangs on the promise of a [Promise.all]. *)
Lemma all_once a d es ph s3 :
  on_chain ph → inv r c t0 props0 d ph s3 → all_inv a d es s3 →
  once s3 (all_settled es).
Proof.
  intros Hc Hinv Hall evs s4.
  destruct (chain_once d ph s3 Hc Hinv evs) as (H1 & H2 & _). fold s4 in H1, H2.
  split_and!; [done..|]. intros Hs.
  destruct (all_inv_run_events a d es evs s3 Hall) as [Hall4 _]. fold s4 in Hall4.
  destruct (all_completes a d es s4 Hall4 Hs) as [m Hm].
  rewrite run_jobs_events in Hm.
  destruct (chain_once d ph s3 Hc Hinv (evs ++ replicate m EvRunJob)) as (_ & _ & H3).
  rewrite run_events_app in H3. fold s4 in H3.
  destruct (H3 Hm) as [n Hn]. exists (n + m).
  by rewrite <- run_jobs_add, (run_jobs_events m).
Qed.

(** [finishRun(); return result] when no closure of the invocation is around. *)
Lemma quiet_default d props (result : value) s :
  inv r c t0 props0 d (Quiet props) s → writes "endOffset" props = 0 →
  ∃ s' props',
    (do! finishRun r (VObj c) in ret result) s = (Ok result, s') ∧
    inv r c t0 props0 d (Quiet props') s' ∧ writes "endOffset" props' = 1.
Proof.
  intros Hinv Hw. destruct (quiet_finishRun _ _ _ _ _ _ _ Hinv) as [Hrun Hinv'].
  eexists _, _. split_and!; [by rewrite bind_run, Hrun|exact Hinv'|].
  by rewrite writes_cons, Hw.
Qed.

Lemma quiet_flag_default d k (result : value) s :
  k ≠ "startHrTime" → k ≠ "endOffset" →
  inv r c t0 props0 d (Quiet props0) s →
  ∃ s' props',
    (do! set_prop r k (VBool true) in
     do! finishRun r (VObj c) in ret result) s = (Ok result, s') ∧
    inv r c t0 props0 d (Quiet props') s' ∧ writes "endOffset" props' = 1.
Proof.
  intros Hk Hk' Hinv.
  destruct (quiet_set _ _ _ _ _ _ k (VBool true) _ Hk Hinv) as [Hrun Hinv1].
  destruct (quiet_default d _ result _ Hinv1) as (s' & props' & Hrun' & Hinv' & Hw).
  { rewrite writes_cons, Hnew. by rewrite bool_decide_eq_false_2. }
  exists s', props'. split_and!; [|done..]. by rewrite bind_run, Hrun.
Qed.

Lemma attach_fstep av d s :
  avoid_alloc av s → r < length (heap s) → ¬ av_rec av r →
  fstep av s (attach r c d s).
Proof.
  intros Hav Hr Hnr.
  replace (attach r c d s) with
    ((let! p2 := call_method (VPromise d) "then" [AFun (CFinishRun r (VObj c))] in
      do! call_method p2 "catch" [AFun (COnRejected r (VObj c))] in
      ret VUndef) s).2 by (by rewrite attach_run).
  apply fstep_bind.
  - apply call_method_fstep; [done|]. constructor; [|constructor]. simpl. done.
  - intros p2 s1 _ Hfs. apply fstep_bind; [|intros; apply fstep_ret].
    apply call_method_fstep; [by eapply avoid_alloc_mono|].
    constructor; [|constructor]. simpl. split; [|done].
    apply fstep_bounds in Hfs. unfold bounds_le, bounds_of in Hfs; simpl in Hfs. lia.
Qed.

(** The second half of [decoratedResolver], for every kind of result. *)
Lemma process_result_once (result : value) s2 :
  inv r c t0 props0 0 (Quiet props0) s2 →
  (∀ x, x ∈ deferred (heap s2) result → native s2 x) →
  ∃ s3,
    try_catch (process_result r (VObj c) result) (fun _ => ret result) s2
      = (Ok result, s3) ∧
    once s3 (fun s4 => ∀ e, VPromise e ∈ deferred (heap s2) result →
                            settled (state_of_promise e s4) = true).
Proof.
  intros Hinv Hnat. unfold process_result, deferred in *. unfold try_catch.
  case_bool_decide as Hnull.
  { destruct (quiet_flag_default 0 "resultNull" result s2) as (s3 & props' & -> & Hi & Hw);
      [done..|].
    exists s3. split; [done|]. by eapply quiet_once. }
  destruct (typeof_undefined result) eqn:Hundef.
  { destruct (quiet_flag_default 0 "resultUndefined" result s2)
      as (s3 & props' & -> & Hi & Hw); [done..|].
    exists s3. split; [done|]. by eapply quiet_once. }
  assert (Hget : get_prop result "then" s2 = (Ok (get_field (heap s2) result "then"), s2)).
  { by destruct result. }
  rewrite bind_run, Hget.
  destruct (typeof_function (get_field (heap s2) result "then")) eqn:Hthen.
  { (* a single promise *)
    destruct (Hnat result) as (d & -> & Hd); [by left|].
    rewrite (attach_run r c d (VPromise d) s2).
    exists (attach r c d s2). split; [done|].
    assert (Hq : inv r c t0 props0 d (Quiet props0) s2) by exact Hinv.
    assert (Hph : ∃ ph, on_chain ph ∧ inv r c t0 props0 d ph (attach r c d s2)).
    { destruct (attach_inv r c t0 props0 d s2 Hq Hd) as [[_ Hi]|[_ Hi]];
        eexists; (split; [|exact Hi]); done. }
    destruct Hph as (ph & Hc & Hi).
    intros evs. destruct (chain_once d ph _ Hc Hi evs) as (H1 & H2 & H3).
    split_and!; [done..|]. intros Hs. apply H3, Hs. by left. }
  rewrite bind_run. unfold gets at 1.
  destruct (is_array (heap s2) result) eqn:Harr.
  2: { destruct (quiet_default 0 props0 result s2 Hinv Hnew) as (s3 & props' & -> & Hi & Hw).
       exists s3. split; [done|]. by eapply quiet_once. }
  rewrite bind_run. unfold gets at 1.
  case_bool_decide as Hlen.
  2: { destruct (quiet_default 0 props0 result s2 Hinv Hnew) as (s3 & props' & -> & Hi & Hw).
       exists s3. split; [done|]. by eapply quiet_once. }
  (* an array with promises *)
  destruct (native_list s2 _ Hnat) as (es & Hes & Hlt).
  rewrite Hes in *.
  assert (Hne : es ≠ []) by (intros ->; simpl in Hlen; lia).
  set (a := length (alls s2)). set (pa := length (promises s2)).
  assert (Hsh := Hinv). destruct Hsh as (Hrec & _ & Hpc & Hqc).
  destruct (promise_all_run a pa es (av_idle r) s2 eq_refl eq_refl Hne Hlt Hpc Hqc)
    as (s' & Hrun & Hall).
  rewrite bind_run, Hrun.
  assert (Hfs : fstep (av_idle r) s2 s').
  { replace s' with (promise_all (map VPromise es) s2).2 by (by rewrite Hrun).
    apply promise_all_fstep. by apply (inv_avoid_alloc r c t0 props0 0 (Quiet props0)). }
  assert (Hq : inv r c t0 props0 pa (Quiet props0) s').
  { destruct (inv_fstep r c t0 props0 pa (av_idle r) s2 s' Hfs (Quiet props0))
      as (ph' & [->|Hn] & Hi); [done|exact Hinv|done|].
    by destruct Hn as (? & ? & ? & ? & ? & _). }
  assert (Hpa : pa < length (promises s')) by apply Hall.
  rewrite (attach_run r c pa result s').
  exists (attach r c pa s'). split; [done|].
  assert (Hph : ∃ ph, on_chain ph ∧ inv r c t0 props0 pa ph (attach r c pa s')).
  { destruct (attach_inv r c t0 props0 pa s' Hq Hpa) as [[_ Hi]|[_ Hi]];
      eexists; (split; [|exact Hi]); done. }
  destruct Hph as (ph & Hc & Hi).
  assert (Hall' : all_inv a pa es (attach r c pa s')).
  { eapply all_inv_fstep; [|exact Hall]. apply attach_fstep.
    - by apply all_core_avoid with (pa := pa) (es := es), Hall.
    - destruct Hq as (Hr' & _). by eapply lookup_lt_Some.
    - simpl. tauto. }
  intros evs. destruct (all_once a pa es ph _ Hc Hi Hall' evs) as (H1 & H2 & H3).
  split_and!; [done..|]. intros Hs. apply H3.
  apply Forall_forall. intros e He. apply Hs. by apply list_elem_of_fmap_2.
Qed.

End Once.


(** ** The wrapper around the call of the wrapped function *)

Lemma rethrow_thrown r dc e s :
  ∃ e' s', (do! set_prop r "error" (VBool true) in
            do! finishRun r dc in @throw value e) s = (Thrown e', s').
Proof.
  rewrite bind_run. unfold set_prop at 1, modify.
  match goal with |- context [bind (finishRun ?r0 ?dc0) ?k ?s0] =>
    rewrite (bind_run (finishRun r0 dc0) k s0);
    destruct (finishRun r0 dc0 s0) as [[[]|e'] s3]; eauto
  end.
Qed.

(** The wrapped function is called once, between the two, unless the
    prologue itself throws. *)
Lemma decoratedResolver_once fn fi p a ctx info s :
  decoratedResolver fn fi p a ctx info s =
  match prologue fi p a ctx info s with
  | (Ok None, s1) => fn p a ctx info s1
  | (Ok (Some (r, dc)), s1) =>
      let '(out, s2) := fn p a ctx info s1 in epilogue r dc out s2
  | (Thrown e, s1) => (Thrown e, s1)
  end.
Proof.
  unfold decoratedResolver, prologue. rewrite !bind_run.
  destruct (js_and ctx _ s) as [[dc|e] s0]; [|done].
  destruct (negb (truthy dc)); [done|].
  rewrite !bind_run.
  destruct (new_report dc fi ctx info s0) as [[r|e] s1]; [|done].
  simpl. rewrite bind_run. unfold try_catch at 1.
  destruct (fn p a ctx info s1) as [[result|e] s2]; [done|].
  destruct (rethrow_thrown r dc e s2) as (e' & s' & H).
  simpl. by rewrite H.
Qed.

(** C6. Without a RequestContext the decorated resolver is the wrapped
    function: same result or exception, same state, no record. *)
Theorem decoratedResolver_no_context fn fi p a ctx info s :
  no_context (heap s) ctx →
  decoratedResolver fn fi p a ctx info s = fn p a ctx info s.
Proof.
  intros Hno. unfold decoratedResolver, js_and. rewrite bind_run.
  destruct (truthy ctx) eqn:Ht.
  - destruct Hno as [?|Hno]; [congruence|].
    rewrite (truthy_get_prop _ _ _ Ht). simpl. by rewrite Hno.
  - simpl. by rewrite Ht.
Qed.

(** The second [try] block of [decoratedResolver] never throws. *)
Lemma epilogue_ok r dc result s : ∃ s', epilogue r dc (Ok result) s = (Ok result, s').
Proof.
  simpl. unfold try_catch.
  destruct (process_result r dc result s) as [[x|e] s'] eqn:E; [|by eauto].
  exists s'. f_equal. f_equal.
  (* [process_result] returns the result it was given *)
  revert E. unfold process_result.
  assert (Hdef : ∀ s0, (do! finishRun r dc in ret result) s0 = (Ok x, s') → x = result).
  { intros s0. rewrite bind_run. destruct (finishRun r dc s0) as [[[]|?] ?]; [|done].
    by intros [= <- <-]. }
  assert (Hchain : ∀ pa s0,
    (let! p2 := call_method pa "then" [AFun (CFinishRun r dc)] in
     do! call_method p2 "catch" [AFun (COnRejected r dc)] in ret result) s0 = (Ok x, s') →
    x = result).
  { intros pa s0. rewrite bind_run.
    destruct (call_method pa "then" _ s0) as [[p2|?] s1]; [|done].
    rewrite bind_run. destruct (call_method p2 "catch" _ s1) as [[?|?] ?]; [|done].
    by intros [= <- <-]. }
  case_bool_decide.
  { rewrite bind_run. unfold set_prop at 1, modify. apply Hdef. }
  destruct (typeof_undefined result).
  { rewrite bind_run. unfold set_prop at 1, modify. apply Hdef. }
  rewrite bind_run. destruct (get_prop result "then" s) as [[thn|?] s0]; [|done].
  destruct (typeof_function thn); [apply Hchain|].
  rewrite bind_run. simpl. destruct (is_array (heap s0) result); [|apply Hdef].
  rewrite bind_run. simpl. case_bool_decide; [|apply Hdef].
  rewrite bind_run. destruct (promise_all _ s0) as [[pa|?] s1]; [|done].
  apply Hchain.
Qed.

(** C5, as the code has it. A fault while the result is processed (the second
    [try] block) is caught: once the wrapped function has returned [result],
    the wrapper returns [result].  A fault while the record is created and
    pushed (before the call, outside any [try]) reaches the caller, and the
    wrapped function is not called. *)
Theorem decoratedResolver_faults fn fi p a ctx info s :
  (∀ r dc s1 result s2,
     prologue fi p a ctx info s = (Ok (Some (r, dc)), s1) →
     fn p a ctx info s1 = (Ok result, s2) →
     ∃ s3, decoratedResolver fn fi p a ctx info s = (Ok result, s3)) ∧
  (∀ e s1,
     prologue fi p a ctx info s = (Thrown e, s1) →
     decoratedResolver fn fi p a ctx info s = (Thrown e, s1)).
Proof.
  split.
  - intros r dc s1 result s2 Hpre Hfn.
    rewrite decoratedResolver_once, Hpre, Hfn. apply epilogue_ok.
  - intros e s1 Hpre. by rewrite decoratedResolver_once, Hpre.
Qed.

(** ** The claims about schema wrapping *)

Lemma prologue_no_context fi p a ctx info s :
  no_context (heap s) ctx → prologue fi p a ctx info s = (Ok None, s).
Proof.
  intros Hno. unfold prologue, js_and. rewrite bind_run.
  destruct (truthy ctx) eqn:Ht.
  - destruct Hno as [?|Hno]; [congruence|].
    rewrite (truthy_get_prop _ _ _ Ht). simpl. by rewrite Hno.
  - simpl. by rewrite Ht.
Qed.

Lemma prologue_request_context fi p a ctx info s c l t0 calls :
  request_context s ctx c l t0 calls →
  prologue fi p a ctx info s =
  (Ok (Some (length (heap s), VObj c)), called_state s l t0 calls fi ctx info).
Proof.
  intros Hctx. assert (Hctx' := Hctx). destruct Hctx' as (Ht & Hdc & _).
  unfold prologue, js_and. rewrite bind_run.
  rewrite Ht, (truthy_get_prop _ _ _ Ht), Hdc. simpl.
  by rewrite bind_run, (new_report_run _ _ _ _ _ _ _ _ Hctx).
Qed.

Lemma calls_once_decorated fn fi : calls_once (RDecorated fn fi) fn fi.
Proof.
  intros p a ctx info s. split.
  - simpl. apply decoratedResolver_once.
  - intros [Hno|(c & l & t0 & calls & Hctx)].
    + exists None, s. by apply prologue_no_context.
    + eexists (Some _), _. by apply (prologue_request_context _ _ _ _ _ _ _ _ _ _ Hctx).
Qed.

(** C7, as the code has it. [instrumentSchema] does nothing to a schema that
    carries the marker; so however often a schema is instrumented, each field
    has the one layer of decoration of the first time (on the fields of the
    root types under the function graphql-tools has made of it and the
    schema-level resolve function).  A call of the decorated resolver calls
    the function under it once when the context argument carries no
    RequestContext or a RequestContext, not at all when the creation of the
    record throws, and never twice. *)
Theorem instrumentSchema_idempotent sch n :
  _opticsInstrumented sch = false →
  Forall undecorated (fields sch) →
  (∀ sch', _opticsInstrumented sch' = true → instrumentSchema sch' = sch') ∧
  Nat.iter (S n) instrumentSchema sch = instrumentSchema sch ∧
  _opticsInstrumented (instrumentSchema sch) = true ∧
  Forall2 (fun f0 f1 => wrapped_once (root_field sch f0) f0 f1)
          (fields sch) (fields (Nat.iter (S n) instrumentSchema sch)).
Proof.
  intros Hm Hun.
  assert (Hmarked : ∀ sch', _opticsInstrumented sch' = true → instrumentSchema sch' = sch').
  { intros sch' H. unfold instrumentSchema. by rewrite H. }
  assert (Hset : _opticsInstrumented (instrumentSchema sch) = true).
  { unfold instrumentSchema. by rewrite Hm. }
  assert (Hiter : Nat.iter (S n) instrumentSchema sch = instrumentSchema sch).
  { induction n as [|n IH]; [done|]. rewrite Nat.iter_succ, IH. by apply Hmarked. }
  split_and!; [done..|].
  rewrite Hiter. unfold instrumentSchema. rewrite Hm. simpl.
  unfold root_field at 2. simpl. fold (root_field sch).
  induction Hun as [|f fs Hf Hfs IH]; simpl; constructor; [|done].
  assert (Hl : layers (decorateField (base_resolver f)
                         (VFieldInfo (typeName f) (fieldName f))) = 1).
  { simpl. unfold base_resolver. unfold undecorated in Hf.
    destruct (resolve f); [by rewrite Hf|done]. }
  unfold root_field. simpl. fold (root_field sch f).
  destruct (root_field sch f) eqn:Hroot; unfold wrapped_once; simpl;
    (split_and!; [done|done|done| |intros fn _; apply calls_once_decorated]).
  - intros rf [= <-]. exact Hl.
  - intros rf [= <-]. exact Hl.
Qed.

(** C8, at the input on which the code fails: a query executed without a
    context value.  The root hook reads [ctx.datadogContext] unguarded. *)
Theorem schemaLevelResolve_absent_context root args info s :
  schemaLevelResolve root args VUndef info s = (Thrown TypeError, s).
Proof. done. Qed.

(** With a context value that is not [null] or [undefined] the hook does
    what is claimed. *)
Lemma schemaLevelResolve_context root args ctx info s :
  ctx ≠ VUndef → ctx ≠ VNull →
  schemaLevelResolve root args ctx info s =
  (Ok root,
   if truthy (get_field (heap s) ctx "datadogContext")
   then set_reports (reports s ++
          [ReportRequestStart (get_field (heap s) ctx "datadogContext") info ctx]) s
   else s).
Proof.
  intros H1 H2. unfold schemaLevelResolve. rewrite bind_run.
  assert (get_prop ctx "datadogContext" s
          = (Ok (get_field (heap s) ctx "datadogContext"), s)) as -> by (by destruct ctx).
  rewrite bind_run. by destruct (truthy _).
Qed.

(** C9, at the input on which the code fails: the parent value [null], for
    which [typeof] answers ['object']. *)
Theorem defaultResolveFn_null_source args context info s :
  info ≠ VUndef → info ≠ VNull →
  defaultResolveFn VNull args context info s = (Thrown TypeError, s).
Proof.
  intros H1 H2. unfold defaultResolveFn. rewrite bind_run.
  assert (get_prop info "fieldName" s
          = (Ok (get_field (heap s) info "fieldName"), s)) as -> by (by destruct info).
  done.
Qed.

(** On every other parent value the default resolver does what is claimed. *)
Lemma defaultResolveFn_spec source args context info s :
  info ≠ VUndef → info ≠ VNull → source ≠ VNull →
  let key := to_key (get_field (heap s) info "fieldName") in
  let property := get_field (heap s) source key in
  defaultResolveFn source args context info s =
  if typeof_object source || typeof_function source then
    if typeof_function property
    then call_value property source [AVal args; AVal context] s
    else (Ok property, s)
  else (Ok VUndef, s).
Proof.
  intros H1 H2 H3 key property. unfold defaultResolveFn. rewrite bind_run.
  assert (get_prop info "fieldName" s
          = (Ok (get_field (heap s) info "fieldName"), s)) as -> by (by destruct info).
  fold key. destruct (_ || _) eqn:E; [|done].
  assert (Hg : get_prop source key s = (Ok property, s)) by (by destruct source).
  rewrite bind_run, Hg. destruct (typeof_function property) eqn:Ep; [|done].
  unfold call_method. by rewrite bind_run, Hg.
Qed.

(** ** The claims about the request lifecycle *)

Lemma assoc_cons_eq k v ps : assoc k ((k, v) :: ps) = Some v.
Proof. simpl. by rewrite bool_decide_eq_true_2. Qed.

Lemma preRequest_run req ps s :
  heap s !! req = Some (OObj ps) →
  preRequest (VObj req) s =
  (Ok tt,
   set_heap (<[req := OObj (("_datadogContext", VObj (S (length (heap s)))) :: ps)]>
               ((heap s ++ [OArr []]) ++ [OObj (context_props s (VObj req))])) s).
Proof.
  intros Hreq. assert (Hlt : req < length (heap s)) by (by eapply lookup_lt_Some).
  unfold preRequest. rewrite bind_run. simpl. rewrite bind_run. simpl.
  rewrite bind_run. simpl. rewrite bind_run. simpl.
  unfold set_prop, modify. simpl.
  rewrite !lookup_app_l by (rewrite ?length_app; simpl; lia).
  rewrite Hreq. rewrite length_app. simpl.
  by replace (length (heap s) + 1) with (S (length (heap s))) by lia.
Qed.

(** A call that hands over no function changes nothing but the state of the
    application. *)
Lemma run_behaviour_plain args b : ∀ s,
  Forall (fun x => arg_handler x = None) args →
  ∃ a, (run_behaviour args b s).2 = set_app a s.
Proof.
  induction b as [r a|i x k IH]; intros s Hargs; simpl; [by eexists|].
  assert (Hh : arg_handler (nth_arg i args) = None).
  { unfold nth_arg. destruct (args !! i) as [y|] eqn:E; simpl; [|done].
    by eapply (Forall_lookup_1 _ _ _ _ Hargs). }
  unfold call_back. rewrite Hh. simpl. by apply IH.
Qed.

Lemma call_method_message o k m s v s1 :
  k ≠ "push" → k ≠ "then" → k ≠ "catch" →
  call_method o k [AVal (VStr m)] s = (Ok v, s1) → ∃ a, s1 = set_app a s.
Proof.
  intros Hk1 Hk2 Hk3. unfold call_method. rewrite bind_run.
  destruct (get_prop o k s) as [[f|?] s0] eqn:Eg; [|done].
  assert (s0 = s) as -> by (by rewrite <- (get_prop_state o k s), Eg).
  assert (Hf : f = get_field (heap s) o k).
  { destruct o; simpl in Eg; try done; by injection Eg as <-. }
  destruct f as [| | | | | | | | |k0|b]; simpl; try done.
  - intros E.
    destruct (run_behaviour_plain [AVal (VStr m)] (app k0 o [AVal (VStr m)] (app_state s)) s)
      as [a Ha]; [by repeat constructor|].
    exists a. unfold call_app in E. by rewrite E in Ha.
  - destruct b, o as [| | | | | | |l|q| |]; simpl; try done.
    + destruct (heap s !! l) as [[ps|es]|] eqn:El; simpl; try done.
      simpl in Hf. rewrite El in Hf. by repeat case_bool_decide.
    + simpl in Hf. by repeat case_bool_decide.
    + simpl in Hf. by repeat case_bool_decide.
Qed.

(** C10, as the code has it. [postRequest] on a request with no context
    attached changes nothing; it is [newContext] that, having called the
    agent's [debugFn] with its message, runs [preRequest] again and leaves a
    usable context on the request. *)
Theorem postRequest_without_context req ps agent s v s1 :
  heap s !! req = Some (OObj ps) →
  truthy (default VUndef (assoc "_datadogContext" ps)) = false →
  call_method agent "debugFn"
    [AVal (VStr "Optics context not found. Make sure Optics middleware is installed.")] s
    = (Ok v, s1) →
  let context := S (length (heap s)) in
  postRequest (VObj req) s = (Ok tt, s) ∧
  ∃ s',
    newContext (VObj req) agent s = (Ok (VObj context), s') ∧
    app_state s' = app_state s1 ∧
    field_of req "_datadogContext" s' = VObj context ∧
    field_of context "startHrTime" s' = VHr (hr_now s) ∧
    field_of context "resolverCalls" s' = VObj (length (heap s)) ∧
    field_of context "agent" s' = agent ∧
    heap s' !! length (heap s) = Some (OArr []) ∧
    immediates s' = immediates s ∧ reports s' = reports s.
Proof.
  intros Hreq Hno Hdbg context.
  assert (Hlt : req < length (heap s)) by (by eapply lookup_lt_Some).
  split.
  { unfold postRequest. rewrite bind_run. simpl. rewrite Hreq. simpl. by rewrite Hno. }
  edestruct (call_method_message agent "debugFn") as [a' Ha']; [done|done|done|exact Hdbg|]. subst s1.
  unfold newContext. rewrite bind_run. simpl. rewrite Hreq. simpl. rewrite Hno. simpl.
  rewrite bind_run. rewrite bind_run. rewrite Hdbg.
  rewrite bind_run.
  rewrite (preRequest_run req ps (set_app a' s)) by done.
  simpl.
  rewrite list_lookup_insert_eq by (rewrite !length_app; simpl; lia).
  rewrite assoc_cons_eq. simpl.
  rewrite bind_run. unfold set_prop, modify. simpl.
  rewrite list_lookup_insert_ne by lia.
  rewrite (list_lookup_middle _ [] _ (S (length (heap s)))) by (rewrite length_app; simpl; lia).
  eexists. split; [done|].
  fold context. unfold field_of. simpl.
  rewrite list_lookup_insert_ne by (unfold context; lia).
  rewrite list_lookup_insert_eq by (rewrite !length_app; simpl; lia).
  rewrite list_lookup_insert_eq
    by (rewrite length_insert, !length_app; simpl; unfold context; lia).
  simpl. split_and!; try done.
  rewrite !list_lookup_insert_ne by (unfold context; lia).
  rewrite lookup_app_l by (rewrite length_app; simpl; lia).
  by apply list_lookup_middle.
Qed.
(** *** The wrapped function returns a deferred value *)

(** C1, as the code has it. A wrapped resolver that returns an object with a
    callable [then], invoked with a RequestContext: the wrapper returns that
    object.  When the object is a promise [d] of the run time, the wrapper
    has run no job and left the state of [d] as it was; [endOffset] is unset
    when the wrapper returns; in every later run [endOffset] is set only if
    [d] has settled, and once [d] has settled it gets set after finitely many
    jobs and stays set; if [d] is rejected, [error] is [true], [endOffset] is
    set and [d] is still rejected with the original reason. *)
Theorem decoratedResolver_single_promise f fi p a ctx info s c l t0 calls result s2 :
  wf_state s →
  request_context s ctx c l t0 calls →
  call_resolver f p a ctx info (called_state s l t0 calls fi ctx info)
    = (Ok result, s2) →
  typeof_function (get_field (heap s2) result "then") = true →
  let r := length (heap s) in
  ∃ s3,
    decoratedResolver (call_resolver f) fi p a ctx info s = (Ok result, s3) ∧
    ∀ d, result = VPromise d → d < length (promises s2) →
      state_of_promise d s3 = state_of_promise d s2 ∧
      (∃ js, queue s3 = queue s2 ++ js) ∧
      field_of r "endOffset" s3 = VUndef ∧
      ∀ evs, let s4 := run_events evs s3 in
        (field_of r "endOffset" s4 ≠ VUndef →
         settled (state_of_promise d s4) = true) ∧
        (settled (state_of_promise d s4) = true →
         ∃ n, ∀ evs', let s5 := run_events evs' (run_jobs n s4) in
           (∃ t, field_of r "endOffset" s5 = VHr t) ∧
           state_of_promise d s5 = state_of_promise d s4) ∧
        (∀ e, state_of_promise d s4 = Rejected e →
         ∃ n, ∀ evs', let s5 := run_events evs' (run_jobs n s4) in
           field_of r "error" s5 = VBool true ∧
           (∃ t, field_of r "endOffset" s5 = VHr t) ∧
           state_of_promise d s5 = Rejected e).
Proof.
  intros Hwf Hctx Hfn Hthen r.
  destruct (epilogue_ok r (VObj c) result s2) as [s3 Hs3].
  assert (Hrun : decoratedResolver (call_resolver f) fi p a ctx info s = (Ok result, s3)).
  { by rewrite (decoratedResolver_run _ _ _ _ _ _ _ _ _ _ _ Hctx), Hfn. }
  exists s3. split; [done|]. intros d -> Hd.
  destruct (single_promise_run f fi p a ctx info s c l t0 calls d s2 Hwf Hctx Hfn Hd)
    as (s3' & Hrun' & H).
  rewrite Hrun in Hrun'. injection Hrun' as <-. exact H.
Qed.

(** ** What no step ever undoes

    Whatever runs, the monotonic clock does not go back, an array keeps
    its elements and only gets new ones at its end, and an object keeps the
    writes it has received and only gets new writes of the four properties
    that the resolver wrapper assigns after a call; nothing is queued with
    [setImmediate] and nothing is signalled to the reporting module. *)

Definition outcome_key (k : string) : Prop :=
  k = "endOffset" ∨ k = "error" ∨ k = "resultNull" ∨ k = "resultUndefined".

Definition outcome_writes (ps : list (string * value)) : Prop :=
  Forall (fun kv => outcome_key kv.1) ps.

Definition grows (s s' : state) : Prop :=
  (hr_now s ≤ hr_now s')%Z ∧
  (∀ l es, heap s !! l = Some (OArr es) → ∃ es', heap s' !! l = Some (OArr (es ++ es'))) ∧
  (∀ l ps, heap s !! l = Some (OObj ps) →
     ∃ ps', heap s' !! l = Some (OObj (ps' ++ ps)) ∧ outcome_writes ps') ∧
  immediates s' = immediates s ∧
  reports s' = reports s.

Lemma grows_refl s : grows s s.
Proof.
  split_and!; [lia| | |done..].
  - intros l es H. exists []. by rewrite app_nil_r.
  - intros l ps H. exists []. by split; [|constructor].
Qed.

Lemma grows_trans s1 s2 s3 : grows s1 s2 → grows s2 s3 → grows s1 s3.
Proof.
  intros (H1 & H2 & H3 & H4 & H5) (H1' & H2' & H3' & H4' & H5').
  split_and!; [lia| | |congruence..].
  - intros l es H. destruct (H2 l es H) as [es1 He1].
    destruct (H2' l _ He1) as [es2 He2]. exists (es1 ++ es2). by rewrite app_assoc.
  - intros l ps H. destruct (H3 l ps H) as (ps1 & Hp1 & Hk1).
    destruct (H3' l _ Hp1) as (ps2 & Hp2 & Hk2). exists (ps2 ++ ps1).
    split; [by rewrite <- app_assoc|by apply Forall_app].
Qed.

Lemma grows_same s s' :
  heap s' = heap s → hr_now s' = hr_now s →
  immediates s' = immediates s → reports s' = reports s → grows s s'.
Proof.
  intros Hh Hr Hi Hp. unfold grows. rewrite Hh, Hr, Hi, Hp. apply grows_refl.
Qed.

(** A computation all of whose runs are such steps. *)
Definition growing {X} (m : M X) : Prop := ∀ s, grows s (m s).2.

Lemma growing_ret {X} (x : X) : growing (ret x).
Proof. intros s. apply grows_refl. Qed.

Lemma growing_throw {X} e : growing (@throw X e).
Proof. intros s. apply grows_refl. Qed.

Lemma growing_gets {X} (f : state → X) : growing (gets f).
Proof. intros s. apply grows_refl. Qed.

Lemma growing_bind {X Y} (m : M X) (k : X → M Y) :
  growing m → (∀ x, growing (k x)) → growing (bind m k).
Proof.
  intros Hm Hk s. unfold bind. specialize (Hm s).
  destruct (m s) as [[x|e] s1]; simpl in *; [|done].
  eapply grows_trans; [exact Hm|apply Hk].
Qed.

Lemma growing_try {X} (m : M X) (h : value → M X) :
  growing m → (∀ e, growing (h e)) → growing (try_catch m h).
Proof.
  intros Hm Hh s. unfold try_catch. specialize (Hm s).
  destruct (m s) as [[x|e] s1]; simpl in *; [done|].
  eapply grows_trans; [exact Hm|apply Hh].
Qed.

Lemma growing_modify (f : state → state) : (∀ s, grows s (f s)) → growing (modify f).
Proof. intros H s. apply H. Qed.

Lemma grows_alloc o s : grows s (set_heap (heap s ++ [o]) s).
Proof.
  split_and!; simpl; [lia| | |done..].
  - intros l es H. exists []. rewrite app_nil_r. rewrite lookup_app_l; [done|].
    by eapply lookup_lt_Some.
  - intros l ps H. exists []. split; [|constructor].
    rewrite lookup_app_l; [done|]. by eapply lookup_lt_Some.
Qed.

Lemma grows_set l ps k v s :
  outcome_key k →
  heap s !! l = Some (OObj ps) →
  grows s (set_heap (<[l := OObj ((k, v) :: ps)]> (heap s)) s).
Proof.
  intros Hk Hl. assert (Hlt : l < length (heap s)) by (by eapply lookup_lt_Some).
  split_and!; simpl; [lia| | |done..].
  - intros l' es H. exists []. rewrite app_nil_r.
    rewrite list_lookup_insert_ne; [done|]. intros ->. congruence.
  - intros l' ps0 H. destruct (decide (l = l')) as [<-|Hne].
    + rewrite Hl in H. injection H as <-. exists [(k, v)].
      split; [by rewrite list_lookup_insert_eq|by constructor].
    + exists []. split; [by rewrite list_lookup_insert_ne|constructor].
Qed.

Lemma grows_push l es es' s :
  heap s !! l = Some (OArr es) →
  grows s (set_heap (<[l := OArr (es ++ es')]> (heap s)) s).
Proof.
  intros Hl. assert (Hlt : l < length (heap s)) by (by eapply lookup_lt_Some).
  split_and!; simpl; [lia| | |done..].
  - intros l' es0 H. destruct (decide (l = l')) as [<-|Hne].
    + rewrite Hl in H. injection H as <-. exists es'.
      by rewrite list_lookup_insert_eq.
    + exists []. rewrite app_nil_r. by rewrite list_lookup_insert_ne.
  - intros l' ps H. exists []. split; [|constructor].
    rewrite list_lookup_insert_ne; [done|]. intros ->. congruence.
Qed.

Lemma growing_alloc o : growing (alloc o).
Proof. intros s. apply grows_alloc. Qed.

Lemma growing_set_prop l k v : outcome_key k → growing (set_prop l k v).
Proof.
  intros Hk s. unfold set_prop, modify. simpl.
  destruct (heap s !! l) as [[ps|es]|] eqn:Hl; try apply grows_refl.
  by apply grows_set.
Qed.

Lemma growing_get_prop v k : growing (get_prop v k).
Proof. intros s. destruct v; apply grows_refl. Qed.

Lemma growing_hrtime v : growing (hrtime v).
Proof. intros s. destruct v; apply grows_refl. Qed.

Lemma growing_array_push this args : growing (array_push this args).
Proof.
  intros s. unfold array_push. destruct this; try apply grows_refl.
  destruct (heap s !! l) as [[ps|es]|] eqn:Hl; try apply grows_refl.
  by apply grows_push.
Qed.

Lemma grows_settle p o s : grows s (settle p o s).
Proof.
  unfold settle. destruct (promises s !! p) as [[[| |] ? ?]|]; try apply grows_refl.
  by apply grows_same.
Qed.

Lemma grows_add_reaction p rx s : grows s (add_reaction p rx s).
Proof.
  unfold add_reaction.
  destruct (promises s !! p) as [[[| |] ? ?]|]; try apply grows_refl; by apply grows_same.
Qed.

Lemma growing_resolve_promise p x : growing (resolve_promise p x).
Proof.
  intros s. unfold resolve_promise.
  case_bool_decide; [apply grows_settle|].
  destruct (_ || _); [|apply grows_settle].
  unfold bind, gets. destruct (typeof_function _); [|apply grows_settle].
  unfold modify. simpl. destruct (is_pending p s); [by apply grows_same|apply grows_refl].
Qed.

Lemma growing_perform_then p onF onR : growing (perform_then p onF onR).
Proof.
  intros s. rewrite perform_then_run. simpl.
  eapply grows_trans; [|apply grows_add_reaction]. by apply grows_same.
Qed.

Lemma growing_call_builtin b this args : growing (call_builtin b this args).
Proof.
  destruct b; simpl.
  - apply growing_array_push.
  - destruct this; try apply growing_throw. apply growing_perform_then.
  - destruct this; try apply growing_throw. apply growing_perform_then.
Qed.

Lemma growing_finishRun r dc : growing (finishRun r dc).
Proof.
  apply growing_bind; [apply growing_get_prop|]. intros start.
  apply growing_bind; [apply growing_hrtime|]. intros t.
  apply growing_set_prop. by left.
Qed.

Lemma growing_onRejected r dc : growing (onRejected r dc).
Proof.
  apply growing_bind; [apply growing_set_prop; right; by left|]. intros _.
  apply growing_finishRun.
Qed.

Lemma growing_promise_resolve x : growing (promise_resolve x).
Proof.
  assert (H : growing (let! t := new_promise false in
                       do! resolve_promise t x in ret (VPromise t))).
  { apply growing_bind; [intros s; by apply grows_same|]. intros t.
    apply growing_bind; [apply growing_resolve_promise|]. intros _. apply growing_ret. }
  destruct x; simpl; try exact H. apply growing_ret.
Qed.

Lemma growing_all_count_down a p : growing (all_count_down a p).
Proof.
  apply growing_bind; [apply growing_gets|]. intros [[vs n]|]; [|apply growing_ret].
  apply growing_bind; [intros s; by apply grows_same|]. intros _.
  case_bool_decide; [|apply growing_ret].
  apply growing_bind; [apply growing_alloc|]. intros arr. apply growing_resolve_promise.
Qed.

Lemma growing_all_resolve_element a p i x : growing (all_resolve_element a p i x).
Proof.
  apply growing_bind; [apply growing_gets|]. intros [[vs n]|]; [|apply growing_ret].
  destruct (vs !! i) as [[v|]|]; try apply growing_ret.
  apply growing_bind; [intros s; by apply grows_same|]. intros _.
  apply growing_all_count_down.
Qed.

Lemma growing_run_closure_with call_fn c x :
  (∀ k this args, growing (call_fn k this args)) → growing (run_closure_with call_fn c x).
Proof.
  intros Hfn. destruct c; simpl.
  - apply Hfn.
  - apply growing_call_builtin.
  - apply growing_bind; [apply growing_finishRun|]. intros; apply growing_ret.
  - apply growing_bind; [apply growing_onRejected|]. intros; apply growing_ret.
  - apply growing_bind; [apply growing_resolve_promise|]. intros; apply growing_ret.
  - apply growing_bind; [intros s; apply grows_settle|]. intros; apply growing_ret.
  - apply growing_bind; [apply growing_all_resolve_element|]. intros; apply growing_ret.
Qed.

Lemma growing_call_back h x : growing (call_back h x).
Proof.
  unfold call_back. destruct (arg_handler h); [|apply growing_throw].
  apply growing_run_closure_with. intros; apply growing_throw.
Qed.

Lemma growing_run_behaviour args b : growing (run_behaviour args b).
Proof.
  induction b as [r a|i x k IH]; intros s; simpl.
  - by apply grows_same.
  - assert (H := growing_call_back (nth_arg i args) x s).
    destruct (call_back (nth_arg i args) x s) as [r s1]. simpl in H.
    eapply grows_trans; [exact H|apply IH].
Qed.

Lemma growing_call_app k this args : growing (call_app k this args).
Proof. intros s. apply growing_run_behaviour. Qed.

Lemma growing_call_value f this args : growing (call_value f this args).
Proof.
  destruct f; simpl; try apply growing_throw.
  - apply growing_call_app.
  - apply growing_call_builtin.
Qed.

Lemma growing_call_method o k args : growing (call_method o k args).
Proof.
  apply growing_bind; [apply growing_get_prop|]. intros f. apply growing_call_value.
Qed.

Lemma growing_run_closure c x : growing (run_closure c x).
Proof. apply growing_run_closure_with, growing_call_app. Qed.

Lemma growing_all_loop a p elems : ∀ i, growing (all_loop a p i elems).
Proof.
  induction elems as [|e rest IH]; intros i; simpl; [apply growing_ret|].
  apply growing_bind.
  { intros s. unfold all_add_element, modify. simpl.
    destruct (alls s !! a) as [[vs n]|]; [by apply grows_same|apply grows_refl]. }
  intros _. apply growing_bind; [apply growing_promise_resolve|]. intros nextPromise.
  apply growing_bind; [apply growing_call_method|]. intros _. apply IH.
Qed.

Lemma growing_promise_all elems : growing (promise_all elems).
Proof.
  apply growing_bind; [intros s; by apply grows_same|]. intros p.
  apply growing_bind; [intros s; by apply grows_same|]. intros a.
  apply growing_bind; [|intros; apply growing_ret].
  apply growing_try.
  - apply growing_bind; [apply growing_all_loop|]. intros _. apply growing_all_count_down.
  - intros e s. apply grows_settle.
Qed.

Lemma growing_run_job j : growing (run_job j).
Proof.
  assert (Hh : ∀ c v t,
    growing (try_catch (let! x := run_closure c v in resolve_promise t x)
                       (fun e => settle_promise t (Rejected e)))).
  { intros c v t. apply growing_try.
    - apply growing_bind; [apply growing_run_closure|]. intros x.
      apply growing_resolve_promise.
    - intros e s. apply grows_settle. }
  destruct j as [[onF onR t] o|p x thn]; simpl.
  - unfold run_reaction. destruct o as [|v|e]; simpl.
    + apply growing_ret.
    + destruct onF; [apply Hh|apply growing_resolve_promise].
    + destruct onR; [apply Hh|]. intros s. apply grows_settle.
  - apply growing_try.
    + apply growing_bind; [apply growing_call_value|]. intros; apply growing_ret.
    + intros e s. apply grows_settle.
Qed.

Lemma growing_process_result r dc result : growing (process_result r dc result).
Proof.
  assert (Hdef : growing (do! finishRun r dc in ret result)).
  { apply growing_bind; [apply growing_finishRun|]. intros; apply growing_ret. }
  assert (Hchain : ∀ pa,
    growing (let! p2 := call_method pa "then" [AFun (CFinishRun r dc)] in
             do! call_method p2 "catch" [AFun (COnRejected r dc)] in ret result)).
  { intros pa. apply growing_bind; [apply growing_call_method|]. intros p2.
    apply growing_bind; [apply growing_call_method|]. intros; apply growing_ret. }
  unfold process_result.
  case_bool_decide.
  { apply growing_bind; [apply growing_set_prop; unfold outcome_key; tauto|].
    intros; apply Hdef. }
  destruct (typeof_undefined result).
  { apply growing_bind; [apply growing_set_prop; unfold outcome_key; tauto|].
    intros; apply Hdef. }
  apply growing_bind; [apply growing_get_prop|]. intros thn.
  destruct (typeof_function thn); [apply Hchain|].
  apply growing_bind; [apply growing_gets|]. intros [|]; [|apply Hdef].
  apply growing_bind; [apply growing_gets|]. intros promises.
  case_bool_decide; [|apply Hdef].
  apply growing_bind; [apply growing_promise_all|]. intros pa. apply Hchain.
Qed.

Lemma growing_new_report dc fi ctx info : growing (new_report dc fi ctx info).
Proof.
  apply growing_bind; [apply growing_get_prop|]. intros start.
  apply growing_bind; [apply growing_hrtime|]. intros startOffset.
  apply growing_bind; [apply growing_alloc|]. intros r.
  apply growing_bind; [apply growing_get_prop|]. intros calls.
  apply growing_bind; [apply growing_call_method|]. intros; apply growing_ret.
Qed.

Lemma growing_decoratedResolver (fn : resolver_fn) fi p a ctx info :
  (∀ p a ctx info, growing (fn p a ctx info)) →
  growing (decoratedResolver fn fi p a ctx info).
Proof.
  intros Hfn. unfold decoratedResolver.
  apply growing_bind.
  { unfold js_and. destruct (truthy ctx); [apply growing_get_prop|apply growing_ret]. }
  intros dc. destruct (negb (truthy dc)); [apply Hfn|].
  apply growing_bind; [apply growing_new_report|]. intros r.
  apply growing_bind.
  - apply growing_try; [apply Hfn|]. intros e.
    apply growing_bind; [apply growing_set_prop; right; by left|]. intros _.
    apply growing_bind; [apply growing_finishRun|]. intros; apply growing_throw.
  - intros result. apply growing_try; [apply growing_process_result|].
    intros; apply growing_ret.
Qed.

Lemma growing_defaultResolveFn source args context info :
  growing (defaultResolveFn source args context info).
Proof.
  apply growing_bind; [apply growing_get_prop|]. intros fieldName.
  destruct (_ || _); [|apply growing_ret].
  apply growing_bind; [apply growing_get_prop|]. intros property.
  destruct (typeof_function property); [apply growing_call_method|apply growing_ret].
Qed.

Lemma growing_call_resolver f : ∀ p a ctx info, growing (call_resolver f p a ctx info).
Proof.
  induction f as [k| |fn IH fi]; intros p a ctx info; simpl.
  - apply growing_call_app.
  - apply growing_defaultResolveFn.
  - by apply growing_decoratedResolver.
Qed.

Lemma grows_event ev s : grows s (exec_event ev s).
Proof.
  destruct ev as [p o| |dhr dwall|f p a ctx info]; simpl.
  - destruct (is_ext p s); [|apply grows_refl].
    destruct o; [apply grows_refl|apply growing_resolve_promise|apply grows_settle].
  - destruct (queue s) as [|j rest]; [apply grows_refl|].
    eapply grows_trans; [|apply growing_run_job]. by apply grows_same.
  - split_and!; simpl; [lia| | |done..].
    + intros l es H. exists []. by rewrite app_nil_r.
    + intros l ps H. exists []. by split; [|constructor].
  - apply growing_call_resolver.
Qed.

Lemma growing_epilogue r dc out : growing (epilogue r dc out).
Proof.
  destruct out as [result|e]; simpl.
  - apply growing_try; [apply growing_process_result|]. intros; apply growing_ret.
  - apply growing_bind; [apply growing_set_prop; right; by left|]. intros _.
    apply growing_bind; [apply growing_finishRun|]. intros; apply growing_throw.
Qed.

Lemma grows_run_events evs : ∀ s, grows s (run_events evs s).
Proof.
  induction evs as [|ev evs IH]; intros s; [apply grows_refl|].
  simpl. eapply grows_trans; [apply grows_event|apply IH].
Qed.

(** A read of a property that the wrapper does not assign. *)
Lemma assoc_outcome_writes k ps' ps :
  outcome_writes ps' → ¬ outcome_key k → assoc k (ps' ++ ps) = assoc k ps.
Proof.
  intros Hw Hk. induction Hw as [|[k' v] ps' Hk' Hw IH]; [done|].
  simpl. rewrite bool_decide_eq_false_2; [done|]. simpl in Hk'. by intros ->.
Qed.

Lemma grows_field s s' l ps k :
  grows s s' → heap s !! l = Some (OObj ps) → ¬ outcome_key k →
  field_of l k s' = field_of l k s.
Proof.
  intros (_ & _ & H3 & _) Hl Hk. destruct (H3 l ps Hl) as (ps' & Hl' & Hw).
  unfold field_of. simpl. rewrite Hl, Hl'. by rewrite assoc_outcome_writes.
Qed.

Lemma grows_length s s' : grows s s' → length (heap s) ≤ length (heap s').
Proof.
  intros (_ & Ha & Ho & _).
  destruct (decide (length (heap s) ≤ length (heap s'))) as [|Hn]; [done|].
  assert (Hlt : length (heap s') < length (heap s)) by lia.
  destruct (lookup_lt_is_Some_2 _ _ Hlt) as [[ps|es] Hx].
  - destruct (Ho _ _ Hx) as (? & Hy & _). apply lookup_lt_Some in Hy. lia.
  - destruct (Ha _ _ Hx) as (? & Hy). apply lookup_lt_Some in Hy. lia.
Qed.

(** ** More on the resolver wrapper *)

(** *** The RequestContext is left as it is *)

Lemma grows_request_context s s' ctx c l t0 calls :
  grows s s' → request_context s ctx c l t0 calls →
  ∃ more, request_context s' ctx c l t0 (calls ++ more).
Proof.
  intros Hg (Ht & Hdc & pc & Hc & Hst & Hrc & Hl).
  assert (Hg' := Hg). destruct Hg' as (_ & Harr & Hobj & _).
  destruct (Harr l calls Hl) as [more Hl'].
  destruct (Hobj c pc Hc) as (pc' & Hc' & Hw).
  exists more. split_and!; [done| |].
  - destruct ctx as [| | | | | | |lc| | |]; simpl in Hdc; try done;
      try (repeat case_bool_decide; done).
    destruct (heap s !! lc) as [[pctx|ectx]|] eqn:Hlc;
      [|repeat case_bool_decide; done|done].
    destruct (Hobj lc pctx Hlc) as (px & Hlc' & Hwx). simpl. rewrite Hlc'.
    rewrite assoc_outcome_writes; [done..|].
    unfold outcome_key. intros [?|[?|[?|?]]]; done.
  - exists (pc' ++ pc). split_and!; [done| | |done].
    + rewrite assoc_outcome_writes; [done..|].
      unfold outcome_key. intros [?|[?|[?|?]]]; done.
    + rewrite assoc_outcome_writes; [done..|].
      unfold outcome_key. intros [?|[?|[?|?]]]; done.
Qed.

(** X5. Whatever happens after a context has been set up — resolvers are
    invoked with it or with others, promises settle, jobs run, time passes —
    it stays a RequestContext with the same [startHrTime] and the same
    [resolverCalls] array, which has kept its elements and may have new ones
    at its end. *)
Theorem request_context_stable s ctx c l t0 calls evs :
  request_context s ctx c l t0 calls →
  ∃ more, request_context (run_events evs s) ctx c l t0 (calls ++ more).
Proof. intros H. eapply grows_request_context; [apply grows_run_events|done]. Qed.

Lemma decoratedResolver_grows_called f fi p a ctx info s c l t0 calls :
  request_context s ctx c l t0 calls →
  grows (called_state s l t0 calls fi ctx info)
        (decoratedResolver (call_resolver f) fi p a ctx info s).2.
Proof.
  intros Hctx. rewrite decoratedResolver_once.
  rewrite (prologue_request_context _ _ _ _ _ _ _ _ _ _ Hctx).
  set (s1 := called_state s l t0 calls fi ctx info).
  assert (H1 := growing_call_resolver f p a ctx info s1).
  destruct (call_resolver f p a ctx info s1) as [out s2]. simpl in H1.
  eapply grows_trans; [exact H1|]. apply growing_epilogue.
Qed.

Lemma called_state_calls s ctx c l t0 calls fi info :
  request_context s ctx c l t0 calls →
  heap (called_state s l t0 calls fi ctx info) !! l
    = Some (OArr (calls ++ [VObj (length (heap s))])).
Proof.
  intros (_ & _ & pc & Hc & Hst & Hrc & Hl).
  assert (Hlt : l < length (heap s)) by (by eapply lookup_lt_Some).
  simpl. apply list_lookup_insert_eq. rewrite length_app; simpl. lia.
Qed.

Lemma called_state_context s ctx c l t0 calls fi info :
  request_context s ctx c l t0 calls →
  request_context (called_state s l t0 calls fi ctx info) ctx c l t0
                  (calls ++ [VObj (length (heap s))]).
Proof.
  intros Hctx. assert (Hl1 := called_state_calls s ctx c l t0 calls fi info Hctx).
  destruct Hctx as (Ht & Hdc & pc & Hc & Hst & Hrc & Hl).
  assert (Hlt : l < length (heap s)) by (by eapply lookup_lt_Some).
  assert (Hct : c < length (heap s)) by (by eapply lookup_lt_Some).
  assert (Hcl : c ≠ l) by (intros ->; congruence).
  split_and!; [done| |].
  - destruct ctx as [| | | | | | |lc| | |]; simpl in Hdc; try done.
    destruct (heap s !! lc) as [[pctx|ectx]|] eqn:Hlc;
      [|repeat case_bool_decide; done|done].
    assert (lc < length (heap s)) by (by eapply lookup_lt_Some).
    simpl. rewrite list_lookup_insert_ne by (intros ->; congruence).
    by rewrite lookup_app_l, Hlc.
  - exists pc. split_and!; [|done..].
    simpl. rewrite list_lookup_insert_ne by done. by rewrite lookup_app_l.
Qed.

Lemma resolverCalls_append_only_aux f fi p a ctx info s c l t0 calls evs :
  request_context s ctx c l t0 calls →
  ∃ more,
    request_context
      (run_events evs (decoratedResolver (call_resolver f) fi p a ctx info s).2)
      ctx c l t0 (calls ++ VObj (length (heap s)) :: more).
Proof.
  intros Hctx.
  assert (H1 := called_state_context s ctx c l t0 calls fi info Hctx).
  set (s3 := (decoratedResolver (call_resolver f) fi p a ctx info s).2).
  assert (Hg : grows (called_state s l t0 calls fi ctx info) (run_events evs s3)).
  { eapply grows_trans; [by eapply decoratedResolver_grows_called|].
    apply grows_run_events. }
  destruct (grows_request_context _ _ _ _ _ _ _ Hg H1) as [more Hm].
  exists more. by rewrite <- app_assoc in Hm.
Qed.

(** X3. An invocation with a RequestContext puts its record at the end of
    [resolverCalls], and there it stays: whatever the wrapped function
    does and whatever happens later, the earlier records and the new one
    are where they were, in this order. *)
Theorem resolverCalls_append_only f fi p a ctx info s c l t0 calls evs :
  request_context s ctx c l t0 calls →
  let s3 := (decoratedResolver (call_resolver f) fi p a ctx info s).2 in
  ∃ more,
    request_context (run_events evs s3) ctx c l t0
                    (calls ++ VObj (length (heap s)) :: more).
Proof. intros Hctx s3. by apply resolverCalls_append_only_aux. Qed.

(** X4. Records are in invocation order: of two invocations with the same
    RequestContext, with anything happening in between and after, the
    record of the first comes before the record of the second. *)
Theorem resolverCalls_invocation_order f1 fi1 p1 a1 info1 f2 fi2 p2 a2 info2
    ctx s c l t0 calls evs evs' :
  request_context s ctx c l t0 calls →
  let s1 := run_events evs (decoratedResolver (call_resolver f1) fi1 p1 a1 ctx info1 s).2 in
  let s2 := run_events evs' (decoratedResolver (call_resolver f2) fi2 p2 a2 ctx info2 s1).2 in
  ∃ m1 m2,
    heap s2 !! l = Some (OArr (calls ++ VObj (length (heap s)) :: m1
                                     ++ VObj (length (heap s1)) :: m2)) ∧
    length (heap s) < length (heap s1).
Proof.
  intros Hctx s1 s2.
  destruct (resolverCalls_append_only_aux f1 fi1 p1 a1 ctx info1 s c l t0 calls evs Hctx)
    as [m1 H1].
  fold s1 in H1.
  destruct (resolverCalls_append_only_aux f2 fi2 p2 a2 ctx info2 s1 c l t0 _ evs' H1)
    as [m2 H2].
  fold s2 in H2. exists m1, m2. split.
  - destruct H2 as (_ & _ & pc & _ & _ & _ & Hl). by rewrite <- app_assoc in Hl.
  - assert (Hg : grows (called_state s l t0 calls fi1 ctx info1) s1).
    { eapply grows_trans; [by eapply decoratedResolver_grows_called|].
      apply grows_run_events. }
    apply grows_length in Hg. simpl in Hg. rewrite length_insert, length_app in Hg.
    simpl in Hg. lia.
Qed.

(** X6. What an invocation of a decorated resolver, with or without a
    RequestContext, and all that happens afterwards leave alone: every
    property of every object there was, except [endOffset], [error],
    [resultNull] and [resultUndefined], reads as before; every array there
    was has kept its elements, in place; nothing has been queued with
    [setImmediate] and nothing signalled to the reporting module; the
    monotonic clock has not gone back. *)
Theorem decoratedResolver_frame f fi p a ctx info s evs :
  let s' := run_events evs (decoratedResolver (call_resolver f) fi p a ctx info s).2 in
  (∀ l ps k, heap s !! l = Some (OObj ps) → ¬ outcome_key k →
             field_of l k s' = field_of l k s) ∧
  (∀ l es, heap s !! l = Some (OArr es) →
           ∃ es', heap s' !! l = Some (OArr (es ++ es'))) ∧
  immediates s' = immediates s ∧
  reports s' = reports s ∧
  (hr_now s ≤ hr_now s')%Z.
Proof.
  intros s'.
  assert (Hg : grows s s').
  { eapply grows_trans; [|apply grows_run_events].
    apply (growing_call_resolver (RDecorated f fi)). }
  split_and!.
  - intros l ps k Hl Hk. by eapply grows_field.
  - apply Hg.
  - apply Hg.
  - apply Hg.
  - apply Hg.
Qed.

(** *** Results without a deferred value *)

(** The flag the wrapper sets for a result that is [null] or [undefined]. *)
Definition result_flag (result : value) : list (string * value) :=
  if bool_decide (result = VNull) then [("resultNull", VBool true)]
  else if typeof_undefined result then [("resultUndefined", VBool true)]
  else [].

Lemma called_state_record f p a ctx info s c l t0 calls fi out s2 :
  request_context s ctx c l t0 calls →
  call_resolver f p a ctx info (called_state s l t0 calls fi ctx info) = (out, s2) →
  heap s2 !! length (heap s) = Some (OObj (new_props s t0 fi ctx info)) ∧
  ctx_ok c t0 (heap s2).
Proof.
  intros Hctx Hfn. set (r := length (heap s)).
  set (s1 := called_state s l t0 calls fi ctx info) in *.
  destruct Hctx as (_ & _ & pc & Hc & Hst & Hrc & Hl).
  assert (Hlt : l < length (heap s)) by (by eapply lookup_lt_Some).
  assert (Hct : c < length (heap s)) by (by eapply lookup_lt_Some).
  assert (Hr1 : heap s1 !! r = Some (OObj (new_props s t0 fi ctx info))).
  { simpl. rewrite list_lookup_insert_ne by (unfold r; lia). by apply list_lookup_middle. }
  assert (Hc1 : ctx_ok c t0 (heap s1)).
  { exists pc. split; [|done]. simpl.
    rewrite list_lookup_insert_ne by (intros ->; congruence). by rewrite lookup_app_l. }
  assert (Hfs : fstep (av_idle r) s1 s2).
  { replace s2 with (call_resolver f p a ctx info s1).2 by (by rewrite Hfn).
    apply call_resolver_fstep. split_and!; simpl; try done.
    intros ? ->. by eapply lookup_lt_Some. }
  split.
  - exact (fstep_record r _ _ _ _ Hfs eq_refl Hr1).
  - exact (fstep_ctx_ok c t0 _ _ _ Hfs Hc1).
Qed.

Lemma sync_result_run f fi p a ctx info s c l t0 calls result s2 :
  request_context s ctx c l t0 calls →
  call_resolver f p a ctx info (called_state s l t0 calls fi ctx info)
    = (Ok result, s2) →
  deferred (heap s2) result = [] →
  let r := length (heap s) in
  decoratedResolver (call_resolver f) fi p a ctx info s =
  (Ok result,
   set_heap (<[r := OObj (("endOffset", VHr (hr_now s2 - t0))
                            :: result_flag result ++ new_props s t0 fi ctx info)]>
               (heap s2)) s2).
Proof.
  intros Hctx Hfn Hdef r.
  destruct (called_state_record f p a ctx info s c l t0 calls fi _ s2 Hctx Hfn)
    as [Hr2 Hc2]. fold r in Hr2.
  assert (Hlt : r < length (heap s2)) by (by eapply lookup_lt_Some).
  rewrite (decoratedResolver_run _ _ _ _ _ _ _ _ _ _ _ Hctx), Hfn. fold r.
  set (props0 := new_props s t0 fi ctx info) in *.
  assert (Hflag : ∀ k, k ≠ "startHrTime" →
    (do! set_prop r k (VBool true) in
     do! finishRun r (VObj c) in ret result) s2 =
    (Ok result,
     set_heap (<[r := OObj (("endOffset", VHr (hr_now s2 - t0))
                              :: [(k, VBool true)] ++ props0)]> (heap s2)) s2)).
  { intros k Hk. rewrite bind_run. unfold set_prop at 1, modify. rewrite Hr2.
    set (s2' := set_heap _ s2).
    assert (Hr2' : heap s2' !! r = Some (OObj ((k, VBool true) :: props0))).
    { simpl. by apply list_lookup_insert_eq. }
    rewrite bind_run, (finishRun_run r c t0 _ s2' Hr2'); [|by apply ctx_ok_set].
    simpl. by rewrite list_insert_insert_eq. }
  assert (Hplain :
    (do! finishRun r (VObj c) in ret result) s2 =
    (Ok result,
     set_heap (<[r := OObj (("endOffset", VHr (hr_now s2 - t0)) :: props0)]> (heap s2)) s2)).
  { by rewrite bind_run, (finishRun_run r c t0 _ s2 Hr2). }
  unfold try_catch, process_result, result_flag. unfold deferred in Hdef.
  case_bool_decide as Hnull; [by rewrite Hflag|].
  destruct (typeof_undefined result) eqn:Hundef; [by rewrite Hflag|].
  assert (Hget : get_prop result "then" s2 = (Ok (get_field (heap s2) result "then"), s2)).
  { by destruct result. }
  rewrite bind_run, Hget.
  destruct (typeof_function (get_field (heap s2) result "then")); [done|].
  rewrite bind_run. unfold gets at 1.
  destruct (is_array (heap s2) result); [|by rewrite Hplain].
  rewrite bind_run. unfold gets at 1. rewrite Hdef. simpl.
  by rewrite Hplain.
Qed.

(** X1. The wrapped function returns a result that holds no deferred value
    ([null], [undefined], a primitive, an object without a callable [then],
    an array without thenables, the empty array): when the wrapper returns,
    the record is complete.  The wrapper has returned the result, assigned the
    result flag and [endOffset] to the record and done nothing else: no
    promise is created, no job is queued, no other object is touched. *)
Theorem decoratedResolver_sync_result f fi p a ctx info s c l t0 calls result s2 :
  request_context s ctx c l t0 calls →
  call_resolver f p a ctx info (called_state s l t0 calls fi ctx info)
    = (Ok result, s2) →
  deferred (heap s2) result = [] →
  let r := length (heap s) in
  decoratedResolver (call_resolver f) fi p a ctx info s =
  (Ok result,
   set_heap (<[r := OObj (("endOffset", VHr (hr_now s2 - t0))
                            :: result_flag result ++ new_props s t0 fi ctx info)]>
               (heap s2)) s2).
Proof. apply sync_result_run. Qed.
(** *** The wrapped function throws *)

(** C4. The wrapped function throws.  Lines 118-126 have created the record
    and pushed it on [resolverCalls]: that is the state in which the function
    is called.  The wrapper throws the same value; it leaves the state the
    function left, with [error] and then [endOffset] assigned to the record
    and nothing else changed; the record is on [resolverCalls], behind the
    earlier ones. *)
Theorem decoratedResolver_sync_throw f fi p a ctx info s c l t0 calls e s2 :
  request_context s ctx c l t0 calls →
  call_resolver f p a ctx info (called_state s l t0 calls fi ctx info)
    = (Thrown e, s2) →
  let r := length (heap s) in
  let s1 := called_state s l t0 calls fi ctx info in
  let s3 := set_heap (<[r := OObj (("endOffset", VHr (hr_now s2 - t0))
                                     :: ("error", VBool true)
                                     :: new_props s t0 fi ctx info)]> (heap s2)) s2 in
  new_report (VObj c) fi ctx info s = (Ok r, s1) ∧
  heap s1 !! r = Some (OObj (new_props s t0 fi ctx info)) ∧
  heap s1 !! l = Some (OArr (calls ++ [VObj r])) ∧
  decoratedResolver (call_resolver f) fi p a ctx info s = (Thrown e, s3) ∧
  (∃ more, heap s3 !! l = Some (OArr (calls ++ VObj r :: more))) ∧
  field_of r "error" s3 = VBool true ∧
  field_of r "endOffset" s3 = VHr (hr_now s2 - t0).
Proof.
  intros Hctx Hfn r s1 s3.
  destruct (called_state_record f p a ctx info s c l t0 calls fi _ s2 Hctx Hfn)
    as [Hr2 Hc2]. fold r in Hr2.
  assert (Hlt : r < length (heap s2)) by (by eapply lookup_lt_Some).
  assert (Hl1 := called_state_calls s ctx c l t0 calls fi info Hctx).
  assert (Hll : l < length (heap s)).
  { destruct Hctx as (_ & _ & pc & _ & _ & _ & Hl). by eapply lookup_lt_Some. }
  assert (Hr1 : heap s1 !! r = Some (OObj (new_props s t0 fi ctx info))).
  { simpl. rewrite list_lookup_insert_ne by (unfold r; lia). by apply list_lookup_middle. }
  assert (Hg : grows s1 s2).
  { replace s2 with (call_resolver f p a ctx info s1).2 by (unfold s1; by rewrite Hfn).
    apply growing_call_resolver. }
  destruct Hg as (_ & Harr & _).
  destruct (Harr l _ Hl1) as [more Hl2].
  split_and!.
  - by apply new_report_run.
  - done.
  - done.
  - rewrite (decoratedResolver_run _ _ _ _ _ _ _ _ _ _ _ Hctx), Hfn. fold r.
    rewrite bind_run. unfold set_prop at 1, modify. rewrite Hr2.
    set (s2' := set_heap _ s2).
    assert (Hr2' : heap s2' !! r
                   = Some (OObj (("error", VBool true) :: new_props s t0 fi ctx info))).
    { simpl. by apply list_lookup_insert_eq. }
    rewrite bind_run, (finishRun_run r c t0 _ s2' Hr2'); [|by apply ctx_ok_set].
    unfold throw, s3. simpl. by rewrite list_insert_insert_eq.
  - exists more. simpl. rewrite list_lookup_insert_ne by (unfold r; lia).
    by rewrite Hl2, <- app_assoc.
  - unfold field_of. simpl. by rewrite list_lookup_insert_eq.
  - unfold field_of. simpl. by rewrite list_lookup_insert_eq.
Qed.

(** *** When the record is completed *)

Section Timed.

Variables r c : loc.
Variable t0 : Z.
Variable props0 : list (string * value).
Variable d : pid.
Variable T : Z.              (* the clock when the invocation began *)

(** The clock has not gone back, and the end time of a completed chain lies
    between the beginning of the invocation and now. *)
Definition timed (ph : phase) (s : state) : Prop :=
  (T ≤ hr_now s)%Z ∧
  match ph with
  | Done _ t => (T - t0 ≤ t ≤ hr_now s - t0)%Z
  | _ => True
  end.

Lemma timed_grows ph s s' : grows s s' → timed ph s → timed ph s'.
Proof.
  intros (Hhr & _) [HT Hph]. split; [lia|]. destruct ph; try done. lia.
Qed.

Lemma timed_fnext ph ph' s : fnext ph ph' → timed ph s → timed ph' s.
Proof.
  intros [->|(p2 & p3 & o & k & -> & ->)] [HT Hph]; [done|]. by split.
Qed.

Lemma timed_popped ph s : timed ph s → timed (popped ph) s.
Proof. intros [HT Hph]. split; [done|]. by destruct ph as [| | ? ? ? [|?]| ? ? [|?]|]. Qed.

Lemma timed_event ev ph s :
  inv r c t0 props0 d ph s → timed ph s →
  ∃ ph', next ph ph' ∧ inv r c t0 props0 d ph' (exec_event ev s) ∧
         timed ph' (exec_event ev s).
Proof.
  intros Hinv Ht. assert (Hg := grows_event ev s).
  assert (HT : (T ≤ hr_now (exec_event ev s))%Z).
  { destruct Hg as (? & _). destruct Ht as [? _]. lia. }
  assert (Hclean : ∀ j rest, ev = EvRunJob → ¬ at_head ph → queue s = j :: rest →
    ∃ ph', next ph ph' ∧ inv r c t0 props0 d ph' (exec_event ev s) ∧
           timed ph' (exec_event ev s)).
  { intros j rest -> Hh Hq.
    destruct (inv_run_clean r c t0 props0 d ph s j rest Hh Hinv Hq) as (ph' & Hn & Hi).
    exists ph'. split_and!; [by apply next_popped|done|].
    eapply timed_grows; [exact Hg|]. eapply timed_fnext; [exact Hn|].
    by apply timed_popped. }
  assert (ev = EvRunJob ∨ ev ≠ EvRunJob) as [->|Hev]
    by (destruct ev; (by left) || (by right)).
  - destruct (queue s) as [|j rest] eqn:Hq.
    { exists ph. split_and!; [constructor| |]; simpl; rewrite ?Hq; [done|].
      simpl in HT. rewrite Hq in HT. destruct Ht. done. }
    destruct ph as [props|p2 p3|p2 p3 o [|k]|p3 e [|k]|o t];
      try (apply (Hclean j rest); [done|simpl; tauto|done]).
    + destruct o as [|v|e].
      * by destruct Hinv as (_ & _ & ? & _).
      * exists (Done (Fulfilled v) (hr_now s - t0)).
        split_and!; [constructor|exact (trig_fulfilled_run _ _ _ _ _ _ _ _ _ Hinv)|].
        split; [done|]. destruct Ht as [? _]. destruct Hg as (? & _). lia.
      * destruct (trig_rejected_run _ _ _ _ _ _ _ _ _ Hinv) as [k Hi].
        exists (RejJob p3 e k). split_and!; [constructor|exact Hi|]. by split.
    + exists (Done (Rejected e) (hr_now s - t0)).
      split_and!; [constructor|exact (rejjob_run _ _ _ _ _ _ _ _ Hinv)|].
      split; [done|]. destruct Ht as [? _]. destruct Hg as (? & _). lia.
  - destruct (inv_other_event r c t0 props0 d ev ph s Hev Hinv) as (ph' & Hn & Hi).
    exists ph'. split_and!; [|done|].
    + destruct Hn as [->|(p2 & p3 & o & k & -> & ->)]; constructor.
    + eapply timed_grows; [exact Hg|]. by eapply timed_fnext.
Qed.

Lemma timed_events evs : ∀ ph s,
  inv r c t0 props0 d ph s → timed ph s →
  ∃ ph', reach ph ph' ∧ inv r c t0 props0 d ph' (run_events evs s) ∧
         timed ph' (run_events evs s).
Proof.
  induction evs as [|ev evs IH]; intros ph s Hinv Ht.
  { exists ph. split_and!; [constructor|done..]. }
  destruct (timed_event ev ph s Hinv Ht) as (ph1 & Hn & Hi & Ht1).
  destruct (IH ph1 _ Hi Ht1) as (ph2 & Hr & Hi2 & Ht2).
  exists ph2. split_and!; [|done..]. by econstructor.
Qed.

End Timed.

(** *** The states of a record *)

(** The flag a settled chain leaves on the record. *)
Definition settled_flag (o : pstate) : list (string * value) :=
  match o with
  | Rejected _ => [("error", VBool true)]
  | _ => []
  end.

Lemma final_props_flag props0 o t :
  final_props props0 o t = ("endOffset", VHr t) :: settled_flag o ++ props0.
Proof. by destruct o. Qed.

Section Record.

Variables r c : loc.
Variable t0 : Z.
Variable props0 : list (string * value).

(** The second half of [decoratedResolver] leaves the record complete, or a
    chain in place that has not run. *)
Lemma process_result_inv (result : value) s2 :
  inv r c t0 props0 0 (Quiet props0) s2 →
  (∀ x, x ∈ deferred (heap s2) result → native s2 x) →
  ∃ s3 d ph,
    try_catch (process_result r (VObj c) result) (fun _ => ret result) s2
      = (Ok result, s3) ∧
    inv r c t0 props0 d ph s3 ∧
    match deferred (heap s2) result with
    | [] => ph = Quiet (("endOffset", VHr (hr_now s2 - t0)) :: result_flag result ++ props0)
    | _ :: _ =>
        (∀ d', result = VPromise d' → d' = d) ∧
        match ph with Armed _ _ | Trig _ _ _ _ => True | _ => False end
    end.
Proof.
  intros Hinv Hnat. unfold process_result, deferred, result_flag in *. unfold try_catch.
  assert (Hflag : ∀ k, k ≠ "startHrTime" →
    ∃ s3, (do! set_prop r k (VBool true) in
           do! finishRun r (VObj c) in ret result) s2 = (Ok result, s3) ∧
          inv r c t0 props0 0
              (Quiet (("endOffset", VHr (hr_now s2 - t0)) :: [(k, VBool true)] ++ props0)) s3).
  { intros k Hk.
    destruct (quiet_set _ _ _ _ _ _ k (VBool true) _ Hk Hinv) as [Hrun Hinv1].
    destruct (quiet_finishRun _ _ _ _ _ _ _ Hinv1) as [Hrun' Hinv'].
    eexists. split; [by rewrite bind_run, Hrun, bind_run, Hrun'|exact Hinv']. }
  assert (Hplain :
    ∃ s3, (do! finishRun r (VObj c) in ret result) s2 = (Ok result, s3) ∧
          inv r c t0 props0 0 (Quiet (("endOffset", VHr (hr_now s2 - t0)) :: props0)) s3).
  { destruct (quiet_finishRun _ _ _ _ _ _ _ Hinv) as [Hrun' Hinv'].
    eexists. split; [by rewrite bind_run, Hrun'|exact Hinv']. }
  case_bool_decide as Hnull.
  { destruct (Hflag "resultNull") as (s3 & -> & Hi); [done|].
    eexists s3, 0, _. split_and!; [done|exact Hi|done]. }
  destruct (typeof_undefined result) eqn:Hundef.
  { destruct (Hflag "resultUndefined") as (s3 & -> & Hi); [done|].
    eexists s3, 0, _. split_and!; [done|exact Hi|done]. }
  assert (Hget : get_prop result "then" s2 = (Ok (get_field (heap s2) result "then"), s2)).
  { by destruct result. }
  rewrite bind_run, Hget.
  destruct (typeof_function (get_field (heap s2) result "then")) eqn:Hthen.
  { (* a single promise *)
    destruct (Hnat result) as (d & -> & Hd); [by left|].
    rewrite (attach_run r c d (VPromise d) s2).
    assert (Hq : inv r c t0 props0 d (Quiet props0) s2) by exact Hinv.
    destruct (attach_inv r c t0 props0 d s2 Hq Hd) as [[_ Hi]|[_ Hi]].
    - eexists _, d, _. split_and!; [done|exact Hi|by intros ? [= ->]|done].
    - eexists _, d, _. split_and!; [done|exact Hi|by intros ? [= ->]|done]. }
  rewrite bind_run. unfold gets at 1.
  destruct (is_array (heap s2) result) eqn:Harr.
  2: { destruct Hplain as (s3 & -> & Hi). eexists s3, 0, _. split_and!; [done|exact Hi|].
       unfold collect_promises, array_elems, is_array in *.
       destruct result; try done. by destruct (heap s2 !! l) as [[|]|]. }
  rewrite bind_run. unfold gets at 1.
  case_bool_decide as Hlen.
  2: { destruct Hplain as (s3 & -> & Hi). eexists s3, 0, _. split_and!; [done|exact Hi|].
       destruct (collect_promises (heap s2) result); [done|simpl in Hlen; lia]. }
  (* an array with promises *)
  destruct (native_list s2 _ Hnat) as (es & Hes & Hlt).
  rewrite Hes in *.
  assert (Hne : es ≠ []) by (intros ->; simpl in Hlen; lia).
  set (a := length (alls s2)). set (pa := length (promises s2)).
  assert (Hsh := Hinv). destruct Hsh as (Hrec & _ & Hpc & Hqc).
  destruct (promise_all_run a pa es (av_idle r) s2 eq_refl eq_refl Hne Hlt Hpc Hqc)
    as (s' & Hrun & Hall).
  rewrite bind_run, Hrun.
  assert (Hfs : fstep (av_idle r) s2 s').
  { replace s' with (promise_all (map VPromise es) s2).2 by (by rewrite Hrun).
    apply promise_all_fstep. by apply (inv_avoid_alloc r c t0 props0 0 (Quiet props0)). }
  assert (Hq : inv r c t0 props0 pa (Quiet props0) s').
  { destruct (inv_fstep r c t0 props0 pa (av_idle r) s2 s' Hfs (Quiet props0))
      as (ph' & [->|Hn] & Hi); [done|exact Hinv|done|].
    by destruct Hn as (? & ? & ? & ? & ? & _). }
  assert (Hpa : pa < length (promises s')) by apply Hall.
  rewrite (attach_run r c pa result s').
  assert (Hnp : ∀ d', result = VPromise d' → d' = pa).
  { intros d' ->. simpl in Hthen. done. }
  destruct es as [|e es]; [done|]. simpl.
  destruct (attach_inv r c t0 props0 pa s' Hq Hpa) as [[_ Hi]|[_ Hi]].
  - eexists _, pa, _. split_and!; [done|exact Hi|done|done].
  - eexists _, pa, _. split_and!; [done|exact Hi|done|done].
Qed.

End Record.

(** X2. The record of an invocation whose deferred values, if there are any,
    are promises of the run time (not other objects with a [then]), in every
    later state of the program: it is as it was created, which can only be while a deferred value of the result is
    awaited; or it has, on top of what it was created with, an [endOffset]
    and at most one flag.  The end time is not before the start time nor
    after the present.  The flag is [error] when the wrapped function threw;
    [resultNull] or [resultUndefined] when it returned [null] or
    [undefined]; none for another result without deferred values; for a
    promise, [error] if the promise is rejected and none if it is fulfilled. *)
Theorem decoratedResolver_record_states f fi p a ctx info s c l t0 calls out s2 evs :
  wf_state s →
  request_context s ctx c l t0 calls →
  call_resolver f p a ctx info (called_state s l t0 calls fi ctx info) = (out, s2) →
  (∀ v x, out = Ok v → x ∈ deferred (heap s2) v → native s2 x) →
  let r := length (heap s) in
  let props0 := new_props s t0 fi ctx info in
  let s4 := run_events evs (decoratedResolver (call_resolver f) fi p a ctx info s).2 in
  (record_props r s4 = props0 ∧ ∃ v, out = Ok v ∧ deferred (heap s2) v ≠ []) ∨
  ∃ t flag,
    record_props r s4 = ("endOffset", VHr t) :: flag ++ props0 ∧
    (hr_now s - t0 ≤ t ≤ hr_now s4 - t0)%Z ∧
    match out with
    | Thrown _ => flag = [("error", VBool true)]
    | Ok v =>
        match deferred (heap s2) v with
        | [] => flag = result_flag v
        | _ :: _ =>
            ∃ o, settled o = true ∧ flag = settled_flag o ∧
                 ∀ d, v = VPromise d → state_of_promise d s4 = o
        end
    end.
Proof.
  intros Hwf Hctx Hfn Hnat r props0 s4.
  assert (Hq1 := quiet_at_call s ctx c l t0 calls fi info 0 Hwf Hctx).
  apply (quiet_after_call _ _ _ _ _ _ f p a ctx info) in Hq1.
  rewrite Hfn in Hq1. simpl in Hq1. fold r props0 in Hq1.
  assert (Hhr2 : (hr_now s ≤ hr_now s2)%Z).
  { assert (Hg := growing_call_resolver f p a ctx info (called_state s l t0 calls fi ctx info)).
    rewrite Hfn in Hg. by destruct Hg as (? & _). }
  assert (Hquiet : ∀ d0 s3 flag,
    inv r c t0 props0 d0
        (Quiet (("endOffset", VHr (hr_now s2 - t0)) :: flag ++ props0)) s3 →
    (hr_now s2 ≤ hr_now s3)%Z →
    record_props r (run_events evs s3)
      = ("endOffset", VHr (hr_now s2 - t0)) :: flag ++ props0 ∧
    (hr_now s - t0 ≤ hr_now s2 - t0 ≤ hr_now (run_events evs s3) - t0)%Z).
  { intros d0 s3 flag Hi Hhr3.
    assert (Hi4 : inv r c t0 props0 d0
                    (Quiet (("endOffset", VHr (hr_now s2 - t0)) :: flag ++ props0))
                    (run_events evs s3)) by (by apply rest_events).
    split; [by rewrite (inv_record _ _ _ _ _ _ _ Hi4)|].
    assert (Hg := grows_run_events evs s3). destruct Hg as (? & _). lia. }
  unfold s4. rewrite (decoratedResolver_run _ _ _ _ _ _ _ _ _ _ _ Hctx), Hfn. fold r.
  destruct out as [result|e].
  - destruct (process_result_inv r c t0 props0 result s2 Hq1) as (s3 & d & ph & Hrun & Hi & Hph).
    { intros x. by apply Hnat. }
    rewrite Hrun. simpl.
    assert (Hhr3 : (hr_now s2 ≤ hr_now s3)%Z).
    { assert (Hg := growing_try (process_result r (VObj c) result)
                      (fun _ => ret result) (growing_process_result _ _ _)
                      (fun _ => growing_ret _) s2).
      rewrite Hrun in Hg. by destruct Hg as (? & _). }
    destruct (deferred (heap s2) result) as [|x xs] eqn:Hdef.
    + subst ph. right. exists (hr_now s2 - t0)%Z, (result_flag result).
      destruct (Hquiet d s3 _ Hi Hhr3) as [H1 H2]. split_and!; [done|lia|lia|done].
    + destruct Hph as [Hd Hph].
      assert (Ht3 : timed t0 (hr_now s) ph s3).
      { split; [lia|]. by destruct ph. }
      destruct (timed_events r c t0 props0 d (hr_now s) evs ph s3 Hi Ht3)
        as (ph4 & Hr4 & Hi4 & Ht4).
      assert (Hc3 : on_chain ph) by (by destruct ph).
      assert (Hc4 : on_chain ph4) by (by eapply reach_on_chain).
      assert (Hrec := inv_record _ _ _ _ _ _ _ Hi4).
      assert (Hst := chain_state r c t0 props0 d _ _ Hi4 Hc4).
      destruct ph4 as [props|p2 p3|p2 p3 o' k|p3 e k|o t]; simpl in Hrec, Hc4;
        [done|left|left|left|];
        try (split; [done|]; exists result; split; [done|]; by rewrite Hdef).
      right. exists t, (settled_flag o). rewrite Hrec.
      destruct Hst as [Hst Hso]. destruct Ht4 as [_ Ht4].
      split_and!; [by apply final_props_flag|lia|lia|].
      exists o. split_and!; [done..|]. intros d' Hd'. by rewrite (Hd d' Hd').
  - destruct (quiet_set r c t0 props0 0 props0 "error" (VBool true) s2) as [Hrun1 Hi1];
      [done..|].
    destruct (quiet_finishRun _ _ _ _ _ _ _ Hi1) as [Hrun2 Hi2].
    rewrite bind_run, Hrun1, bind_run, Hrun2. unfold throw. cbn [snd].
    right. exists (hr_now s2 - t0)%Z, [("error", VBool true)].
    destruct (Hquiet 0 _ [("error", VBool true)] Hi2) as [H1 H2]; [simpl; lia|].
    split_and!; [done|lia|lia|done].
Qed.

(** ** More on the request lifecycle *)

(** Request [req] carries the context [c], begun at time [t]. *)
Definition attached (s : state) (req c : loc) (t : Z) : Prop :=
  ∃ pr pc, heap s !! req = Some (OObj pr) ∧
           assoc "_datadogContext" pr = Some (VObj c) ∧
           heap s !! c = Some (OObj pc) ∧
           assoc "startHrTime" pc = Some (VHr t).

Lemma not_outcome_key k :
  k ≠ "endOffset" → k ≠ "error" → k ≠ "resultNull" → k ≠ "resultUndefined" →
  ¬ outcome_key k.
Proof. unfold outcome_key. tauto. Qed.

Lemma grows_attached s s' req c t : grows s s' → attached s req c t → attached s' req c t.
Proof.
  intros (_ & _ & Hobj & _) (pr & pc & Hr & Hk & Hc & Hst).
  destruct (Hobj _ _ Hr) as (pr' & Hr' & Hwr).
  destruct (Hobj _ _ Hc) as (pc' & Hc' & Hwc).
  exists (pr' ++ pr), (pc' ++ pc). split_and!; [done| |done|].
  - rewrite assoc_outcome_writes; [done..|]. by apply not_outcome_key.
  - rewrite assoc_outcome_writes; [done..|]. by apply not_outcome_key.
Qed.

Lemma preRequest_attached req ps s :
  heap s !! req = Some (OObj ps) →
  attached (preRequest (VObj req) s).2 req (S (length (heap s))) (hr_now s).
Proof.
  intros Hreq. assert (Hlt : req < length (heap s)) by (by eapply lookup_lt_Some).
  rewrite (preRequest_run req ps s Hreq). simpl.
  exists (("_datadogContext", VObj (S (length (heap s)))) :: ps), (context_props s (VObj req)).
  split_and!.
  - apply list_lookup_insert_eq. rewrite !length_app. simpl. lia.
  - apply assoc_cons_eq.
  - simpl. rewrite list_lookup_insert_ne by lia.
    rewrite (list_lookup_middle _ [] _ (S (length (heap s)))); [done|].
    rewrite length_app. simpl. lia.
  - done.
Qed.

(** [postRequest] on a request that carries a context. *)
Lemma postRequest_run req c t s :
  attached s req c t →
  postRequest (VObj req) s =
  (Ok tt,
   set_immediates (immediates s ++ [TReportRequestEnd (VObj req)])
     (set_heap (<[c := OObj (("endWallTime", VNum (wall_now s))
                             :: ("durationHrTime", VHr (hr_now s - t))
                             :: record_props c s)]> (heap s)) s)).
Proof.
  intros (pr & pc & Hr & Hk & Hc & Hst).
  assert (Hlt : c < length (heap s)) by (by eapply lookup_lt_Some).
  unfold postRequest. rewrite bind_run. simpl. rewrite Hr, Hk. simpl.
  rewrite bind_run. simpl. rewrite Hc, Hst. simpl.
  rewrite bind_run. simpl. rewrite bind_run.
  unfold set_prop at 1, modify. rewrite Hc.
  rewrite bind_run. simpl. rewrite bind_run.
  unfold set_prop at 1, modify. simpl.
  rewrite list_lookup_insert_eq by done. simpl.
  rewrite list_insert_insert_eq. unfold record_props. by rewrite Hc.
Qed.

Lemma postRequest_attached req c t s :
  attached s req c t → attached (postRequest (VObj req) s).2 req c t.
Proof.
  intros Hat. rewrite (postRequest_run req c t s Hat). simpl.
  destruct Hat as (pr & pc & Hr & Hk & Hc & Hst).
  assert (Hlt : c < length (heap s)) by (by eapply lookup_lt_Some).
  unfold record_props. rewrite Hc.
  set (pc' := ("endWallTime", VNum (wall_now s))
              :: ("durationHrTime", VHr (hr_now s - t)) :: pc).
  assert (Hc' : <[c := OObj pc']> (heap s) !! c = Some (OObj pc'))
    by (by apply list_lookup_insert_eq).
  destruct (decide (req = c)) as [->|Hne].
  - rewrite Hr in Hc. injection Hc as ->.
    exists pc', pc'. by split_and!.
  - exists pr, pc'. split_and!; [|done..]. simpl. by rewrite list_lookup_insert_ne.
Qed.

(** X7. From [preRequest] to [postRequest], with anything happening in
    between: [postRequest] finds the context that [preRequest] attached, notes
    on it as [durationHrTime] the time that has passed on the monotonic clock,
    which is not negative, and the wall time as [endWallTime], leaves the
    start times as they were, and queues one [reportRequestEnd(req)] with
    [setImmediate]; it does not call the reporting module itself. *)
Theorem request_lifecycle req ps s evs :
  heap s !! req = Some (OObj ps) →
  let c := S (length (heap s)) in
  let s1 := (preRequest (VObj req) s).2 in
  let s2 := run_events evs s1 in
  ∃ s3,
    postRequest (VObj req) s2 = (Ok tt, s3) ∧
    field_of c "durationHrTime" s3 = VHr (hr_now s2 - hr_now s) ∧
    (0 ≤ hr_now s2 - hr_now s)%Z ∧
    field_of c "endWallTime" s3 = VNum (wall_now s2) ∧
    field_of c "startHrTime" s3 = VHr (hr_now s) ∧
    field_of c "startWallTime" s3 = VNum (wall_now s) ∧
    field_of c "req" s3 = VObj req ∧
    immediates s3 = immediates s ++ [TReportRequestEnd (VObj req)] ∧
    reports s3 = reports s2.
Proof.
  intros Hreq c s1 s2.
  assert (Hat1 := preRequest_attached req ps s Hreq). fold s1 c in Hat1.
  assert (Hg := grows_run_events evs s1). fold s2 in Hg.
  assert (Hat2 := grows_attached _ _ _ _ _ Hg Hat1).
  rewrite (postRequest_run req c _ s2 Hat2).
  eexists. split; [done|].
  assert (Hc1 : heap s1 !! c = Some (OObj (context_props s (VObj req)))).
  { unfold s1. rewrite (preRequest_run req ps s Hreq). simpl.
    assert (Hlt : req < length (heap s)) by (by eapply lookup_lt_Some).
    rewrite list_lookup_insert_ne by (unfold c; lia).
    rewrite (list_lookup_middle _ [] _ c); [done|].
    rewrite length_app. simpl. unfold c. lia. }
  assert (Hhr1 : hr_now s1 = hr_now s).
  { unfold s1. by rewrite (preRequest_run req ps s Hreq). }
  assert (Him1 : immediates s1 = immediates s).
  { unfold s1. by rewrite (preRequest_run req ps s Hreq). }
  assert (Hg' := Hg). destruct Hg' as (Hhr & _ & Hobj & Him & Hrp).
  destruct (Hobj _ _ Hc1) as (pc' & Hc2 & Hw).
  assert (Hlt2 : c < length (heap s2)) by (by eapply lookup_lt_Some).
  assert (Hkeep : ∀ k, ¬ outcome_key k → k ≠ "endWallTime" → k ≠ "durationHrTime" →
    field_of c k
      (set_immediates (immediates s2 ++ [TReportRequestEnd (VObj req)])
         (set_heap (<[c := OObj (("endWallTime", VNum (wall_now s2))
                                 :: ("durationHrTime", VHr (hr_now s2 - hr_now s))
                                 :: record_props c s2)]> (heap s2)) s2))
    = default VUndef (assoc k (context_props s (VObj req)))).
  { intros k Hk H1 H2. unfold field_of. simpl.
    rewrite list_lookup_insert_eq by done. simpl.
    rewrite !bool_decide_eq_false_2 by done.
    unfold record_props. rewrite Hc2. by rewrite assoc_outcome_writes. }
  split_and!.
  - unfold field_of. simpl. by rewrite list_lookup_insert_eq.
  - lia.
  - unfold field_of. simpl. by rewrite list_lookup_insert_eq.
  - rewrite Hkeep; [done|by apply not_outcome_key|done..].
  - rewrite Hkeep; [done|by apply not_outcome_key|done..].
  - rewrite Hkeep; [done|by apply not_outcome_key|done..].
  - simpl. by rewrite Him, Him1.
  - done.
Qed.

(** [postRequest] called once after each of the runs [evss]. *)
Fixpoint postRequests (req : value) (evss : list (list event)) (s : state) : state :=
  match evss with
  | [] => s
  | evs :: rest => postRequests req rest (postRequest req (run_events evs s)).2
  end.

(** X8. Every call of [postRequest] on a request that carries a context
    queues one more [reportRequestEnd(req)]: called [n] times, whatever
    happens in between, it leaves [n] reports queued, and has sent none
    itself. *)
Theorem postRequest_queues_each_time req c t evss : ∀ s,
  attached s req c t →
  let s' := postRequests (VObj req) evss s in
  immediates s' = immediates s ++ replicate (length evss) (TReportRequestEnd (VObj req)) ∧
  reports s' = reports s ∧
  attached s' req c t.
Proof.
  induction evss as [|evs rest IH]; intros s Hat; simpl.
  { by rewrite app_nil_r. }
  assert (Hg := grows_run_events evs s).
  assert (Hat1 := grows_attached _ _ _ _ _ Hg Hat).
  assert (Hat2 := postRequest_attached req c t _ Hat1).
  destruct (IH _ Hat2) as (Him & Hrp & Hat3).
  destruct Hg as (_ & _ & _ & Him1 & Hrp1).
  split_and!; [|by rewrite Hrp, (postRequest_run req c t _ Hat1)|done].
  rewrite Him, (postRequest_run req c t _ Hat1). simpl.
  by rewrite Him1, <- app_assoc.
Qed.

(** X9. [preRequest] called again on a request: the request carries the new
    context, with the new start time and a new, empty [resolverCalls]; the
    first context and the records on its [resolverCalls] are left where they
    were, no longer reachable from the request. *)
Theorem preRequest_overwrites req ps s evs :
  heap s !! req = Some (OObj ps) →
  let s1 := (preRequest (VObj req) s).2 in
  let s2 := run_events evs s1 in
  let s3 := (preRequest (VObj req) s2).2 in
  let c1 := S (length (heap s)) in
  let c2 := S (length (heap s2)) in
  field_of req "_datadogContext" s2 = VObj c1 ∧
  field_of req "_datadogContext" s3 = VObj c2 ∧
  c1 < c2 ∧
  field_of c2 "startHrTime" s3 = VHr (hr_now s2) ∧
  field_of c2 "resolverCalls" s3 = VObj (length (heap s2)) ∧
  heap s3 !! length (heap s2) = Some (OArr []) ∧
  heap s3 !! c1 = heap s2 !! c1 ∧
  heap s3 !! length (heap s) = heap s2 !! length (heap s).
Proof.
  intros Hreq s1 s2 s3 c1 c2.
  assert (Hat1 := preRequest_attached req ps s Hreq). fold s1 c1 in Hat1.
  assert (Hg := grows_run_events evs s1). fold s2 in Hg.
  assert (Hat2 := grows_attached _ _ _ _ _ Hg Hat1).
  assert (Hlen1 : length (heap s1) = S (S (length (heap s)))).
  { unfold s1. rewrite (preRequest_run req ps s Hreq). simpl.
    rewrite length_insert, !length_app. simpl. lia. }
  assert (Hlen2 := grows_length _ _ Hg).
  destruct Hat2 as (pr2 & pc2 & Hr2 & Hk2 & Hc2 & Hst2).
  assert (Hlt : req < length (heap s2)) by (by eapply lookup_lt_Some).
  assert (Hlr : req < length (heap s)) by (by eapply lookup_lt_Some).
  assert (Hother : ∀ x, x < length (heap s2) → x ≠ req →
    heap s3 !! x = heap s2 !! x).
  { intros x Hx Hne. unfold s3. rewrite (preRequest_run req pr2 s2 Hr2). simpl.
    rewrite list_lookup_insert_ne by done.
    rewrite lookup_app_l by (rewrite length_app; simpl; lia).
    by rewrite lookup_app_l. }
  split_and!.
  - unfold field_of. simpl. by rewrite Hr2, Hk2.
  - unfold s3. rewrite (preRequest_run req pr2 s2 Hr2). unfold field_of. simpl.
    rewrite list_lookup_insert_eq by (rewrite !length_app; simpl; lia).
    done.
  - unfold c1, c2. lia.
  - unfold s3. rewrite (preRequest_run req pr2 s2 Hr2). unfold field_of. simpl.
    rewrite list_lookup_insert_ne by (unfold c2; lia).
    rewrite (list_lookup_middle _ [] _ c2) by (rewrite length_app; simpl; unfold c2; lia).
    done.
  - unfold s3. rewrite (preRequest_run req pr2 s2 Hr2). unfold field_of. simpl.
    rewrite list_lookup_insert_ne by (unfold c2; lia).
    rewrite (list_lookup_middle _ [] _ c2) by (rewrite length_app; simpl; unfold c2; lia).
    done.
  - unfold s3. rewrite (preRequest_run req pr2 s2 Hr2). simpl.
    rewrite list_lookup_insert_ne by lia.
    rewrite lookup_app_l by (rewrite length_app; simpl; lia).
    by apply list_lookup_middle.
  - apply Hother; unfold c1; lia.
  - apply Hother; lia.
Qed.

(** X10. The documented set-up of a query: [preRequest] on the request,
    later [newContext], whose result is put in the [datadogContext] field of
    the GraphQL context.  [newContext] returns the context that [preRequest]
    attached, without calling [debugFn], and notes the agent on it; the
    GraphQL context then is a RequestContext as the resolver wrapper needs
    it, and the schema-level resolve function, given this context, signals
    the start of the trace once and returns the root value. *)
Theorem newContext_request_context req ps agent root args info s evs :
  heap s !! req = Some (OObj ps) →
  let l := length (heap s) in
  let c := S (length (heap s)) in
  let s2 := run_events evs (preRequest (VObj req) s).2 in
  ∃ s3 calls,
    newContext (VObj req) agent s2 = (Ok (VObj c), s3) ∧
    app_state s3 = app_state s2 ∧
    field_of c "agent" s3 = agent ∧
    (evs = [] → calls = []) ∧
    let s4 := (alloc (OObj [("datadogContext", VObj c)]) s3).2 in
    let ctx := VObj (length (heap s3)) in
    request_context s4 ctx c l (hr_now s) calls ∧
    schemaLevelResolve root args ctx info s4 =
      (Ok root, set_reports (reports s4 ++ [ReportRequestStart (VObj c) info ctx]) s4).
Proof.
  intros Hreq l c s2. set (s1 := (preRequest (VObj req) s).2) in *.
  assert (Hat1 := preRequest_attached req ps s Hreq). fold s1 c in Hat1.
  assert (Hg := grows_run_events evs s1). fold s2 in Hg.
  assert (Hat2 := grows_attached _ _ _ _ _ Hg Hat1).
  assert (Hlr : req < length (heap s)) by (by eapply lookup_lt_Some).
  assert (Hc1 : heap s1 !! c = Some (OObj (context_props s (VObj req)))).
  { unfold s1. rewrite (preRequest_run req ps s Hreq). simpl.
    rewrite list_lookup_insert_ne by (unfold c; lia).
    rewrite (list_lookup_middle _ [] _ c); [done|].
    rewrite length_app. simpl. unfold c. lia. }
  assert (Hl1 : heap s1 !! l = Some (OArr [])).
  { unfold s1. rewrite (preRequest_run req ps s Hreq). simpl.
    rewrite list_lookup_insert_ne by (unfold l; lia).
    rewrite lookup_app_l by (rewrite length_app; simpl; unfold l; lia).
    by apply list_lookup_middle. }
  assert (Hg' := Hg). destruct Hg' as (_ & Harr & Hobj & _).
  destruct (Harr _ _ Hl1) as (calls & Hl2). simpl in Hl2.
  destruct (Hobj _ _ Hc1) as (pc' & Hc2 & Hw).
  destruct Hat2 as (pr2 & pc2 & Hr2 & Hk2 & Hc2' & Hst2).
  assert (Hltc : c < length (heap s2)) by (by eapply lookup_lt_Some).
  assert (Hltl : l < length (heap s2)) by (by eapply lookup_lt_Some).
  assert (Hrun : newContext (VObj req) agent s2 =
    (Ok (VObj c),
     set_heap (<[c := OObj (("agent", agent) :: pc' ++ context_props s (VObj req))]>
                 (heap s2)) s2)).
  { unfold newContext. rewrite bind_run. simpl. rewrite Hr2, Hk2. simpl.
    rewrite bind_run. simpl. rewrite bind_run. unfold set_prop, modify.
    by rewrite Hc2. }
  rewrite Hrun. eexists _, calls. split_and!; [done|done| | |].
  - unfold field_of. simpl. by rewrite list_lookup_insert_eq.
  - intros ->. simpl in Hl2. unfold s2 in Hl2. simpl in Hl2. congruence.
  - cbv zeta. simpl. rewrite length_insert.
    assert (Hctx : get_field
      (<[c := OObj (("agent", agent) :: pc' ++ context_props s (VObj req))]> (heap s2)
       ++ [OObj [("datadogContext", VObj c)]]) (VObj (length (heap s2))) "datadogContext"
      = VObj c).
    { simpl. rewrite (list_lookup_middle _ [] _ (length (heap s2)));
        [done|by rewrite length_insert]. }
    split.
    + split_and!; [done|exact Hctx|].
      exists (("agent", agent) :: pc' ++ context_props s (VObj req)). split_and!.
      * simpl. rewrite lookup_app_l by (by rewrite length_insert).
        by apply list_lookup_insert_eq.
      * simpl. rewrite assoc_outcome_writes; [done..|]. by apply not_outcome_key.
      * simpl. rewrite assoc_outcome_writes; [done..|]. by apply not_outcome_key.
      * simpl. rewrite lookup_app_l by (by rewrite length_insert).
        rewrite list_lookup_insert_ne by (unfold c, l; lia). done.
    + unfold schemaLevelResolve. rewrite bind_run. unfold get_prop, gets.
      cbv beta. cbn [heap set_heap]. rewrite Hctx. simpl. done.
Qed.

(** X11. [newContext] on a request without a context first calls
    [agent.debugFn]; when that call fails — [debugFn] throws, or the agent
    has no callable [debugFn] — [newContext] fails with the same exception
    and the request is left without a context. *)
Theorem newContext_diagnostic_fails req ps agent s e s' :
  heap s !! req = Some (OObj ps) →
  truthy (default VUndef (assoc "_datadogContext" ps)) = false →
  call_method agent "debugFn"
    [AVal (VStr "Optics context not found. Make sure Optics middleware is installed.")] s
    = (Thrown e, s') →
  newContext (VObj req) agent s = (Thrown e, s') ∧
  truthy (field_of req "_datadogContext" s') = false.
Proof.
  intros Hreq Hno Hcall. split.
  - unfold newContext. rewrite bind_run. simpl. rewrite Hreq. simpl. rewrite Hno. simpl.
    rewrite bind_run. rewrite bind_run. by rewrite Hcall.
  - assert (Hg := growing_call_method agent "debugFn"
      [AVal (VStr "Optics context not found. Make sure Optics middleware is installed.")] s).
    rewrite Hcall in Hg. simpl in Hg.
    rewrite (grows_field s s' req ps "_datadogContext" Hg Hreq);
      [|by apply not_outcome_key].
    unfold field_of. simpl. by rewrite Hreq.
Qed.

(** ** More on schema wrapping *)

Definition primitive (v : value) : bool :=
  match v with
  | VUndef | VNull | VBool _ | VNum _ | VStr _ => true
  | _ => false
  end.

Lemma primitive_deferred h v : primitive v = true → deferred h v = [].
Proof. by destruct v. Qed.

Lemma defaultResolveFn_property o po tn fn args context s :
  heap s !! o = Some (OObj po) →
  typeof_function (default VUndef (assoc fn po)) = false →
  defaultResolveFn (VObj o) args context (VFieldInfo tn fn) s
    = (Ok (default VUndef (assoc fn po)), s).
Proof.
  intros Ho Hf. unfold defaultResolveFn. rewrite bind_run. simpl.
  rewrite bind_run. simpl. rewrite Ho. simpl. by rewrite Hf.
Qed.

(** X13. The decorated default resolver, which is what [instrumentSchema]
    leaves on a field that had no resolver, called with a RequestContext on a
    parent object that has a property of the field's name of its own, holding
    a primitive value ([null] and [undefined] included): the call returns
    that value; the record of the call carries the field's type and field
    name, [resultNull] for [null] and [resultUndefined] for [undefined], and
    is complete when the call returns. *)
Theorem default_field_recorded tn fn rf o po v args ctx itn s c l t0 calls :
  resolve (instrumentField (Field tn fn None)) ≫= runnable = Some rf →
  request_context s ctx c l t0 calls →
  heap s !! o = Some (OObj po) →
  assoc fn po = Some v →
  primitive v = true →
  let info := VFieldInfo itn fn in
  let r := length (heap s) in
  let s1 := called_state s l t0 calls (VFieldInfo tn fn) ctx info in
  call_resolver rf (VObj o) args ctx info s =
  (Ok v,
   set_heap (<[r := OObj (("endOffset", VHr (hr_now s - t0)) :: result_flag v
                            ++ report_props (VHr (hr_now s - t0)) (VFieldInfo tn fn)
                                 info ctx)]> (heap s1)) s1).
Proof.
  intros [= <-] Hctx Ho Hv Hprim info r s1. simpl.
  assert (Hctx' := Hctx). destruct Hctx' as (_ & _ & pc & Hc & _ & _ & Hl).
  assert (Hlt : l < length (heap s)) by (by eapply lookup_lt_Some).
  assert (Hot : o < length (heap s)) by (by eapply lookup_lt_Some).
  assert (Ho1 : heap s1 !! o = Some (OObj po)).
  { simpl. rewrite list_lookup_insert_ne by (intros ->; congruence).
    by rewrite lookup_app_l. }
  assert (Hfn : call_resolver RDefault (VObj o) args ctx info s1 = (Ok v, s1)).
  { assert (Hp := defaultResolveFn_property o po itn fn args ctx s1 Ho1).
    rewrite Hv in Hp. simpl in Hp. apply Hp. by destruct v. }
  exact (sync_result_run RDefault (VFieldInfo tn fn) (VObj o) args ctx info s c l t0 calls
           v s1 Hctx Hfn (primitive_deferred _ _ Hprim)).
Qed.

(** ** The Hapi handlers *)

(** The Hapi request [request] wraps the node request [req]. *)
Definition hapi_request (s : state) (request req : loc) : Prop :=
  ∃ prq raw praw, heap s !! request = Some (OObj prq) ∧
                  assoc "raw" prq = Some (VObj raw) ∧
                  heap s !! raw = Some (OObj praw) ∧
                  assoc "req" praw = Some (VObj req).

Lemma hapi_request_req s request req :
  hapi_request s request req →
  (let! raw := get_prop (VObj request) "raw" in get_prop raw "req") s = (Ok (VObj req), s).
Proof.
  intros (prq & raw & praw & H1 & H2 & H3 & H4).
  unfold bind, get_prop, gets. simpl. rewrite H1, H2. simpl. by rewrite H3, H4.
Qed.

Lemma preRequest_hapi_request s request req ps :
  heap s !! req = Some (OObj ps) →
  hapi_request s request req → hapi_request (preRequest (VObj req) s).2 request req.
Proof.
  intros Hreq (prq & raw & praw & H1 & H2 & H3 & H4).
  rewrite (preRequest_run req ps s Hreq). simpl.
  assert (Hlt : req < length (heap s)) by (by eapply lookup_lt_Some).
  assert (Hl : ∀ x px, heap s !! x = Some (OObj px) →
    ∃ px', <[req := OObj (("_datadogContext", VObj (S (length (heap s)))) :: ps)]>
             ((heap s ++ [OArr []]) ++ [OObj (context_props s (VObj req))]) !! x
           = Some (OObj px') ∧
           ∀ k, k ≠ "_datadogContext" → assoc k px' = assoc k px).
  { intros x px Hx. assert (x < length (heap s)) by (by eapply lookup_lt_Some).
    destruct (decide (x = req)) as [->|Hne].
    - rewrite Hreq in Hx. injection Hx as <-. eexists. split.
      + apply list_lookup_insert_eq. rewrite !length_app. simpl. lia.
      + intros k Hk. simpl. by rewrite bool_decide_eq_false_2.
    - exists px. split; [|done]. rewrite list_lookup_insert_ne by done.
      rewrite lookup_app_l by (rewrite length_app; simpl; lia).
      by rewrite lookup_app_l. }
  destruct (Hl _ _ H1) as (prq' & H1' & Hk1).
  destruct (Hl _ _ H3) as (praw' & H3' & Hk3).
  exists prq', raw, praw'. split_and!; [done| |done|].
  - by rewrite Hk1.
  - by rewrite Hk3.
Qed.

Lemma grows_hapi_request s s' request req :
  grows s s' → hapi_request s request req → hapi_request s' request req.
Proof.
  intros (_ & _ & Hobj & _) (prq & raw & praw & H1 & H2 & H3 & H4).
  destruct (Hobj _ _ H1) as (prq' & H1' & Hw1).
  destruct (Hobj _ _ H3) as (praw' & H3' & Hw3).
  exists (prq' ++ prq), raw, (praw' ++ praw). split_and!; [done| |done|].
  - rewrite assoc_outcome_writes; [done..|]. by apply not_outcome_key.
  - rewrite assoc_outcome_writes; [done..|]. by apply not_outcome_key.
Qed.

(** X14. The Hapi handlers, on a Hapi request that wraps a node request: the
    pre-handler attaches a new context to the node request and then returns
    what [reply.continue()] returns or throws; the post-handler, whatever has
    happened in between, notes the duration on that context, queues one
    [reportRequestEnd] for the node request and then returns what
    [reply.continue()] returns or throws. *)
Theorem hapi_handlers_lifecycle request req ps reply s evs :
  hapi_request s request req →
  heap s !! req = Some (OObj ps) →
  let c := S (length (heap s)) in
  let s1 := (preRequest (VObj req) s).2 in
  hapi_onPreHandler (VObj request) reply s = call_method reply "continue" [] s1 ∧
  attached s1 req c (hr_now s) ∧
  let s2 := run_events evs (hapi_onPreHandler (VObj request) reply s).2 in
  ∃ s3,
    hapi_onPostHandler (VObj request) reply s2 = call_method reply "continue" [] s3 ∧
    field_of c "durationHrTime" s3 = VHr (hr_now s2 - hr_now s) ∧
    immediates s3 = immediates s ++ [TReportRequestEnd (VObj req)] ∧
    reports s3 = reports s.
Proof.
  intros Hrq Hreq c s1.
  assert (Hat1 := preRequest_attached req ps s Hreq). fold s1 c in Hat1.
  assert (Hpre : hapi_onPreHandler (VObj request) reply s
                 = call_method reply "continue" [] s1).
  { unfold hapi_onPreHandler.
    assert (H := hapi_request_req s request req Hrq). rewrite bind_run in H.
    rewrite bind_run. destruct (get_prop (VObj request) "raw" s) as [[raw|?] s0]; [|done].
    rewrite bind_run, H, bind_run. unfold s1.
    rewrite (preRequest_run req ps s Hreq). done. }
  split_and!; [done..|].
  intros s2. unfold s2. rewrite Hpre. clear s2.
  set (s2 := run_events evs (call_method reply "continue" [] s1).2).
  assert (Hg : grows s1 s2).
  { eapply grows_trans; [apply growing_call_method|apply grows_run_events]. }
  assert (Hrq2 : hapi_request s2 request req).
  { eapply grows_hapi_request; [exact Hg|]. by eapply preRequest_hapi_request. }
  assert (Hat2 := grows_attached _ _ _ _ _ Hg Hat1).
  eexists. split_and!.
  - unfold hapi_onPostHandler.
    assert (H := hapi_request_req s2 request req Hrq2). rewrite bind_run in H.
    rewrite bind_run. destruct (get_prop (VObj request) "raw" s2) as [[raw|?] s0]; [|done].
    rewrite bind_run, H, bind_run.
    by rewrite (postRequest_run req c _ s2 Hat2).
  - unfold field_of. simpl. rewrite list_lookup_insert_eq; [done|].
    destruct Hat2 as (? & ? & _ & _ & Hc & _). by eapply lookup_lt_Some.
  - simpl. destruct Hg as (_ & _ & _ & -> & _). unfold s1.
    by rewrite (preRequest_run req ps s Hreq).
  - simpl. destruct Hg as (_ & _ & _ & _ & ->). unfold s1.
    by rewrite (preRequest_run req ps s Hreq).
Qed.
End Model.

(** * A concrete program

    An application with four resolvers and a request in flight, on which the
    model is run. *)

Module Example.

(** The functions of the application: [0] returns the promise [0], [1]
    throws, [2] returns the array at [3], [3] returns a number, [5] returns
    the object at [4]; [6] calls the function it is handed, at once, and
    returns [this]; [7] returns [this]; [8] calls the function it is handed
    twice and returns [this]; the others return [undefined]. *)
Definition app (k : fn_id) (this : value) (args : list arg) (a : unit)
    : behaviour unit :=
  match k with
  | 0 => Return (Ok (VPromise 0)) a
  | 1 => Return (Thrown (VStr "boom")) a
  | 2 => Return (Ok (VObj 3)) a
  | 3 => Return (Ok (VNum 7)) a
  | 5 => Return (Ok (VObj 4)) a
  | 6 => CallBack 0 VUndef (fun _ => Return (Ok this) a)
  | 7 => Return (Ok this) a
  | 8 => CallBack 0 VUndef (fun _ => CallBack 0 VUndef (fun _ => Return (Ok this) a))
  | _ => Return (Ok VUndef) a
  end.

(** The heap: [0] the GraphQL context, [1] its RequestContext, [2] the
    [resolverCalls] array, [3] an array of three promises and a number.  The
    three promises are the application's, and pending. *)
Definition st0 : state :=
  State tt 150%Z 5000%Z
    [OObj [("datadogContext", VObj 1)];
     OObj [("resolverCalls", VObj 2); ("startHrTime", VHr 100%Z)];
     OArr [];
     OArr [VPromise 0; VPromise 1; VNum 3%Z; VPromise 2]]
    [Promise Pending [] true; Promise Pending [] true; Promise Pending [] true]
    [] [] [] [].

Definition ctx : value := VObj 0.
Definition fi : value := VFieldInfo "Query" "items".
Definition info : value := VFieldInfo "Query" "items".

(** A context whose [datadogContext] has no [resolverCalls]. *)
Definition st_bad : state :=
  State tt 150%Z 5000%Z [OObj [("datadogContext", VObj 1)]; OObj []] [] [] [] [] [].

(** The same with, at [4], an object whose [then] is function [1], which
    throws. *)
Definition st_then : state :=
  set_heap (heap st0 ++ [OObj [("then", VFun 1)]]) st0.

(** A request object with nothing attached, and an agent with a [debugFn]. *)
Definition st_req : state :=
  State tt 150%Z 5000%Z [OObj []; OObj [("debugFn", VFun 4)]] [] [] [] [] [].

(** The heap of [st0] with, at [4], an object whose [then] is function [6]
    and whose [catch] is function [7]: a thenable that calls back at once. *)
Definition st_eager : state :=
  set_heap (heap st0 ++ [OObj [("then", VFun 6); ("catch", VFun 7)]]) st0.

(** The same with function [8] for [then]: the handler is called twice. *)
Definition st_twice : state :=
  set_heap (heap st0 ++ [OObj [("then", VFun 8); ("catch", VFun 7)]]) st0.

(** A schema with the root type [Query]. *)
Definition sch0 : schema :=
  Schema false ["Query"]
         [Field "Query" "items" (Some (FApp 2)); Field "Query" "name" None;
          Field "Item" "label" (Some (FApp 3))].

(** An application that counts the calls of its functions; each returns [7]. *)
Definition counting (k : fn_id) (this : value) (args : list arg) (n : nat)
    : behaviour nat :=
  Return (Ok (VNum 7)) (S n).

(** The heap of [st_bad], for the counting application. *)
Definition st_count : state :=
  State 0 150%Z 5000%Z [OObj [("datadogContext", VObj 1)]; OObj []] [] [] [] [] [].

Lemma st0_wf : wf_state st0.
Proof.
  split; [|constructor].
  intros q pr Hq. destruct q as [|[|[|q]]]; simpl in Hq; try done;
    injection Hq as <-; constructor.
Qed.

Lemma st0_context : request_context st0 ctx 1 2 100 [].
Proof.
  split_and!; [done..|].
  exists [("resolverCalls", VObj 2); ("startHrTime", VHr 100%Z)]. by split_and!.
Qed.

(** C3, at an input on which the code fails. The wrapped function returns
    the array of the promises [0], [1] and [2]; ten time units later promise
    [2] is rejected.  Three jobs later the record has [error = true] and its
    [endOffset], while the promises [0] and [1] are still pending:
    [Promise.all] rejects with the first rejection, it does not wait for the
    other elements.  When they are fulfilled, thirty time units later, the
    record stays as it is. *)
Theorem decoratedResolver_array_first_rejection :
  let s3 := (decoratedResolver app (call_resolver app (RApp 2)) fi
               VUndef VUndef ctx info st0).2 in
  let s4 := run_events app
              [EvTick 10 0; EvSettle 2 (Rejected (VStr "boom"));
               EvRunJob; EvRunJob; EvRunJob] s3 in
  let s5 := run_events app
              [EvTick 30 0; EvSettle 0 (Fulfilled (VNum 1)); EvSettle 1 (Fulfilled (VNum 2));
               EvRunJob; EvRunJob; EvRunJob; EvRunJob] s4 in
  field_of 4 "endOffset" s3 = VUndef ∧
  (field_of 4 "error" s4 = VBool true ∧
   field_of 4 "endOffset" s4 = VHr 60 ∧
   state_of_promise 0 s4 = Pending ∧
   state_of_promise 1 s4 = Pending ∧
   state_of_promise 2 s4 = Rejected (VStr "boom")) ∧
  (state_of_promise 0 s5 = Fulfilled (VNum 1) ∧
   state_of_promise 1 s5 = Fulfilled (VNum 2) ∧
   queue s5 = [] ∧
   hr_now s5 - 100 = 90 ∧
   record_props 4 s5 = record_props 4 s4)%Z.
Proof. vm_compute. by split_and!. Qed.

(** C1 as stated fails: the object at [4] has a callable [then], which calls
    the function it is handed at once; when the wrapper returns that object,
    [endOffset] is set. *)
Lemma decoratedResolver_eager_thenable :
  typeof_function (get_field (heap st_eager) (VObj 4) "then") = true ∧
  ∃ s3, decoratedResolver app (call_resolver app (RApp 5)) fi VUndef VUndef ctx info
          st_eager = (Ok (VObj 4), s3) ∧
        field_of 5 "endOffset" s3 = VHr 50 ∧
        queue s3 = [].
Proof. split; [reflexivity|]. eexists. split_and!; reflexivity. Qed.

Lemma single_promise_witness :
  ∃ s3, decoratedResolver app (call_resolver app (RApp 0)) fi VUndef VUndef ctx info st0
          = (Ok (VPromise 0), s3) ∧
        field_of 4 "endOffset" s3 = VUndef.
Proof.
  pose proof (decoratedResolver_single_promise app (RApp 0) fi VUndef VUndef ctx info
                st0 1 2 100 [] (VPromise 0) _ st0_wf st0_context eq_refl eq_refl) as H.
  cbv zeta in H. destruct H as (s3 & H1 & H2).
  exists s3. split; [exact H1|].
  exact (proj1 (proj2 (proj2 (H2 0 eq_refl ltac:(simpl; lia))))).
Defined.



Lemma sync_throw_witness :
  ∃ s3, decoratedResolver app (call_resolver app (RApp 1)) fi VUndef VUndef ctx info st0
          = (Thrown (VStr "boom"), s3) ∧
        heap s3 !! 2 = Some (OArr [VObj 4]) ∧
        field_of 4 "error" s3 = VBool true ∧
        field_of 4 "endOffset" s3 = VHr 50.
Proof.
  pose proof (decoratedResolver_sync_throw app (RApp 1) fi VUndef VUndef ctx info
                st0 1 2 100 [] (VStr "boom") _ st0_context eq_refl) as H.
  cbv zeta in H. destruct H as (_ & _ & _ & H1 & _ & H2 & H3).
  eexists. split_and!; [exact H1|reflexivity|exact H2|exact H3].
Defined.

Lemma no_context_witness :
  decoratedResolver app (call_resolver app (RApp 1)) fi VUndef VUndef VUndef info st0
  = call_resolver app (RApp 1) VUndef VUndef VUndef info st0.
Proof. apply decoratedResolver_no_context. left. reflexivity. Defined.

(** C5 as stated fails: the [datadogContext] of this context is there but
    has no [resolverCalls], the push of the new record throws, and the
    [TypeError] reaches the caller although the wrapped function would have
    returned [7]. *)
Lemma decoratedResolver_bookkeeping_fault :
  ∃ s', truthy (get_field (heap st_bad) ctx "datadogContext") = true ∧
        decoratedResolver app (call_resolver app (RApp 3)) fi VUndef VUndef ctx info st_bad
          = (Thrown TypeError, s') ∧
        call_resolver app (RApp 3) VUndef VUndef ctx info st_bad = (Ok (VNum 7), st_bad).
Proof. eexists. split_and!; reflexivity. Qed.

Lemma faults_witness :
  (∃ s3, decoratedResolver app (call_resolver app (RApp 5)) fi VUndef VUndef ctx info st_then
           = (Ok (VObj 4), s3)) ∧
  (∃ s1, decoratedResolver app (call_resolver app (RApp 3)) fi VUndef VUndef ctx info st_bad
           = (Thrown TypeError, s1)).
Proof.
  split.
  - eapply (proj1 (decoratedResolver_faults app (call_resolver app (RApp 5)) fi
                     VUndef VUndef ctx info st_then)); reflexivity.
  - eexists.
    eapply (proj2 (decoratedResolver_faults app (call_resolver app (RApp 3)) fi
                     VUndef VUndef ctx info st_bad)); reflexivity.
Defined.

(** C7 as stated fails: the field [Item.label] of the instrumented schema is
    called with a context whose [datadogContext] has no [resolverCalls]; the
    creation of the record throws and the function under the decoration is
    not called once, but not at all: the application has counted no call. *)
Lemma instrumented_field_not_called :
  ∃ f rf s1,
    fields (instrumentSchema sch0) !! 2 = Some f ∧
    resolve f ≫= runnable = Some rf ∧
    call_resolver counting rf VUndef VUndef ctx info st_count = (Thrown TypeError, s1) ∧
    app_state s1 = 0 ∧
    app_state (call_resolver counting (RApp 3) VUndef VUndef ctx info st_count).2 = 1.
Proof. eexists _, _, _. split_and!; reflexivity. Qed.

Lemma instrumentSchema_witness :
  Nat.iter 3 instrumentSchema sch0 = instrumentSchema sch0.
Proof.
  refine (proj1 (proj2 (instrumentSchema_idempotent app sch0 2 eq_refl _))).
  repeat constructor.
Defined.

Lemma null_source_witness :
  defaultResolveFn app VNull VUndef VUndef info st0 = (Thrown TypeError, st0).
Proof. apply defaultResolveFn_null_source; discriminate. Defined.

(** C10 as stated fails: [postRequest] on a request with nothing attached
    leaves it so. *)
Lemma postRequest_attaches_nothing :
  postRequest (VObj 0) st_req = (Ok tt, st_req) ∧
  field_of 0 "_datadogContext" st_req = VUndef.
Proof. split; reflexivity. Qed.

Lemma postRequest_witness :
  postRequest (VObj 0) st_req = (Ok tt, st_req) ∧
  ∃ s', newContext app (VObj 0) (VObj 1) st_req = (Ok (VObj 3), s') ∧
        field_of 0 "_datadogContext" s' = VObj 3.
Proof.
  pose proof (postRequest_without_context app 0 [] (VObj 1) st_req VUndef st_req
                eq_refl eq_refl eq_refl) as H.
  cbv zeta in H. destruct H as (H1 & s' & H2 & _ & H3 & _).
  split; [exact H1|]. exists s'. split; [exact H2|exact H3].
Defined.

End Example.

(** * The default agent

    The module that keeps one [Agent] for the program and forwards to it
    ([configureAgent], [instrumentSchema], [middleware], [koaMiddleware],
    [instrumentHapiServer], [context]). *)

Module DefaultAgent.

Section Singleton.

(** The class [Agent] is imported from [./Agent]; the module is modelled over
    any such class: a constructor and five methods, which return or throw
    (exceptions [E]) and act on a state [W] of their own.  [V] is the type of
    the values passed through. *)
Context {V E W agent : Type}.

Inductive method :=
| MInstrumentSchema | MMiddleware | MKoaMiddleware | MInstrumentHapiServer | MContext.

(** [new Agent()] is [new_Agent None], [new Agent(options)] is
    [new_Agent (Some options)]. *)
Variable new_Agent : option V → W → (agent + E) * W.
Variable call : method → agent → list V → W → (V + E) * W.

Inductive thrown :=
| Error (message : string)      (* [new Error(message)], thrown by this module *)
| Raised (e : E).               (* thrown by the class *)

Inductive outcome :=
| Returned (v : option V)       (* [None]: the function returns nothing *)
| Threw (t : thrown).

(** The module's variable [defaultAgent], [None] for [null], and the state of
    the class. *)
Record module_state := ModuleState {
  defaultAgent : option agent;
  world : W;
}.

Definition already_set : string :=
  "GraphQLDog Agent configuration already set. Make sure `configureAgent` is called only once and before any calls to `middleware`, `instrumentSchema`, or `instrumentHapiServer`.".

Definition configureAgent (options : V) (s : module_state) : outcome * module_state :=
  match defaultAgent s with
  | Some _ => (Threw (Error already_set), s)
  | None =>
      match new_Agent (Some options) (world s) with
      | (inl ag, w) => (Returned None, ModuleState (Some ag) w)
      | (inr e, w) => (Threw (Raised e), ModuleState None w)
      end
  end.

(** [if (!defaultAgent) { defaultAgent = new Agent(); }
     return defaultAgent.m(...args);] *)
Definition forward (m : method) (args : list V) (s : module_state)
    : outcome * module_state :=
  let run ag w :=
    match call m ag args w with
    | (inl v, w') => (Returned (Some v), ModuleState (Some ag) w')
    | (inr e, w') => (Threw (Raised e), ModuleState (Some ag) w')
    end in
  match defaultAgent s with
  | Some ag => run ag (world s)
  | None =>
      match new_Agent None (world s) with
      | (inl ag, w) => run ag w
      | (inr e, w) => (Threw (Raised e), ModuleState None w)
      end
  end.

Definition instrumentSchema (schema : V) := forward MInstrumentSchema [schema].
Definition middleware := forward MMiddleware [].
Definition koaMiddleware := forward MKoaMiddleware [].
Definition instrumentHapiServer (server : V) := forward MInstrumentHapiServer [server].
Definition context (req : V) := forward MContext [req].

(** The calls a program makes of the module. *)
Inductive api :=
| ConfigureAgent (options : V)
| InstrumentSchema (schema : V)
| Middleware
| KoaMiddleware
| InstrumentHapiServer (server : V)
| Context (req : V).

Definition step (c : api) : module_state → outcome * module_state :=
  match c with
  | ConfigureAgent options => configureAgent options
  | InstrumentSchema schema => instrumentSchema schema
  | Middleware => middleware
  | KoaMiddleware => koaMiddleware
  | InstrumentHapiServer server => instrumentHapiServer server
  | Context req => context req
  end.

Fixpoint run (cs : list api) (s : module_state) : list outcome * module_state :=
  match cs with
  | [] => ([], s)
  | c :: rest =>
      let '(o, s1) := step c s in
      let '(os, s2) := run rest s1 in
      (o :: os, s2)
  end.

Definition is_configure (c : api) : bool :=
  match c with ConfigureAgent _ => true | _ => false end.

Lemma forward_keeps m args s ag :
  defaultAgent s = Some ag → defaultAgent (forward m args s).2 = Some ag.
Proof.
  intros H. unfold forward. rewrite H. by destruct (call m ag args (world s)) as [[v|e] w].
Qed.

Lemma step_keeps c s ag :
  defaultAgent s = Some ag → defaultAgent (step c s).2 = Some ag.
Proof.
  intros H. destruct c; simpl; try (by apply forward_keeps).
  unfold configureAgent. by rewrite H.
Qed.

Lemma run_keeps cs : ∀ s ag,
  defaultAgent s = Some ag → defaultAgent (run cs s).2 = Some ag.
Proof.
  induction cs as [|c cs IH]; intros s ag H; [done|]. simpl.
  assert (H1 := step_keeps c s ag H). destruct (step c s) as [o s1].
  assert (H2 := IH s1 ag H1). by destruct (run cs s1) as [os s2].
Qed.

Lemma forward_returned m args s v s1 :
  forward m args s = (Returned v, s1) → ∃ ag, defaultAgent s1 = Some ag.
Proof.
  unfold forward. destruct (defaultAgent s) as [ag|].
  - destruct (call m ag args (world s)) as [[x|e] w]; intros [= _ <-]. by exists ag.
  - destruct (new_Agent None (world s)) as [[ag|e] w]; [|done].
    destruct (call m ag args w) as [[x|e] w']; intros [= _ <-]. by exists ag.
Qed.

Lemma step_returned c s v s1 :
  step c s = (Returned v, s1) → ∃ ag, defaultAgent s1 = Some ag.
Proof.
  destruct c; simpl; try apply forward_returned.
  unfold configureAgent. destruct (defaultAgent s); [done|].
  destruct (new_Agent (Some options) (world s)) as [[ag|e] w]; intros [= _ <-].
  by exists ag.
Qed.

(** X15. One agent for the program: once a call of any of the six functions
    has returned, the module holds an agent; no later call, of
    [configureAgent] or any other, sets another one; and every later call of
    the five forwarding functions is that agent's method, called once with
    the arguments given, and constructs nothing. *)
Theorem default_agent_is_kept c s v s1 :
  step c s = (Returned v, s1) →
  ∃ ag, defaultAgent s1 = Some ag ∧
    ∀ cs, let s2 := (run cs s1).2 in
      defaultAgent s2 = Some ag ∧
      ∀ m args,
        forward m args s2 =
        match call m ag args (world s2) with
        | (inl x, w) => (Returned (Some x), ModuleState (Some ag) w)
        | (inr e, w) => (Threw (Raised e), ModuleState (Some ag) w)
        end.
Proof.
  intros Hstep. destruct (step_returned c s v s1 Hstep) as [ag Hag].
  exists ag. split; [done|]. intros cs s2.
  assert (H2 : defaultAgent s2 = Some ag) by (by apply run_keeps).
  split; [done|]. intros m args. unfold forward. by rewrite H2.
Qed.

(** X16. [configureAgent] takes effect only before there is an agent: after a
    call of any of the six functions has returned, every call of
    [configureAgent] throws the error "configuration already set" and
    changes nothing, the class is not even asked.  When that first call was
    not [configureAgent], the agent is the one [new Agent()] made, without
    options. *)
Theorem configureAgent_only_first c s v s1 :
  defaultAgent s = None →
  step c s = (Returned v, s1) →
  (∀ cs options, let s2 := (run cs s1).2 in
     configureAgent options s2 = (Threw (Error already_set), s2)) ∧
  (is_configure c = false →
   ∃ ag w, new_Agent None (world s) = (inl ag, w) ∧ defaultAgent s1 = Some ag) ∧
  (∀ options, c = ConfigureAgent options →
   ∃ ag, new_Agent (Some options) (world s) = (inl ag, world s1) ∧
         defaultAgent s1 = Some ag).
Proof.
  intros Hnone Hstep. destruct (step_returned c s v s1 Hstep) as [ag Hag].
  split_and!.
  - intros cs options s2.
    assert (H2 : defaultAgent s2 = Some ag) by (by apply run_keeps).
    unfold configureAgent. by rewrite H2.
  - intros Hc.
    assert (Hf : ∃ m args, step c s = forward m args s).
    { destruct c; try done; simpl; eauto. }
    destruct Hf as (m & args & Hf). rewrite Hf in Hstep. unfold forward in Hstep.
    rewrite Hnone in Hstep.
    destruct (new_Agent None (world s)) as [[ag'|e] w]; [|done].
    exists ag', w. split; [done|].
    destruct (call m ag' args w) as [[x|e] w']; by injection Hstep as _ <-.
  - intros options ->. simpl in Hstep. unfold configureAgent in Hstep.
    rewrite Hnone in Hstep.
    destruct (new_Agent (Some options) (world s)) as [[ag'|e] w]; [|done].
    injection Hstep as _ <-. by exists ag'.
Qed.

End Singleton.

End DefaultAgent.

(** * The further properties on concrete programs *)

Module Coverage.

Import Example.

(** [st0] with a parent object at [4]. *)
Definition st_parent : state :=
  set_heap (heap st0 ++ [OObj [("name", VStr "Ann"); ("age", VNull)]]) st0.

(** A Hapi request at [0] that wraps, by its [raw] at [1], the node request at
    [2]; the reply object at [3] has a [continue] that is function [3]. *)
Definition st_hapi : state :=
  State tt 150%Z 5000%Z
    [OObj [("raw", VObj 1)]; OObj [("req", VObj 2)]; OObj [];
     OObj [("continue", VFun 3)]]
    [] [] [] [] [].

Lemma st_parent_context : request_context st_parent ctx 1 2 100 [].
Proof.
  split_and!; [done..|].
  exists [("resolverCalls", VObj 2); ("startHrTime", VHr 100%Z)]. by split_and!.
Qed.

Lemma request_context_stable_witness :
  ∃ more,
    request_context
      (run_events app [EvTick 5 0; EvCall (RDecorated (RApp 3) fi) VUndef VUndef ctx info;
                       EvSettle 1 (Fulfilled (VNum 1)); EvRunJob] st0)
      ctx 1 2 100 ([] ++ more).
Proof. apply (request_context_stable app st0 ctx 1 2 100 []). exact st0_context. Defined.

Lemma append_only_witness :
  ∃ more,
    request_context
      (run_events app [EvRunJob]
         (decoratedResolver app (call_resolver app (RApp 0)) fi VUndef VUndef ctx info st0).2)
      ctx 1 2 100 ([] ++ VObj 4 :: more).
Proof.
  exact (resolverCalls_append_only app (RApp 0) fi VUndef VUndef ctx info st0 1 2 100 []
           [EvRunJob] st0_context).
Defined.

Lemma invocation_order_witness :
  ∃ m1 m2,
    heap (run_events app []
            (decoratedResolver app (call_resolver app (RApp 3)) fi VUndef VUndef ctx info
               (run_events app [EvTick 1 0]
                  (decoratedResolver app (call_resolver app (RApp 0)) fi
                     VUndef VUndef ctx info st0).2)).2) !! 2
      = Some (OArr ([] ++ VObj 4 :: m1 ++ VObj 5 :: m2)).
Proof.
  destruct (resolverCalls_invocation_order app (RApp 0) fi VUndef VUndef info
              (RApp 3) fi VUndef VUndef info ctx st0 1 2 100 [] [EvTick 1 0] []
              st0_context) as (m1 & m2 & H & _).
  exists m1, m2. exact H.
Defined.

Lemma sync_result_witness :
  ∃ s3,
    decoratedResolver app (call_resolver app (RApp 3)) fi VUndef VUndef ctx info st0
      = (Ok (VNum 7), s3) ∧
    field_of 4 "endOffset" s3 = VHr 50 ∧ queue s3 = [] ∧ promises s3 = promises st0.
Proof.
  eexists. split; [|split_and!].
  - exact (decoratedResolver_sync_result app (RApp 3) fi VUndef VUndef ctx info st0
             1 2 100 [] (VNum 7) _ st0_context eq_refl eq_refl).
  - reflexivity.
  - reflexivity.
  - reflexivity.
Defined.

Lemma record_states_witness :
  let s4 := run_events app [EvTick 10 0; EvSettle 0 (Rejected (VStr "boom"));
                            EvRunJob; EvRunJob]
              (decoratedResolver app (call_resolver app (RApp 0)) fi
                 VUndef VUndef ctx info st0).2 in
  ∃ t, (50 ≤ t ≤ hr_now s4 - 100)%Z ∧
       assoc "endOffset" (record_props 4 s4) = Some (VHr t).
Proof.
  intros s4.
  pose proof (decoratedResolver_record_states app (RApp 0) fi VUndef VUndef ctx info
                st0 1 2 100 [] _ _
                [EvTick 10 0; EvSettle 0 (Rejected (VStr "boom")); EvRunJob; EvRunJob]
                st0_wf st0_context eq_refl) as H.
  cbv zeta in H. fold s4 in H.
  destruct H as [[H _]|(t & flag & H1 & H2 & _)].
  - intros v x [= <-] Hx. vm_compute in Hx.
    apply elem_of_cons in Hx as [->|Hx]; [|by apply elem_of_nil in Hx].
    eexists; split; [reflexivity|simpl; lia].
  - exfalso. vm_compute in H. discriminate H.
  - exists t. split; [exact H2|].
    transitivity (assoc "endOffset"
      (("endOffset", VHr t) :: flag ++ new_props st0 100 fi ctx info));
      [f_equal; exact H1|reflexivity].
Defined.

Lemma request_lifecycle_witness :
  ∃ s3,
    postRequest (VObj 0)
      (run_events app [EvTick 7 3] (preRequest (VObj 0) st_req).2) = (Ok tt, s3) ∧
    field_of 3 "durationHrTime" s3 = VHr 7.
Proof.
  pose proof (request_lifecycle app 0 [] st_req [EvTick 7 3] eq_refl) as H.
  cbv zeta in H. destruct H as (s3 & H1 & H2 & _).
  exists s3. split; [exact H1|exact H2].
Defined.

Lemma postRequest_queues_witness :
  immediates (postRequests app (VObj 0) [[]; [EvTick 1 0]; []] (preRequest (VObj 0) st_req).2)
  = replicate 3 (TReportRequestEnd (VObj 0)).
Proof.
  exact (proj1 (postRequest_queues_each_time app 0 3 150 [[]; [EvTick 1 0]; []]
                  (preRequest (VObj 0) st_req).2
                  (preRequest_attached 0 [] st_req eq_refl))).
Defined.

Lemma preRequest_overwrites_witness :
  field_of 0 "_datadogContext"
    (preRequest (VObj 0) (run_events app [] (preRequest (VObj 0) st_req).2)).2 = VObj 5.
Proof.
  exact (proj1 (proj2 (preRequest_overwrites app 0 [] st_req [] eq_refl))).
Defined.

Lemma newContext_witness :
  ∃ s3, newContext app (VObj 0) (VObj 1)
          (run_events app [] (preRequest (VObj 0) st_req).2) = (Ok (VObj 3), s3).
Proof.
  pose proof (newContext_request_context app 0 [] (VObj 1) VNull VUndef info st_req []
                eq_refl) as H.
  cbv zeta in H. destruct H as (s3 & calls & H1 & _).
  exists s3. exact H1.
Defined.

Lemma newContext_fails_witness :
  newContext app (VObj 0) (VObj 0) st_req = (Thrown TypeError, st_req).
Proof.
  exact (proj1 (newContext_diagnostic_fails app 0 [] (VObj 0) st_req TypeError st_req
                  eq_refl eq_refl eq_refl)).
Defined.

Lemma default_field_witness :
  ∃ s3,
    call_resolver app (RDecorated RDefault (VFieldInfo "Person" "age")) (VObj 4) VUndef ctx
      (VFieldInfo "Person" "age") st_parent = (Ok VNull, s3) ∧
    field_of 5 "resultNull" s3 = VBool true.
Proof.
  eexists. split.
  - exact (default_field_recorded app "Person" "age" _ 4
             [("name", VStr "Ann"); ("age", VNull)] VNull VUndef ctx "Person" st_parent
             1 2 100 [] eq_refl st_parent_context eq_refl eq_refl eq_refl).
  - reflexivity.
Defined.

Lemma hapi_handlers_witness :
  hapi_onPreHandler app (VObj 0) (VObj 3) st_hapi
  = call_method app (VObj 3) "continue" [] (preRequest (VObj 2) st_hapi).2.
Proof.
  refine (proj1 (hapi_handlers_lifecycle app 0 2 [] (VObj 3) st_hapi [] _ eq_refl)).
  exists [("raw", VObj 1)], 1, [("req", VObj 2)]. repeat split.
Defined.

(** A class whose constructor counts the agents it has made and whose
    methods return the agent's number. *)
Definition new_Agent (options : option nat) (w : nat) : (nat + string) * nat :=
  (inl w, S w).
Definition call (m : DefaultAgent.method) (ag : nat) (args : list nat) (w : nat)
    : (nat + string) * nat :=
  (inl ag, w).

Definition fresh : DefaultAgent.module_state (W:=nat) (agent:=nat) :=
  DefaultAgent.ModuleState None 0.

Lemma default_agent_witness :
  ∃ ag, DefaultAgent.defaultAgent
          (DefaultAgent.step new_Agent call DefaultAgent.Middleware fresh).2 = Some ag.
Proof.
  destruct (DefaultAgent.default_agent_is_kept new_Agent call DefaultAgent.Middleware
              fresh (Some 0) _ eq_refl) as (ag & H & _).
  exists ag. exact H.
Defined.

Lemma configureAgent_witness :
  DefaultAgent.configureAgent new_Agent 5
    (DefaultAgent.run new_Agent call [DefaultAgent.Context 1]
       (DefaultAgent.step new_Agent call DefaultAgent.Middleware fresh).2).2
  = (DefaultAgent.Threw (DefaultAgent.Error DefaultAgent.already_set),
     DefaultAgent.ModuleState (Some 0) 1).
Proof.
  exact (proj1 (DefaultAgent.configureAgent_only_first new_Agent call
                  DefaultAgent.Middleware fresh (Some 0) _ eq_refl eq_refl)
               [DefaultAgent.Context 1] 5).
Defined.

End Coverage.
